(** * Sales Ramp AI: the confidence-routed decision core

    A shallow embedding of the TypeScript services
    - [src/services/stage-engine.service.ts]  (rule engine, action router),
    - [src/services/audit.service.ts]         (audit log, rollback),
    - [src/services/alert.service.ts]         (alert generation),
    - [src/services/stall-detector.service.ts] (phrase detector, scoring),
    followed by the properties established about them.

    Conventions.
    - A JavaScript [number] that the code only adds, multiplies, divides,
      rounds and compares is an exact rational ([Q]); time stamps are
      integer milliseconds ([Z]); the one place where [Math.pow] with a
      fractional exponent enters (time decay) is modelled over [R].
      The source computes in IEEE doubles: its results are those of this
      model up to rounding, and with overflow, underflow and [NaN] at
      the far ends. Where a property turns on the value of a sum, an
      average or a power, it is stated with bounds that rounding keeps,
      and for configurations in which the source yields a number.
    - [Date.now()] / [new Date()] and [uuidv4()] are inputs of the
      operation that calls them ([now], [newId]).
    - [Map] objects are [gmap]s; arrays are lists; [undefined] is [None].
    - Logging calls have no effect on the results and are left out. *)

From Stdlib Require Import ZArith QArith Qround Qminmax Reals Lra Lia List String Ascii Bool.
From Stdlib Require Import Permutation Sorted.
From Stdlib Require Lqa.
From stdpp Require Import gmap strings list pretty.

Import ListNotations.

(* ===================================================================== *)
(** * Part I. The model                                                   *)
(* ===================================================================== *)

(** ** Shared helpers *)

(** [a < b] and [a >= b] on rationals, as booleans. *)
Definition Qltb (a b : Q) : bool := negb (Qle_bool b a).
Definition Qgeb (a b : Q) : bool := Qle_bool b a.

(** [Math.round(x)]: the integer nearest to [x], ties towards +infinity. *)
Definition Math_round (x : Q) : Z := Qfloor (x + (1 # 2)).

(** [x.toFixed(0)]: nearest integer (ties to the larger one), in decimal. *)
Definition toFixed0 (x : Q) : string := pretty (Math_round x).

(** [arr.join(sep)] on strings. *)
Fixpoint join (sep : string) (l : list string) : string :=
  match l with
  | [] => ""
  | [x] => x
  | x :: rest => x +:+ sep +:+ join sep rest
  end.

(** [Array.prototype.sort] with a comparator is a stable sort; [lt a b]
    says that the comparator puts [a] strictly before [b]. *)
Section StableSort.
Context {A : Type} (lt : A -> A -> bool).

Fixpoint sort_insert (x : A) (l : list A) : list A :=
  match l with
  | [] => [x]
  | y :: l' => if lt y x then y :: sort_insert x l' else x :: y :: l'
  end.

Definition stable_sort (l : list A) : list A :=
  fold_right sort_insert [] l.

End StableSort.

(** The double-quote character, as a one-character string. *)
Definition dquote : string := String (ascii_of_nat 34) EmptyString.

(* ===================================================================== *)
(** ** Stage engine ([stage-engine.service.ts])                           *)
(* ===================================================================== *)

Module StageEngine.

#[local] Open Scope Q_scope.

Inductive CallSignalType :=
  | LIVE_CONVERSATION | INTEREST_EXPRESSED | DEMO_SCHEDULED | PRICING_DISCUSSED
  | SEND_PRICING_REQUEST | OBJECTION_RAISED | OBJECTION_HANDLED
  | DECISION_MAKER_IDENTIFIED | NEXT_STEPS_DEFINED | NO_ANSWER | VOICEMAIL_LEFT
  | WRONG_NUMBER | GATEKEEPER | NOT_INTERESTED | COMPETITOR_MENTIONED
  | BUDGET_DISCUSSED | TIMELINE_DISCUSSED | FOLLOW_UP_REQUESTED.

(** Stages and dispositions share names with signal types in the source;
    their constructors carry a prefix here. *)
Inductive OutreachStage :=
  | ST_NEW | ST_ATTEMPTED | ST_WORKING | ST_QUALIFIED | ST_DEMO_SCHEDULED
  | ST_PROPOSAL | ST_NEGOTIATION | ST_CLOSED_WON | ST_CLOSED_LOST | ST_NURTURE.

Inductive OutreachDisposition :=
  | DI_NO_ANSWER | DI_LEFT_VOICEMAIL | DI_WRONG_NUMBER | DI_GATEKEEPER_BLOCK
  | DI_NOT_INTERESTED | DI_CONNECTED | DI_DEMO_SCHEDULED | DI_MEETING_SCHEDULED
  | DI_SENT_INFO | DI_CALLBACK_SCHEDULED | DI_FOLLOW_UP.

Inductive Action := AUTO_UPDATE | FLAG_FOR_CONFIRMATION | NO_ACTION.
Inductive ConfidenceLevel := HIGH | MEDIUM | LOW.

#[global] Instance CallSignalType_eq_dec : EqDecision CallSignalType.
Proof. solve_decision. Defined.
#[global] Instance OutreachStage_eq_dec : EqDecision OutreachStage.
Proof. solve_decision. Defined.
#[global] Instance Action_eq_dec : EqDecision Action.
Proof. solve_decision. Defined.

Definition allSignalTypes : list CallSignalType :=
  [ LIVE_CONVERSATION; INTEREST_EXPRESSED; DEMO_SCHEDULED; PRICING_DISCUSSED;
    SEND_PRICING_REQUEST; OBJECTION_RAISED; OBJECTION_HANDLED;
    DECISION_MAKER_IDENTIFIED; NEXT_STEPS_DEFINED; NO_ANSWER; VOICEMAIL_LEFT;
    WRONG_NUMBER; GATEKEEPER; NOT_INTERESTED; COMPETITOR_MENTIONED;
    BUDGET_DISCUSSED; TIMELINE_DISCUSSED; FOLLOW_UP_REQUESTED ].

Definition signalIndex (t : CallSignalType) : nat :=
  match t with
  | LIVE_CONVERSATION => 0 | INTEREST_EXPRESSED => 1 | DEMO_SCHEDULED => 2
  | PRICING_DISCUSSED => 3 | SEND_PRICING_REQUEST => 4 | OBJECTION_RAISED => 5
  | OBJECTION_HANDLED => 6 | DECISION_MAKER_IDENTIFIED => 7
  | NEXT_STEPS_DEFINED => 8 | NO_ANSWER => 9 | VOICEMAIL_LEFT => 10
  | WRONG_NUMBER => 11 | GATEKEEPER => 12 | NOT_INTERESTED => 13
  | COMPETITOR_MENTIONED => 14 | BUDGET_DISCUSSED => 15
  | TIMELINE_DISCUSSED => 16 | FOLLOW_UP_REQUESTED => 17
  end%nat.

#[global] Instance CallSignalType_countable : Countable CallSignalType.
Proof.
  apply (inj_countable' signalIndex (fun n => nth n allSignalTypes LIVE_CONVERSATION)).
  intros []; reflexivity.
Defined.

(** The enum values as the strings they are in the source. *)
Definition signalName (t : CallSignalType) : string :=
  match t with
  | LIVE_CONVERSATION => "LIVE_CONVERSATION"
  | INTEREST_EXPRESSED => "INTEREST_EXPRESSED"
  | DEMO_SCHEDULED => "DEMO_SCHEDULED"
  | PRICING_DISCUSSED => "PRICING_DISCUSSED"
  | SEND_PRICING_REQUEST => "SEND_PRICING_REQUEST"
  | OBJECTION_RAISED => "OBJECTION_RAISED"
  | OBJECTION_HANDLED => "OBJECTION_HANDLED"
  | DECISION_MAKER_IDENTIFIED => "DECISION_MAKER_IDENTIFIED"
  | NEXT_STEPS_DEFINED => "NEXT_STEPS_DEFINED"
  | NO_ANSWER => "NO_ANSWER"
  | VOICEMAIL_LEFT => "VOICEMAIL_LEFT"
  | WRONG_NUMBER => "WRONG_NUMBER"
  | GATEKEEPER => "GATEKEEPER"
  | NOT_INTERESTED => "NOT_INTERESTED"
  | COMPETITOR_MENTIONED => "COMPETITOR_MENTIONED"
  | BUDGET_DISCUSSED => "BUDGET_DISCUSSED"
  | TIMELINE_DISCUSSED => "TIMELINE_DISCUSSED"
  | FOLLOW_UP_REQUESTED => "FOLLOW_UP_REQUESTED"
  end.

Definition stageName (s : OutreachStage) : string :=
  match s with
  | ST_NEW => "NEW" | ST_ATTEMPTED => "ATTEMPTED" | ST_WORKING => "WORKING"
  | ST_QUALIFIED => "QUALIFIED" | ST_DEMO_SCHEDULED => "DEMO_SCHEDULED"
  | ST_PROPOSAL => "PROPOSAL" | ST_NEGOTIATION => "NEGOTIATION"
  | ST_CLOSED_WON => "CLOSED_WON" | ST_CLOSED_LOST => "CLOSED_LOST"
  | ST_NURTURE => "NURTURE"
  end.

Definition dispositionName (d : OutreachDisposition) : string :=
  match d with
  | DI_NO_ANSWER => "NO_ANSWER" | DI_LEFT_VOICEMAIL => "LEFT_VOICEMAIL"
  | DI_WRONG_NUMBER => "WRONG_NUMBER" | DI_GATEKEEPER_BLOCK => "GATEKEEPER_BLOCK"
  | DI_NOT_INTERESTED => "NOT_INTERESTED" | DI_CONNECTED => "CONNECTED"
  | DI_DEMO_SCHEDULED => "DEMO_SCHEDULED"
  | DI_MEETING_SCHEDULED => "MEETING_SCHEDULED" | DI_SENT_INFO => "SENT_INFO"
  | DI_CALLBACK_SCHEDULED => "CALLBACK_SCHEDULED" | DI_FOLLOW_UP => "FOLLOW_UP"
  end.

(** [CallSignal]: the fields the engine reads. *)
Record CallSignal := mkSignal {
  sig_type : CallSignalType;
  sig_confidence : Q;
  sig_evidence : string
}.

Record Conditions := mkConditions {
  requiredSignals : option (list CallSignalType);
  anySignals : option (list CallSignalType);
  excludeSignals : option (list CallSignalType);
  minConfidence : option Q
}.

Record RuleResult := mkRuleResult {
  stage : OutreachStage;
  disposition : option OutreachDisposition;
  flags : option (list string);
  suggestedTasks : option (list string)
}.

Record StageRule := mkRule {
  conditions : Conditions;
  result : RuleResult;
  priority : Z
}.

Record StageMappingResult := mkMapping {
  newStage : OutreachStage;
  res_disposition : option OutreachDisposition;
  confidence : Q;
  reasoning : string;
  res_flags : list string;
  requiresConfirmation : bool;
  res_suggestedTasks : list string
}.

Record ActionDecision := mkDecision {
  action : Action;
  confidenceLevel : ConfidenceLevel;
  dec_confidence : Q;
  reason : string
}.

Record StageEngineConfig := mkConfig {
  highConfidenceThreshold : Q;
  mediumConfidenceThreshold : Q;
  enableAutoUpdate : bool;
  enableFlagging : bool;
  signalWeights : CallSignalType -> option Q   (* Partial<Record<..>> *)
}.

(** [Partial<StageEngineConfig>], the constructor's argument. The
    constructor reads each key through [??], which takes a key that is
    absent and a key that holds [undefined] alike: both are [None]. *)
Record PartialConfig := mkPartial {
  p_high : option Q;
  p_medium : option Q;
  p_autoUpdate : option bool;
  p_flagging : option bool;
  p_weights : option (CallSignalType -> option Q)
}.

Definition DEFAULT_SIGNAL_WEIGHTS (t : CallSignalType) : Q :=
  match t with
  | LIVE_CONVERSATION => 1.0
  | INTEREST_EXPRESSED => 1.2
  | DEMO_SCHEDULED => 1.5
  | PRICING_DISCUSSED => 1.3
  | SEND_PRICING_REQUEST => 1.0
  | OBJECTION_RAISED => 0.8
  | OBJECTION_HANDLED => 1.1
  | DECISION_MAKER_IDENTIFIED => 1.2
  | NEXT_STEPS_DEFINED => 1.1
  | NO_ANSWER => 0.9
  | VOICEMAIL_LEFT => 0.9
  | WRONG_NUMBER => 1.0
  | GATEKEEPER => 0.8
  | NOT_INTERESTED => 1.0
  | COMPETITOR_MENTIONED => 0.9
  | BUDGET_DISCUSSED => 1.1
  | TIMELINE_DISCUSSED => 1.1
  | FOLLOW_UP_REQUESTED => 1.0
  end.

Definition rule (req any excl : option (list CallSignalType)) (minc : Q)
    (st : OutreachStage) (d : OutreachDisposition)
    (fl tasks : option (list string)) (p : Z) : StageRule :=
  mkRule (mkConditions req any excl (Some minc))
         (mkRuleResult st (Some d) fl tasks) p.

Definition STAGE_RULES : list StageRule :=
  [ (* Demo Scheduled - highest priority *)
    rule None (Some [DEMO_SCHEDULED]) None 0.6
         ST_DEMO_SCHEDULED DI_DEMO_SCHEDULED None
         (Some ["Confirm demo meeting details"; "Send calendar invite"]) 100;
    (* Not Interested - disqualify *)
    rule None (Some [NOT_INTERESTED]) None 0.7
         ST_CLOSED_LOST DI_NOT_INTERESTED (Some ["disqualified"]) None 95;
    (* Wrong Number - cleanup *)
    rule None (Some [WRONG_NUMBER]) None 0.8
         ST_CLOSED_LOST DI_WRONG_NUMBER (Some ["data_quality_issue"])
         (Some ["Verify contact information"]) 94;
    (* Pricing discussed + interest = Proposal stage *)
    rule (Some [PRICING_DISCUSSED])
         (Some [INTEREST_EXPRESSED; BUDGET_DISCUSSED]) None 0.6
         ST_PROPOSAL DI_CONNECTED None
         (Some ["Prepare proposal"; "Send pricing document"]) 85;
    (* "Send pricing" request - Negotiation with stall flag *)
    rule None (Some [SEND_PRICING_REQUEST])
         (Some [DEMO_SCHEDULED; NOT_INTERESTED]) 0.5
         ST_NEGOTIATION DI_SENT_INFO (Some ["stall_flag"; "needs_follow_up"])
         (Some ["Send pricing information"; "Schedule follow-up call in 3 days"]) 80;
    (* Live conversation with interest = Qualified *)
    rule (Some [LIVE_CONVERSATION])
         (Some [INTEREST_EXPRESSED; DECISION_MAKER_IDENTIFIED])
         (Some [NOT_INTERESTED]) 0.6
         ST_QUALIFIED DI_CONNECTED None (Some ["Schedule follow-up"]) 75;
    (* Objection handled = Working *)
    rule (Some [OBJECTION_HANDLED]) (Some [LIVE_CONVERSATION]) None 0.5
         ST_WORKING DI_CONNECTED None
         (Some ["Continue nurturing relationship"]) 70;
    (* Objection raised but not handled - needs attention *)
    rule (Some [OBJECTION_RAISED]) None
         (Some [OBJECTION_HANDLED; DEMO_SCHEDULED]) 0.5
         ST_WORKING DI_FOLLOW_UP
         (Some ["objection_unresolved"; "needs_coaching_review"])
         (Some ["Address objection in follow-up"; "Review call with manager"]) 65;
    (* Live conversation, neutral outcome *)
    rule (Some [LIVE_CONVERSATION]) None
         (Some [NOT_INTERESTED; WRONG_NUMBER]) 0.5
         ST_WORKING DI_CONNECTED None None 60;
    (* Follow-up requested/scheduled *)
    rule None (Some [FOLLOW_UP_REQUESTED; NEXT_STEPS_DEFINED])
         (Some [NOT_INTERESTED]) 0.5
         ST_WORKING DI_CALLBACK_SCHEDULED None
         (Some ["Schedule follow-up call"]) 55;
    (* Voicemail left *)
    rule None (Some [VOICEMAIL_LEFT]) None 0.7
         ST_ATTEMPTED DI_LEFT_VOICEMAIL None
         (Some ["Schedule next call attempt"]) 50;
    (* No answer *)
    rule None (Some [NO_ANSWER]) None 0.7
         ST_ATTEMPTED DI_NO_ANSWER None
         (Some ["Schedule next call attempt"]) 45;
    (* Gatekeeper - attempted *)
    rule None (Some [GATEKEEPER]) (Some [LIVE_CONVERSATION]) 0.6
         ST_ATTEMPTED DI_GATEKEEPER_BLOCK (Some ["gatekeeper_encountered"])
         (Some ["Try different approach"; "Research direct contact info"]) 40 ].

(** The service object: its configuration and the merged weight table. *)
Record Service := mkService {
  config : StageEngineConfig;
  weights : CallSignalType -> Q
}.

Definition mergeWeights (custom : CallSignalType -> option Q)
    (t : CallSignalType) : Q :=
  match custom t with
  | Some w => w
  | None => DEFAULT_SIGNAL_WEIGHTS t
  end.

(** [constructor(config?)]. *)
Definition new (c : PartialConfig) : Service :=
  let cfg := {|
    highConfidenceThreshold := default 0.8 (p_high c);
    mediumConfidenceThreshold := default 0.5 (p_medium c);
    enableAutoUpdate := default true (p_autoUpdate c);
    enableFlagging := default true (p_flagging c);
    signalWeights := default (fun _ => None) (p_weights c) |} in
  {| config := cfg; weights := mergeWeights (signalWeights cfg) |}.

Definition noOverrides : PartialConfig := mkPartial None None None None None.

(** *** Rule evaluation *)

(** [list?.includes(t)], [undefined] being falsy. *)
Definition includes (l : option (list CallSignalType)) (t : CallSignalType) : bool :=
  match l with
  | Some l => existsb (fun u => bool_decide (u = t)) l
  | None => false
  end.

(** The filter shared by [evaluateRule], [calculateConfidence] and
    [generateReasoning]. *)
Definition relevantSignals (c : Conditions) (signals : list CallSignal)
    : list CallSignal :=
  List.filter
    (fun s => if includes (requiredSignals c) (sig_type s) then true
              else if includes (anySignals c) (sig_type s) then true
              else false)
    signals.

Definition sumConfidence (l : list CallSignal) : Q :=
  fold_left (fun sum s => sum + sig_confidence s) l 0.

(** [evaluateRule]: the four checks in source order, each an early
    [return false]. The average of the last check is exact here; in the
    source it is a quotient of doubles, which can differ from it in the
    last place. *)
Definition evaluateRule (r : StageRule) (signals : list CallSignal) : bool :=
  let signalTypes : gset CallSignalType := list_to_set (map sig_type signals) in
  let has t := bool_decide (t ∈ signalTypes) in
  let c := conditions r in
  if match requiredSignals c with
     | Some req => negb (forallb has req)
     | None => false
     end
  then false
  else if match anySignals c with
          | Some any => negb (existsb has any)
          | None => false
          end
  then false
  else if match excludeSignals c with
          | Some excl => existsb has excl
          | None => false
          end
  then false
  else if match minConfidence c with
          | Some minc =>
              let relevant := relevantSignals c signals in
              if (0 <? length relevant)%nat then
                let avgConfidence :=
                  sumConfidence relevant / inject_Z (Z.of_nat (length relevant)) in
                Qltb avgConfidence minc
              else false
          | None => false
          end
  then false
  else true.

(** *** Action decision *)

Definition percent (confidence : Q) : string := toFixed0 (confidence * 100).

Definition getActionDecision (svc : Service) (confidence : Q) : ActionDecision :=
  let cfg := config svc in
  if Qgeb confidence (highConfidenceThreshold cfg) then
    {| action := if enableAutoUpdate cfg then AUTO_UPDATE else FLAG_FOR_CONFIRMATION;
       confidenceLevel := HIGH;
       dec_confidence := confidence;
       reason := "High confidence (" +:+ percent confidence +:+ "%) - automatic update"
                 +:+ (if enableAutoUpdate cfg then " enabled" else " disabled") |}
  else if Qgeb confidence (mediumConfidenceThreshold cfg) then
    {| action := if enableFlagging cfg then FLAG_FOR_CONFIRMATION else NO_ACTION;
       confidenceLevel := MEDIUM;
       dec_confidence := confidence;
       reason := "Medium confidence (" +:+ percent confidence +:+ "%) - "
                 +:+ (if enableFlagging cfg then "flagged for rep confirmation"
                      else "no action taken") |}
  else
    {| action := NO_ACTION;
       confidenceLevel := LOW;
       dec_confidence := confidence;
       reason := "Low confidence (" +:+ percent confidence
                 +:+ "%) - no automated action" |}.

Definition shouldAutoUpdate (svc : Service) (confidence : Q) : bool :=
  enableAutoUpdate (config svc)
  && Qgeb confidence (highConfidenceThreshold (config svc)).

Definition needsConfirmation (svc : Service) (confidence : Q) : bool :=
  Qgeb confidence (mediumConfidenceThreshold (config svc))
  && Qltb confidence (highConfidenceThreshold (config svc)).

(** *** Confidence of a mapping *)

(** [this.signalWeights[t] || 1.0]: a zero weight is falsy. With the
    default table every weight is positive; overrides that make the
    weights of the relevant signals sum to zero give [NaN] in the source
    and have no counterpart in [calculateConfidence] below. *)
Definition weightOf (svc : Service) (t : CallSignalType) : Q :=
  if Qeq_bool (weights svc t) 0 then 1.0 else weights svc t.

(** [calculateConfidence(signals, rule)], in exact arithmetic: where the
    exact [finalConfidence * 100] lies within rounding of a half, the
    source can report the neighbouring hundredth. *)
Definition calculateConfidence (svc : Service) (signals : list CallSignal)
    (r : StageRule) : Q :=
  let relevant := relevantSignals (conditions r) signals in
  if (length relevant =? 0)%nat then 0.5
  else
    let '(totalWeight, weightedSum) :=
      fold_left
        (fun '(totalWeight, weightedSum) s =>
           let weight := weightOf svc (sig_type s) in
           (totalWeight + weight, weightedSum + sig_confidence s * weight))
        relevant (0, 0) in
    let baseConfidence := weightedSum / totalWeight in
    let signalCountBoost :=
      Qmin (inject_Z (Z.of_nat (length relevant)) * 0.05) 0.15 in
    let priorityBoost := (inject_Z (priority r) / 100) * 0.1 in
    let finalConfidence :=
      Qmin (baseConfidence + signalCountBoost + priorityBoost) 1.0 in
    inject_Z (Math_round (finalConfidence * 100)) / 100.

(** *** Reasoning text *)

Definition isWordChar (c : ascii) : bool :=
  let n := nat_of_ascii c in
  ((48 <=? n) && (n <=? 57) || (65 <=? n) && (n <=? 90)
   || (97 <=? n) && (n <=? 122) || (n =? 95))%nat.

Definition toLower (c : ascii) : ascii :=
  let n := nat_of_ascii c in
  if ((65 <=? n) && (n <=? 90))%nat then ascii_of_nat (n + 32) else c.

Definition toUpper (c : ascii) : ascii :=
  let n := nat_of_ascii c in
  if ((97 <=? n) && (n <=? 122))%nat then ascii_of_nat (n - 32) else c.

(** [.replace(/\b\w/g, l => l.toUpperCase())]: [prevWord] tells whether
    the previous character is a word character. *)
Fixpoint capitalizeWords (prevWord : bool) (s : string) : string :=
  match s with
  | EmptyString => EmptyString
  | String c rest =>
      String (if isWordChar c && negb prevWord then toUpper c else c)
             (capitalizeWords (isWordChar c) rest)
  end.

Fixpoint mapString (f : ascii -> ascii) (s : string) : string :=
  match s with
  | EmptyString => EmptyString
  | String c rest => String (f c) (mapString f rest)
  end.

Definition formatSignalType (t : CallSignalType) : string :=
  capitalizeWords false
    (mapString toLower
       (mapString (fun c => if Ascii.eqb c "_" then " "%char else c)
                  (signalName t))).

Definition generateReasoning (r : StageRule) (signals : list CallSignal) : string :=
  let matchedSignals := relevantSignals (conditions r) signals in
  let signalDescriptions :=
    join ", "
      (map (fun s => formatSignalType (sig_type s) +:+ " ("
                     +:+ percent (sig_confidence s) +:+ "%)")
           matchedSignals) in
  let reasoning := "Mapped to " +:+ stageName (stage (result r)) in
  let reasoning :=
    match disposition (result r) with
    | Some d => reasoning +:+ " with disposition " +:+ dispositionName d
    | None => reasoning
    end in
  let reasoning := reasoning +:+ ". Triggered by: " +:+ signalDescriptions +:+ "." in
  match flags (result r) with
  | Some (f :: fs) => reasoning +:+ " Flags: " +:+ join ", " (f :: fs) +:+ "."
  | _ => reasoning
  end.

(** *** The mapping itself *)

(** [(a, b) => b.priority - a.priority] puts [a] first when its priority
    is the larger one. *)
Definition byPriorityDesc (a b : StageRule) : bool := (priority b <? priority a)%Z.

Definition sortedRules : list StageRule := stable_sort byPriorityDesc STAGE_RULES.

(** The result built inside the loop for the rule that matched. *)
Definition ruleOutcome (svc : Service) (r : StageRule) (signals : list CallSignal)
    : StageMappingResult :=
  let confidence := calculateConfidence svc signals r in
  let actionDecision := getActionDecision svc confidence in
  {| newStage := stage (result r);
     res_disposition := disposition (result r);
     confidence := confidence;
     reasoning := generateReasoning r signals;
     res_flags := default [] (flags (result r));
     requiresConfirmation :=
       bool_decide (action actionDecision = FLAG_FOR_CONFIRMATION);
     res_suggestedTasks := default [] (suggestedTasks (result r)) |}.

Definition defaultResult : StageMappingResult :=
  {| newStage := ST_WORKING;
     res_disposition := None;
     confidence := 0.3;
     reasoning := "No specific stage rule matched. Defaulting to Working stage.";
     res_flags := ["needs_manual_review"];
     requiresConfirmation := true;
     res_suggestedTasks := ["Review call recording and update stage manually"] |}.

(** [for (const rule of sortedRules) { if (match) return ...}] followed by
    the default. *)
Fixpoint tryRules (svc : Service) (rules : list StageRule)
    (signals : list CallSignal) : StageMappingResult :=
  match rules with
  | [] => defaultResult
  | r :: rest =>
      if evaluateRule r signals then ruleOutcome svc r signals
      else tryRules svc rest signals
  end.

Definition mapToStage (svc : Service) (signals : list CallSignal)
    : StageMappingResult :=
  tryRules svc sortedRules signals.

(** *** Stage transitions *)

Definition validTransitions (currentStage : OutreachStage) : list OutreachStage :=
  match currentStage with
  | ST_NEW => [ST_ATTEMPTED; ST_WORKING; ST_QUALIFIED; ST_DEMO_SCHEDULED;
               ST_CLOSED_LOST; ST_NURTURE]
  | ST_ATTEMPTED => [ST_WORKING; ST_QUALIFIED; ST_DEMO_SCHEDULED; ST_CLOSED_LOST;
                     ST_NURTURE]
  | ST_WORKING => [ST_QUALIFIED; ST_DEMO_SCHEDULED; ST_PROPOSAL; ST_CLOSED_LOST;
                   ST_NURTURE]
  | ST_QUALIFIED => [ST_DEMO_SCHEDULED; ST_PROPOSAL; ST_NEGOTIATION; ST_CLOSED_LOST;
                     ST_NURTURE]
  | ST_DEMO_SCHEDULED => [ST_PROPOSAL; ST_NEGOTIATION; ST_CLOSED_WON; ST_CLOSED_LOST;
                          ST_NURTURE]
  | ST_PROPOSAL => [ST_NEGOTIATION; ST_CLOSED_WON; ST_CLOSED_LOST; ST_NURTURE]
  | ST_NEGOTIATION => [ST_CLOSED_WON; ST_CLOSED_LOST; ST_NURTURE]
  | ST_CLOSED_WON => []
  | ST_CLOSED_LOST => [ST_WORKING; ST_NURTURE]
  | ST_NURTURE => [ST_WORKING; ST_QUALIFIED; ST_DEMO_SCHEDULED]
  end.

(** [isValidTransition(currentStage, newStage)]. *)
Definition isValidTransition (currentStage newStage : OutreachStage) : bool :=
  if bool_decide (currentStage = newStage) then true
  else existsb (fun st => bool_decide (st = newStage)) (validTransitions currentStage).

(** The same rule with its [minConfidence] condition taken away. *)
Definition withoutMinConfidence (r : StageRule) : StageRule :=
  {| conditions :=
       {| requiredSignals := requiredSignals (conditions r);
          anySignals := anySignals (conditions r);
          excludeSignals := excludeSignals (conditions r);
          minConfidence := None |};
     result := result r;
     priority := priority r |}.

End StageEngine.

(* ===================================================================== *)
(** ** Audit log ([audit.service.ts])                                     *)
(* ===================================================================== *)

Module AuditLog.

Inductive AuditAction :=
  | STAGE_CHANGE | DISPOSITION_SET | NOTE_ADDED | TASK_CREATED | FLAG_SET
  | CONFIRMATION_REQUIRED | ROLLBACK | ERROR.

#[global] Instance AuditAction_eq_dec : EqDecision AuditAction.
Proof. solve_decision. Defined.

Definition actionName (a : AuditAction) : string :=
  match a with
  | STAGE_CHANGE => "STAGE_CHANGE" | DISPOSITION_SET => "DISPOSITION_SET"
  | NOTE_ADDED => "NOTE_ADDED" | TASK_CREATED => "TASK_CREATED"
  | FLAG_SET => "FLAG_SET" | CONFIRMATION_REQUIRED => "CONFIRMATION_REQUIRED"
  | ROLLBACK => "ROLLBACK" | ERROR => "ERROR"
  end.

(** [AuditEntry]. The [unknown] values that are logged are stage names,
    dispositions and texts: strings. *)
Record AuditEntry := mkEntry {
  id : string;
  timestamp : Z;
  callId : string;
  prospectId : option Z;
  action : AuditAction;
  previousValue : option string;
  newValue : option string;
  confidence : option Q;
  automated : bool;
  confirmedBy : option string;
  rollbackOf : option string;
  metadata : option (list (string * string))
}.

Record AuditConfig := mkConfig {
  retentionDays : Z;
  enableRollback : bool;
  logToFile : bool;
  cfg_logFilePath : option string
}.

Record PartialConfig := mkPartial {
  p_retentionDays : option Z;
  p_enableRollback : option bool;
  p_logToFile : option bool;
  p_logFilePath : option string
}.

(** The service object. [fileLines] is what [fs.appendFile] has written
    so far; the file lives outside the service and is carried along here
    to make that effect visible. *)
Record Service := mkService {
  config : AuditConfig;
  entries : gmap string AuditEntry;
  entriesByCallId : gmap string (list string);
  entriesByProspectId : gmap Z (list string);
  logFilePath : option string;
  fileLines : list AuditEntry
}.

(** What the surroundings hand to one call: the result of [uuidv4()], of
    [new Date()], and whether the file write succeeds. *)
Record Env := mkEnv {
  uuid : string;
  clock : Z;
  fsOk : bool
}.

Record RollbackResult := mkRollbackResult {
  success : bool;
  auditId : string;
  originalAuditId : string;
  message : string;
  res_previousValue : option string;
  restoredValue : option string
}.

(** [constructor(config?)]; an empty path is falsy. *)
Definition new (c : PartialConfig) : Service :=
  let cfg := {|
    retentionDays := default 90%Z (p_retentionDays c);
    enableRollback := default true (p_enableRollback c);
    logToFile := default false (p_logToFile c);
    cfg_logFilePath := p_logFilePath c |} in
  {| config := cfg;
     entries := ∅;
     entriesByCallId := ∅;
     entriesByProspectId := ∅;
     logFilePath :=
       match cfg_logFilePath cfg with
       | Some p => if logToFile cfg && negb (String.eqb p "") then Some p else None
       | None => None
       end;
     fileLines := [] |}.

(** [appendToFile]: a failed write is caught and only logged. *)
Definition appendToFile (env : Env) (entry : AuditEntry) (lines : list AuditEntry)
    : list AuditEntry :=
  if fsOk env then lines ++ [entry] else lines.

(** [addEntry]: store the entry, index it by call and, when the prospect
    id is truthy, by prospect. Returns the entry's id. *)
Definition addEntry (env : Env) (entry : AuditEntry) (s : Service)
    : string * Service :=
  let entries' := <[id entry := entry]> (entries s) in
  let callEntries := default [] (entriesByCallId s !! callId entry) in
  let byCall' := <[callId entry := callEntries ++ [id entry]]> (entriesByCallId s) in
  let byProspect' :=
    match prospectId entry with
    | Some p =>
        if (p =? 0)%Z then entriesByProspectId s
        else
          let prospectEntries := default [] (entriesByProspectId s !! p) in
          <[p := prospectEntries ++ [id entry]]> (entriesByProspectId s)
    | None => entriesByProspectId s
    end in
  let lines' :=
    match logFilePath s with
    | Some _ => appendToFile env entry (fileLines s)
    | None => fileLines s
    end in
  (id entry,
   {| config := config s;
      entries := entries';
      entriesByCallId := byCall';
      entriesByProspectId := byProspect';
      logFilePath := logFilePath s;
      fileLines := lines' |}).

Definition logStageChange (env : Env) (callId : string) (prospectId : Z)
    (previousStage : option string) (newStage : string) (confidence : Q)
    (automated : bool) (metadata : option (list (string * string)))
    (s : Service) : string * Service :=
  addEntry env
    {| id := uuid env; timestamp := clock env; callId := callId;
       prospectId := Some prospectId; action := STAGE_CHANGE;
       previousValue := previousStage; newValue := Some newStage;
       confidence := Some confidence; automated := automated;
       confirmedBy := None; rollbackOf := None; metadata := metadata |} s.

Definition logDispositionSet (env : Env) (callId : string) (prospectId : Z)
    (disposition : string) (automated : bool)
    (metadata : option (list (string * string)))
    (s : Service) : string * Service :=
  addEntry env
    {| id := uuid env; timestamp := clock env; callId := callId;
       prospectId := Some prospectId; action := DISPOSITION_SET;
       previousValue := None; newValue := Some disposition;
       confidence := None; automated := automated;
       confirmedBy := None; rollbackOf := None; metadata := metadata |} s.

(** [noteContent.substring(0, 500)]. *)
Definition logNoteAdded (env : Env) (callId : string) (prospectId : Z)
    (noteContent : string) (automated : bool)
    (s : Service) : string * Service :=
  addEntry env
    {| id := uuid env; timestamp := clock env; callId := callId;
       prospectId := Some prospectId; action := NOTE_ADDED;
       previousValue := None; newValue := Some (String.substring 0 500 noteContent);
       confidence := None; automated := automated;
       confirmedBy := None; rollbackOf := None; metadata := None |} s.

Definition rollbackable (a : AuditAction) : bool :=
  existsb (fun b => bool_decide (b = a)) [STAGE_CHANGE; DISPOSITION_SET].

Definition failure (auditId msg : string) : RollbackResult :=
  {| success := false; auditId := ""; originalAuditId := auditId;
     message := msg; res_previousValue := None; restoredValue := None |}.

(** The entry that [rollback] creates for [originalEntry]. *)
Definition rollbackEntryFor (env : Env) (auditId confirmedBy : string)
    (originalEntry : AuditEntry) : AuditEntry :=
  {| id := uuid env; timestamp := clock env;
     callId := callId originalEntry;
     prospectId := prospectId originalEntry;
     action := ROLLBACK;
     previousValue := newValue originalEntry;
     newValue := previousValue originalEntry;
     confidence := None;
     automated := false;
     confirmedBy := Some confirmedBy;
     rollbackOf := Some auditId;
     metadata := None |}.

(** [rollback(auditId, confirmedBy)]. *)
Definition rollback (env : Env) (auditId confirmedBy : string) (s : Service)
    : RollbackResult * Service :=
  if negb (enableRollback (config s)) then
    (failure auditId "Rollback is disabled in configuration", s)
  else
    match entries s !! auditId with
    | None => (failure auditId "Audit entry not found", s)
    | Some originalEntry =>
        if negb (rollbackable (action originalEntry)) then
          (failure auditId
             ("Cannot rollback action type: " +:+ actionName (action originalEntry)),
           s)
        else
          let rollbackEntry := rollbackEntryFor env auditId confirmedBy originalEntry in
          let '(_, s') := addEntry env rollbackEntry s in
          ({| success := true;
              auditId := id rollbackEntry;
              originalAuditId := auditId;
              message := "Rollback recorded successfully";
              res_previousValue := newValue originalEntry;
              restoredValue := previousValue originalEntry |},
           s')
    end.

Definition getEntry (auditId : string) (s : Service) : option AuditEntry :=
  entries s !! auditId.

Definition logTaskCreated (env : Env) (callId : string) (prospectId : Z)
    (taskDescription : string) (automated : bool)
    (s : Service) : string * Service :=
  addEntry env
    {| id := uuid env; timestamp := clock env; callId := callId;
       prospectId := Some prospectId; action := TASK_CREATED;
       previousValue := None; newValue := Some taskDescription;
       confidence := None; automated := automated;
       confirmedBy := None; rollbackOf := None; metadata := None |} s.

Definition logFlagSet (env : Env) (callId : string) (prospectId : option Z)
    (flag reason : string) (s : Service) : string * Service :=
  addEntry env
    {| id := uuid env; timestamp := clock env; callId := callId;
       prospectId := prospectId; action := FLAG_SET;
       previousValue := None; newValue := Some flag;
       confidence := None; automated := true;
       confirmedBy := None; rollbackOf := None;
       metadata := Some [("reason", reason)] |} s.

Definition logConfirmationRequired (env : Env) (callId : string)
    (prospectId : option Z) (suggestedStage : string) (confidence : Q)
    (reasoning : string) (s : Service) : string * Service :=
  addEntry env
    {| id := uuid env; timestamp := clock env; callId := callId;
       prospectId := prospectId; action := CONFIRMATION_REQUIRED;
       previousValue := None; newValue := Some suggestedStage;
       confidence := Some confidence; automated := true;
       confirmedBy := None; rollbackOf := None;
       metadata := Some [("reasoning", reasoning)] |} s.

Definition logError (env : Env) (callId : string) (prospectId : option Z)
    (error : string) (context : option (list (string * string)))
    (s : Service) : string * Service :=
  addEntry env
    {| id := uuid env; timestamp := clock env; callId := callId;
       prospectId := prospectId; action := ERROR;
       previousValue := None; newValue := Some error;
       confidence := None; automated := true;
       confirmedBy := None; rollbackOf := None; metadata := context |} s.

(** [(a, b) => a.timestamp.getTime() - b.timestamp.getTime()]. *)
Definition byTimestampAsc (a b : AuditEntry) : bool := (timestamp a <? timestamp b)%Z.

(** [getEntriesForCall(callId)]: the listed ids that are stored, by time. *)
Definition getEntriesForCall (callId : string) (s : Service) : list AuditEntry :=
  let entryIds := default [] (entriesByCallId s !! callId) in
  stable_sort byTimestampAsc (omap (fun i => entries s !! i) entryIds).

Definition getEntriesForProspect (prospectId : Z) (s : Service) : list AuditEntry :=
  let entryIds := default [] (entriesByProspectId s !! prospectId) in
  stable_sort byTimestampAsc (omap (fun i => entries s !! i) entryIds).

(** [getStats()]. The loop only counts and keeps the least and greatest
    time stamp, so the order in which it meets the entries does not show
    in the result. [entriesByAction a] is the count kept under the key
    [a], 0 when the key is absent. *)
Record AuditStats := mkStats {
  totalEntries : nat;
  entriesByAction : AuditAction -> nat;
  automatedCount : nat;
  manualCount : nat;
  rollbackCount : nat;
  errorCount : nat;
  oldestEntry : option Z;
  newestEntry : option Z
}.

Definition statsStep (st : AuditStats) (entry : AuditEntry) : AuditStats :=
  {| totalEntries := totalEntries st;
     entriesByAction :=
       fun a => if bool_decide (a = action entry)
                then S (entriesByAction st a) else entriesByAction st a;
     automatedCount :=
       if automated entry then S (automatedCount st) else automatedCount st;
     manualCount :=
       if automated entry then manualCount st else S (manualCount st);
     rollbackCount :=
       if bool_decide (action entry = ROLLBACK)
       then S (rollbackCount st) else rollbackCount st;
     errorCount :=
       if bool_decide (action entry = ERROR)
       then S (errorCount st) else errorCount st;
     oldestEntry :=
       match oldestEntry st with
       | None => Some (timestamp entry)
       | Some o => if (timestamp entry <? o)%Z then Some (timestamp entry) else Some o
       end;
     newestEntry :=
       match newestEntry st with
       | None => Some (timestamp entry)
       | Some n => if (n <? timestamp entry)%Z then Some (timestamp entry) else Some n
       end |}.

Definition statsOf (l : list AuditEntry) : AuditStats :=
  fold_left statsStep l
    {| totalEntries := length l; entriesByAction := fun _ => O;
       automatedCount := O; manualCount := O; rollbackCount := O;
       errorCount := O; oldestEntry := None; newestEntry := None |}.

Definition getStats (s : Service) : AuditStats :=
  statsOf (snd <$> map_to_list (entries s)).

(** The loop of [importFromFile] over the parsed entries: each goes
    through [addEntry]; the count is returned. [fsOkAt k] tells whether
    the [k]-th write to the log file succeeds. *)
Fixpoint importEntries (fsOkAt : nat -> bool) (k : nat) (es : list AuditEntry)
    (s : Service) : nat * Service :=
  match es with
  | [] => (O, s)
  | entry :: rest =>
      let s1 := snd (addEntry {| uuid := ""; clock := 0; fsOk := fsOkAt k |} entry s) in
      let '(importedCount, s2) := importEntries fsOkAt (S k) rest s1 in
      (S importedCount, s2)
  end.

End AuditLog.

(* ===================================================================== *)
(** ** Stall types ([types/stall.ts])                                     *)
(* ===================================================================== *)

(** [new Date(ms)] keeps the integer part of [ms]. *)
Definition timeClip (ms : Q) : Z :=
  if Qle_bool 0 ms then Qfloor ms else Qceiling ms.

(** Milliseconds to hours, [ms / (1000 * 60 * 60)]. *)
Definition hoursOfMs (ms : Z) : Q := inject_Z ms / inject_Z (1000 * 60 * 60).

Module Stall.

Inductive StallPhraseCategory :=
  | PRICING_REQUEST | APPROVAL_NEEDED | THINKING | TEAM_CHECK | DECISION_MAKER
  | CALLBACK_REQUEST | FOLLOWUP_PROMISE | INTERNAL_DISCUSSION.

Inductive StallSignalSource := CALL_TRANSCRIPT | EMAIL | MEETING_NOTES | CRM_NOTES.

Inductive StallSeverity := LOW | MEDIUM | HIGH | CRITICAL.

Inductive DealStage :=
  | QUALIFICATION | DISCOVERY | DEMO | PROPOSAL | NEGOTIATION
  | CLOSED_WON | CLOSED_LOST.

(** [AlertPriority]; the prefix keeps it apart from [StallSeverity]. *)
Inductive AlertPriority := P_LOW | P_MEDIUM | P_HIGH | P_URGENT.

Inductive AlertChannel := CH_EMAIL | CH_SLACK | CH_SALESFORCE_TASK | CH_WEBHOOK.

Inductive AlertRecipientType := REP | MANAGER | BOTH.

Inductive Direction := INBOUND | OUTBOUND.

#[global] Instance StallPhraseCategory_eq_dec : EqDecision StallPhraseCategory.
Proof. solve_decision. Defined.
#[global] Instance StallSignalSource_eq_dec : EqDecision StallSignalSource.
Proof. solve_decision. Defined.
#[global] Instance AlertPriority_eq_dec : EqDecision AlertPriority.
Proof. solve_decision. Defined.
#[global] Instance AlertRecipientType_eq_dec : EqDecision AlertRecipientType.
Proof. solve_decision. Defined.
#[global] Instance Direction_eq_dec : EqDecision Direction.
Proof. solve_decision. Defined.

Record StallPhraseMatch := mkMatch {
  phrase : string;
  category : StallPhraseCategory;
  matchedText : string;
  m_confidence : Q;
  position : nat;
  context : string
}.

Record StallSignal := mkStallSignal {
  sig_id : string;
  sig_dealId : string;
  sig_accountId : string;
  sig_accountName : string;
  source : StallSignalSource;
  sourceId : string;
  sourceTimestamp : Z;
  phraseMatches : list StallPhraseMatch;
  rawContent : string;
  baseConfidence : Q;
  timeDecayedConfidence : R;
  aggregateStrength : Q;
  detectedAt : Z;
  processedAt : option Z
}.

Record StallStatus := mkStatus {
  dealId : string;
  accountId : string;
  accountName : string;
  dealStage : DealStage;
  dealValue : option Q;
  ownerRepId : string;
  ownerRepName : string;
  managerId : option string;
  managerName : option string;
  isStalled : bool;
  severity : StallSeverity;
  stallScore : R;
  primaryCategory : option StallPhraseCategory;
  signalCount : nat;
  latestSignalAt : option Z;
  signals : list StallSignal;
  daysSinceLastPositiveEngagement : option Z;
  lastPositiveEngagementDate : option Z;
  lastPositiveEngagementType : option string;
  recommendedActions : list string;
  calculatedAt : Z;
  alertSentAt : option Z
}.

Record Recipient := mkRecipient {
  r_id : string;
  r_name : string;
  r_email : string;
  r_type : AlertRecipientType
}.

Record StallAlert := mkAlert {
  al_id : string;
  al_dealId : string;
  al_accountId : string;
  al_accountName : string;
  title : string;
  summary : string;
  detectedPhrase : string;
  confidenceScore : Q;
  timeSinceStallSignal : Q;
  timeSinceLastPositiveEngagement : option Z;
  priority : AlertPriority;
  recipientType : AlertRecipientType;
  recipients : list Recipient;
  channels : list AlertChannel;
  deliveredVia : list AlertChannel;
  deliveredAt : option Z;
  recommendedAction : string;
  actionUrl : option string;
  acknowledged : bool;
  acknowledgedAt : option Z;
  acknowledgedBy : option string;
  createdAt : Z;
  expiresAt : Z;
  stallStatus : StallStatus
}.

Record EmailContent := mkEmail {
  em_id : string;
  em_dealId : option string;
  em_accountId : string;
  em_accountName : string;
  sentDate : Z;
  em_from : string;
  em_to : list string;
  subject : string;
  body : string;
  direction : Direction;
  em_repId : option string;
  em_repName : option string
}.

Record CallTranscript := mkTranscript {
  tr_id : string;
  tr_dealId : option string;
  tr_accountId : string;
  tr_accountName : string;
  callDate : Z;
  transcript : string
}.

(** [signals.reduce((latest, s) => s.sourceTimestamp > latest.sourceTimestamp
    ? s : latest)] on a non-empty array, [first] being its first element. *)
Definition latestOf (first : StallSignal) (rest : list StallSignal) : StallSignal :=
  fold_left
    (fun latest s =>
       if (sourceTimestamp latest <? sourceTimestamp s)%Z then s else latest)
    rest first.

End Stall.

(* ===================================================================== *)
(** ** Alert service ([alert.service.ts])                                 *)
(* ===================================================================== *)

Module Alerts.
Import Stall.

#[local] Open Scope Q_scope.

Record AlertServiceConfig := mkConfig {
  alertWithinHours : Q;
  alertExpirationHours : Q;
  enabledChannels : list AlertChannel;
  escalateToManagerAfterHours : Q;
  escalateToBothOnCritical : bool;
  webhookUrl : option string
}.

Definition DEFAULT_CONFIG : AlertServiceConfig :=
  {| alertWithinHours := 24;
     alertExpirationHours := 72;
     enabledChannels := [CH_WEBHOOK];
     escalateToManagerAfterHours := 24;
     escalateToBothOnCritical := true;
     webhookUrl := None |}.

Record Service := mkService {
  config : AlertServiceConfig;
  alerts : gmap string StallAlert;
  alertsByDeal : gmap string (list string)
}.

Definition new (cfg : AlertServiceConfig) : Service :=
  {| config := cfg; alerts := ∅; alertsByDeal := ∅ |}.

(** What the surroundings hand to one call: [uuidv4()], [Date.now()] and
    the locale's [Number.prototype.toLocaleString]. *)
Record Env := mkEnv {
  uuid : string;
  now : Z;
  toLocaleString : Q -> string
}.

Record AlertContext := mkContext {
  topPhrase : string;
  signalSource : string;
  daysSinceEngagement : option Z
}.

Definition mapSeverityToPriority (s : StallSeverity) : AlertPriority :=
  match s with
  | CRITICAL => P_URGENT
  | HIGH => P_HIGH
  | MEDIUM => P_MEDIUM
  | LOW => P_LOW
  end.

(** A non-empty string is truthy. *)
Definition truthyStr (o : option string) : bool :=
  match o with
  | Some s => negb (String.eqb s "")
  | None => false
  end.

Definition determineRecipientType (cfg : AlertServiceConfig) (status : StallStatus)
    (priority : AlertPriority) : AlertRecipientType :=
  if bool_decide (priority = P_URGENT) && escalateToBothOnCritical cfg then BOTH
  else if bool_decide (priority = P_HIGH) && truthyStr (managerId status) then BOTH
  else REP.

Definition buildRecipients (status : StallStatus) (recipientType : AlertRecipientType)
    : list Recipient :=
  (if bool_decide (recipientType = REP) || bool_decide (recipientType = BOTH)
   then [ {| r_id := ownerRepId status; r_name := ownerRepName status;
             r_email := ownerRepId status +:+ "@company.com"; r_type := REP |} ]
   else [])
  ++
  (if (bool_decide (recipientType = MANAGER) || bool_decide (recipientType = BOTH))
      && truthyStr (managerId status)
   then [ {| r_id := default "" (managerId status);
             r_name := if truthyStr (managerName status)
                       then default "" (managerName status) else "Manager";
             r_email := default "" (managerId status) +:+ "@company.com";
             r_type := MANAGER |} ]
   else []).

Definition buildAlertContext (status : StallStatus) : AlertContext :=
  match signals status with
  | [] => {| topPhrase := "deal stall detected";
             signalSource := "recent interaction";
             daysSinceEngagement := daysSinceLastPositiveEngagement status |}
  | s :: rest =>
      let latestSignal := latestOf s rest in
      {| topPhrase :=
           match phraseMatches latestSignal with
           | m :: _ => matchedText m
           | [] => "deal stall detected"
           end;
         signalSource :=
           if bool_decide (source latestSignal = CALL_TRANSCRIPT) then "a recent call"
           else if bool_decide (source latestSignal = EMAIL) then "an email"
           else "recent interaction";
         daysSinceEngagement := daysSinceLastPositiveEngagement status |}
  end.

(** [Math.max(...status.signals.map(s => s.baseConfidence))], 0 on no signal. *)
Definition getHighestConfidence (status : StallStatus) : Q :=
  match signals status with
  | [] => 0
  | s :: rest =>
      fold_left (fun m s' => Qmax m (baseConfidence s')) rest (baseConfidence s)
  end.

Definition buildActionUrl (status : StallStatus) : option string :=
  if negb (String.eqb (dealId status) "")
  then Some ("https://salesforce.com/lightning/r/Opportunity/"
             +:+ dealId status +:+ "/view")
  else None.

(** A day count is truthy when it is not zero. *)
Definition truthyDays (o : option Z) : option Z :=
  match o with
  | Some d => if (d =? 0)%Z then None else Some d
  | None => None
  end.

(** [ALERT_TEMPLATES[priority]]. *)
Definition templateTitle (p : AlertPriority) (status : StallStatus) : string :=
  match p with
  | P_URGENT => "URGENT: " +:+ accountName status +:+ " - Deal Stall Detected"
  | P_HIGH => "HIGH PRIORITY: " +:+ accountName status +:+ " - Stall Warning"
  | P_MEDIUM => accountName status +:+ " - Deal Momentum Alert"
  | P_LOW => accountName status +:+ " - Minor Stall Indicator"
  end.

Definition money (env : Env) (status : StallStatus) : string :=
  toLocaleString env
    (match dealValue status with
     | Some v => if Qeq_bool v 0 then 0 else v
     | None => 0
     end).

Definition templateSummary (env : Env) (p : AlertPriority) (status : StallStatus)
    (ctx : AlertContext) : string :=
  match p with
  | P_URGENT =>
      "Critical stall signal detected on " +:+ accountName status +:+ ". "
      +:+ "Prospect said " +:+ dquote +:+ topPhrase ctx +:+ dquote +:+ " during "
      +:+ signalSource ctx +:+ ". "
      +:+ match truthyDays (daysSinceEngagement ctx) with
          | Some d => "No positive engagement in " +:+ pretty d +:+ " days. "
          | None => ""
          end
      +:+ "Immediate action required - deal value: $" +:+ money env status +:+ "."
  | P_HIGH =>
      "High-priority stall warning on " +:+ accountName status +:+ ". "
      +:+ "Detected phrase: " +:+ dquote +:+ topPhrase ctx +:+ dquote +:+ ". "
      +:+ match truthyDays (daysSinceEngagement ctx) with
          | Some d => "Last positive engagement: " +:+ pretty d +:+ " days ago. "
          | None => ""
          end
      +:+ "Deal value at risk: $" +:+ money env status +:+ "."
  | P_MEDIUM =>
      "Potential stall detected on " +:+ accountName status +:+ ". "
      +:+ "Prospect indicated: " +:+ dquote +:+ topPhrase ctx +:+ dquote +:+ ". "
      +:+ "Review engagement strategy to maintain momentum."
  | P_LOW =>
      "Minor stall signal on " +:+ accountName status +:+ ": " +:+ dquote
      +:+ topPhrase ctx +:+ dquote +:+ ". " +:+ "Monitor for additional signals."
  end.

(** [status.recommendedActions[0] || fallback]. *)
Definition firstActionOr (status : StallStatus) (fallback : string) : string :=
  match recommendedActions status with
  | a :: _ => if String.eqb a "" then fallback else a
  | [] => fallback
  end.

Definition templateRecommendedAction (p : AlertPriority) (status : StallStatus)
    : string :=
  match p with
  | P_URGENT =>
      firstActionOr status "Review deal immediately and take action within 24 hours"
  | P_HIGH => firstActionOr status "Schedule follow-up within 48 hours"
  | P_MEDIUM => firstActionOr status "Review and adjust engagement approach"
  | P_LOW => "Monitor deal and prepare contingency approach"
  end.

(** The callback of [existingAlerts.some(...)]. *)
Definition recentUnackedAt (s : Service) (now : Z) (alertId : string) : bool :=
  match alerts s !! alertId with
  | None => false
  | Some alert =>
      let hoursSinceCreated := hoursOfMs (now - createdAt alert) in
      negb (acknowledged alert)
      && Qltb hoursSinceCreated (alertWithinHours (config s))
  end.

(** [generateAlert(status)]. *)
Definition generateAlert (env : Env) (status : StallStatus) (s : Service)
    : option StallAlert * Service :=
  if negb (isStalled status) then (None, s)
  else
    let existingAlerts := default [] (alertsByDeal s !! dealId status) in
    let recentUnacked := existsb (recentUnackedAt s (now env)) existingAlerts in
    if recentUnacked then (None, s)
    else
      let priority := mapSeverityToPriority (severity status) in
      let recipientType := determineRecipientType (config s) status priority in
      let context := buildAlertContext status in
      let recipients := buildRecipients status recipientType in
      let expiresAt :=
        timeClip (inject_Z (now env)
                  + alertExpirationHours (config s) * 60 * 60 * 1000) in
      let alert :=
        {| al_id := uuid env;
           al_dealId := dealId status;
           al_accountId := accountId status;
           al_accountName := accountName status;
           title := templateTitle priority status;
           summary := templateSummary env priority status context;
           detectedPhrase := topPhrase context;
           confidenceScore := getHighestConfidence status;
           timeSinceStallSignal :=
             match latestSignalAt status with
             | Some t => hoursOfMs (now env - t)
             | None => 0
             end;
           timeSinceLastPositiveEngagement := daysSinceLastPositiveEngagement status;
           priority := priority;
           recipientType := recipientType;
           recipients := recipients;
           channels := enabledChannels (config s);
           deliveredVia := [];
           deliveredAt := None;
           recommendedAction := templateRecommendedAction priority status;
           actionUrl := buildActionUrl status;
           acknowledged := false;
           acknowledgedAt := None;
           acknowledgedBy := None;
           createdAt := now env;
           expiresAt := expiresAt;
           stallStatus := status |} in
      let dealAlerts := default [] (alertsByDeal s !! dealId status) in
      (Some alert,
       {| config := config s;
          alerts := <[al_id alert := alert]> (alerts s);
          alertsByDeal := <[dealId status := dealAlerts ++ [al_id alert]]>
                            (alertsByDeal s) |}).

Definition setAcknowledged (now : Z) (by_ : string) (a : StallAlert) : StallAlert :=
  {| al_id := al_id a; al_dealId := al_dealId a; al_accountId := al_accountId a;
     al_accountName := al_accountName a; title := title a; summary := summary a;
     detectedPhrase := detectedPhrase a; confidenceScore := confidenceScore a;
     timeSinceStallSignal := timeSinceStallSignal a;
     timeSinceLastPositiveEngagement := timeSinceLastPositiveEngagement a;
     priority := priority a; recipientType := recipientType a;
     recipients := recipients a; channels := channels a;
     deliveredVia := deliveredVia a; deliveredAt := deliveredAt a;
     recommendedAction := recommendedAction a; actionUrl := actionUrl a;
     acknowledged := true;
     acknowledgedAt := Some now;
     acknowledgedBy := Some by_;
     createdAt := createdAt a; expiresAt := expiresAt a;
     stallStatus := stallStatus a |}.

(** [acknowledgeAlert(alertId, acknowledgedBy)]: the stored object is
    updated in place. *)
Definition acknowledgeAlert (now : Z) (alertId acknowledgedBy : string) (s : Service)
    : option StallAlert * Service :=
  match alerts s !! alertId with
  | None => (None, s)
  | Some alert =>
      let alert' := setAcknowledged now acknowledgedBy alert in
      (Some alert',
       {| config := config s;
          alerts := <[alertId := alert']> (alerts s);
          alertsByDeal := alertsByDeal s |})
  end.

(** [deliverToChannel]: the channels are stubs; only the webhook needs a
    configured URL. *)
Definition deliverToChannel (cfg : AlertServiceConfig) (channel : AlertChannel) : bool :=
  match channel with
  | CH_WEBHOOK => truthyStr (webhookUrl cfg)
  | CH_EMAIL | CH_SLACK | CH_SALESFORCE_TASK => true
  end.

Definition setDelivered (now : Z) (via : list AlertChannel) (a : StallAlert)
    : StallAlert :=
  {| al_id := al_id a; al_dealId := al_dealId a; al_accountId := al_accountId a;
     al_accountName := al_accountName a; title := title a; summary := summary a;
     detectedPhrase := detectedPhrase a; confidenceScore := confidenceScore a;
     timeSinceStallSignal := timeSinceStallSignal a;
     timeSinceLastPositiveEngagement := timeSinceLastPositiveEngagement a;
     priority := priority a; recipientType := recipientType a;
     recipients := recipients a; channels := channels a;
     deliveredVia := via;
     deliveredAt := match via with [] => deliveredAt a | _ => Some now end;
     recommendedAction := recommendedAction a; actionUrl := actionUrl a;
     acknowledged := acknowledged a;
     acknowledgedAt := acknowledgedAt a;
     acknowledgedBy := acknowledgedBy a;
     createdAt := createdAt a; expiresAt := expiresAt a;
     stallStatus := stallStatus a |}.

(** [deliverAlert(alertId)]. *)
Definition deliverAlert (now : Z) (alertId : string) (s : Service) : bool * Service :=
  match alerts s !! alertId with
  | None => (false, s)
  | Some alert =>
      if acknowledged alert then (true, s)
      else
        let deliveredChannels :=
          List.filter (deliverToChannel (config s)) (enabledChannels (config s)) in
        ((0 <? length deliveredChannels)%nat,
         {| config := config s;
            alerts := <[alertId := setDelivered now deliveredChannels alert]> (alerts s);
            alertsByDeal := alertsByDeal s |})
  end.

(** One turn of the loop of [cleanupExpiredAlerts]. *)
Definition cleanupStep (now : Z) (entry : string * StallAlert)
    (acc : nat * Service) : nat * Service :=
  let '(alertId, alert) := entry in
  let '(cleaned, s) := acc in
  if (expiresAt alert <? now)%Z then
    let byDeal' :=
      match alertsByDeal s !! al_dealId alert with
      | Some dealAlerts =>
          let filtered :=
            List.filter (fun i => negb (String.eqb i alertId)) dealAlerts in
          if (0 <? length filtered)%nat
          then <[al_dealId alert := filtered]> (alertsByDeal s)
          else delete (al_dealId alert) (alertsByDeal s)
      | None => alertsByDeal s
      end in
    (S cleaned,
     {| config := config s;
        alerts := delete alertId (alerts s);
        alertsByDeal := byDeal' |})
  else (cleaned, s).

(** [cleanupExpiredAlerts()]: the loop visits every stored alert once;
    what it leaves behind does not depend on the order of the visits. *)
Definition cleanupExpiredAlerts (now : Z) (s : Service) : nat * Service :=
  foldr (cleanupStep now) (0%nat, s) (map_to_list (alerts s)).

Definition clearAll (s : Service) : Service :=
  {| config := config s; alerts := ∅; alertsByDeal := ∅ |}.

Definition getAlertsForDeal (dealId : string) (s : Service) : list StallAlert :=
  omap (fun i => alerts s !! i) (default [] (alertsByDeal s !! dealId)).

Definition getAlert (alertId : string) (s : Service) : option StallAlert :=
  alerts s !! alertId.

Record BatchResult := mkBatch {
  generated : nat;
  delivered : nat;
  skipped : nat
}.

(** One turn of the loop of [processStallStatuses]; [env] is what the
    surroundings hand to this turn. *)
Definition processOne (acc : BatchResult * Service) (input : Env * StallStatus)
    : BatchResult * Service :=
  let '(counts, s) := acc in
  let '(env, status) := input in
  match generateAlert env status s with
  | (Some alert, s1) =>
      let '(wasDelivered, s2) := deliverAlert (now env) (al_id alert) s1 in
      ({| generated := S (generated counts);
          delivered := if wasDelivered then S (delivered counts) else delivered counts;
          skipped := skipped counts |}, s2)
  | (None, s1) =>
      ({| generated := generated counts;
          delivered := delivered counts;
          skipped := S (skipped counts) |}, s1)
  end.

(** [processStallStatuses(statuses)]. *)
Definition processStallStatuses (inputs : list (Env * StallStatus)) (s : Service)
    : BatchResult * Service :=
  fold_left processOne inputs ({| generated := 0; delivered := 0; skipped := 0 |}, s).

End Alerts.

(* ===================================================================== *)
(** ** Regular expressions, as [RegExp.prototype.exec] runs them          *)
(* ===================================================================== *)

(** The patterns of the detector use literals, [\s], [\b], groups,
    alternation and the greedy quantifiers [?], [*] and [+], all under the
    [i] flag. The matcher below is the backtracking matcher of the
    language specification restricted to these: alternatives are tried
    left to right, a quantifier first tries one more iteration, and the
    first way to match wins. Text is a string of 8-bit code units. *)

Module Regex.

Inductive regex :=
  | Void                         (* matches nothing *)
  | Eps                          (* the empty pattern *)
  | Chr (c : ascii)              (* a literal character *)
  | Space                        (* \s *)
  | WordBoundary                 (* \b *)
  | Seq (r1 r2 : regex)          (* r1 r2 *)
  | Alt (r1 r2 : regex)          (* r1|r2 *)
  | Opt (r : regex)              (* (r)? *)
  | Star (r : regex).            (* (r)* *)

Record RegExp := mkRegExp {
  re_source : regex;
  ignoreCase : bool              (* the i flag *)
}.

(** One match: [match.index] and [match[0]]. *)
Record MatchResult := mkResult {
  index : nat;
  text : string
}.

(** [\w] is [[A-Za-z0-9_]]. *)
Definition isWordChar (c : ascii) : bool :=
  let n := nat_of_ascii c in
  ((48 <=? n) && (n <=? 57) || (65 <=? n) && (n <=? 90)
   || (97 <=? n) && (n <=? 122) || (n =? 95))%nat.

(** [\s]: tab, line feed, vertical tab, form feed, carriage return,
    space and no-break space. *)
Definition isSpace (c : ascii) : bool :=
  let n := nat_of_ascii c in
  ((9 <=? n) && (n <=? 13) || (n =? 32) || (n =? 160))%nat.

(** Canonicalisation under the [i] flag. The patterns are ASCII, so only
    ASCII letters have a second case. *)
Definition canonicalize (icase : bool) (c : ascii) : ascii :=
  let n := nat_of_ascii c in
  if icase && (97 <=? n)%nat && (n <=? 122)%nat then ascii_of_nat (n - 32) else c.

Definition isWordAt (o : option ascii) : bool :=
  match o with
  | Some c => isWordChar c
  | None => false
  end.

(** [matchAt icase r k prev s]: match [r] in front of [s], [prev] being the
    character before it, then hand what is left to the continuation [k];
    [None] is failure, which makes the caller try its next choice. *)
Fixpoint matchAt {A : Type} (icase : bool) (r : regex)
    (k : option ascii -> list ascii -> option A)
    (prev : option ascii) (s : list ascii) : option A :=
  match r with
  | Void => None
  | Eps => k prev s
  | Chr c =>
      match s with
      | x :: s' =>
          if Ascii.eqb (canonicalize icase c) (canonicalize icase x)
          then k (Some x) s' else None
      | [] => None
      end
  | Space =>
      match s with
      | x :: s' => if isSpace x then k (Some x) s' else None
      | [] => None
      end
  | WordBoundary =>
      if xorb (isWordAt prev) (isWordAt (head s)) then k prev s else None
  | Seq r1 r2 =>
      matchAt icase r1 (fun prev' s' => matchAt icase r2 k prev' s') prev s
  | Alt r1 r2 =>
      match matchAt icase r1 k prev s with
      | Some a => Some a
      | None => matchAt icase r2 k prev s
      end
  | Opt r1 =>
      match matchAt icase r1
              (fun prev' s' =>
                 if (length s' <? length s)%nat then k prev' s' else None)
              prev s with
      | Some a => Some a
      | None => k prev s
      end
  | Star r1 =>
      (fix iterate (n : nat) (prev : option ascii) (s : list ascii) : option A :=
         match
           match n with
           | O => None
           | S n' =>
               matchAt icase r1
                 (fun prev' s' =>
                    if (length s' <? length s)%nat then iterate n' prev' s'
                    else None)
                 prev s
           end
         with
         | Some a => Some a
         | None => k prev s
         end) (length s) prev s
  end.

(** [regex.exec(content)] under the [g] flag, called until it returns
    [null]: [s] is the text from [pos] on, [skip] the number of characters
    up to [lastIndex]. A match that consumes nothing would leave
    [lastIndex] where it is and the loop would never end: [None]. *)
Fixpoint execAll (re : RegExp) (prev : option ascii) (s : list ascii)
    (pos skip : nat) : option (list MatchResult) :=
  match skip with
  | S skip' =>
      match s with
      | [] => Some []
      | c :: s' => execAll re (Some c) s' (S pos) skip'
      end
  | O =>
      match matchAt (ignoreCase re) (re_source re) (fun _ rest => Some rest) prev s with
      | Some rest =>
          let len := (length s - length rest)%nat in
          match len, s with
          | S len', c :: s' =>
              cons {| index := pos; text := string_of_list_ascii (firstn len s) |}
                <$> execAll re (Some c) s' (S pos) len'
          | _, _ => None
          end
      | None =>
          match s with
          | [] => Some []
          | c :: s' => execAll re (Some c) s' (S pos) O
          end
      end
  end.

Definition matchAll (re : RegExp) (content : string) : option (list MatchResult) :=
  execAll re None (list_ascii_of_string content) 0 0.

(** A sufficient test that every match of [r] takes at least one
    character. *)
Fixpoint consumes (r : regex) : bool :=
  match r with
  | Void | Chr _ | Space => true
  | Eps | WordBoundary | Opt _ | Star _ => false
  | Seq r1 r2 => consumes r1 || consumes r2
  | Alt r1 r2 => consumes r1 && consumes r2
  end.

(** *** Writing patterns *)

Fixpoint lit (s : string) : regex :=
  match s with
  | EmptyString => Eps
  | String c EmptyString => Chr c
  | String c rest => Seq (Chr c) (lit rest)
  end.

Fixpoint seq (l : list regex) : regex :=
  match l with
  | [] => Eps
  | [r] => r
  | r :: rest => Seq r (seq rest)
  end.

Fixpoint alt (l : list regex) : regex :=
  match l with
  | [] => Void
  | [r] => r
  | r :: rest => Alt r (alt rest)
  end.

Definition alts (l : list string) : regex := alt (map lit l).
Definition plus (r : regex) : regex := Seq r (Star r).

(** [\b], [\s+] and [\s*]. *)
Definition wb : regex := WordBoundary.
Definition ws1 : regex := plus Space.
Definition ws0 : regex := Star Space.

(** [(word\s+)?] *)
Definition optWord (w : string) : regex := Opt (Seq (lit w) ws1).

(** [/.../i] *)
Definition re_i (l : list regex) : RegExp :=
  {| re_source := seq l; ignoreCase := true |}.

End Regex.

(* ===================================================================== *)
(** ** Stall detector ([stall-detector.service.ts])                       *)
(* ===================================================================== *)

Module StallDetector.
Import Stall Regex.

Record PhrasePattern := mkPattern {
  pattern : RegExp;
  pp_category : StallPhraseCategory;
  pp_baseConfidence : Q;
  phraseLabel : string
}.

(** Words separated by [\s+]. *)
Fixpoint words (l : list string) : regex :=
  match l with
  | [] => Eps
  | [w] => lit w
  | w :: rest => Seq (lit w) (Seq ws1 (words rest))
  end.

Definition executives : regex :=
  alts ["boss"; "manager"; "director"; "vp"; "cfo"; "ceo"].

Definition STALL_PATTERNS : list PhrasePattern :=
  [ (* PRICING_REQUEST *)
    (* /\b(send|email|get)\s+(me\s+)?(the\s+)?(pricing|price\s*list|quote|proposal)\b/i *)
    mkPattern
      (re_i [wb; alts ["send"; "email"; "get"]; ws1; optWord "me"; optWord "the";
             alt [lit "pricing"; seq [lit "price"; ws0; lit "list"];
                  lit "quote"; lit "proposal"]; wb])
      PRICING_REQUEST 0.6 "send pricing";
    (* /\bwhat('s|\s+is)\s+(the\s+)?(price|cost|pricing)\b/i *)
    mkPattern
      (re_i [wb; lit "what"; alt [lit "'s"; Seq ws1 (lit "is")]; ws1; optWord "the";
             alts ["price"; "cost"; "pricing"]; wb])
      PRICING_REQUEST 0.4 "price inquiry";
    (* /\bjust\s+send\s+(me\s+)?(the\s+)?pricing\b/i *)
    mkPattern
      (re_i [wb; words ["just"; "send"]; ws1; optWord "me"; optWord "the";
             lit "pricing"; wb])
      PRICING_REQUEST 0.8 "just send pricing";

    (* APPROVAL_NEEDED *)
    (* /\b(need|have)\s+to\s+(get\s+)?approval\b/i *)
    mkPattern
      (re_i [wb; alts ["need"; "have"]; ws1; lit "to"; ws1; optWord "get";
             lit "approval"; wb])
      APPROVAL_NEEDED 0.75 "need to get approval";
    (* /\bneed\s+(my\s+)?(boss|manager|director|vp|cfo|ceo)('s)?\s+approval\b/i *)
    mkPattern
      (re_i [wb; lit "need"; ws1; optWord "my"; executives; Opt (lit "'s"); ws1;
             lit "approval"; wb])
      APPROVAL_NEEDED 0.8 "need executive approval";
    (* /\bwait(ing)?\s+for\s+approval\b/i *)
    mkPattern
      (re_i [wb; lit "wait"; Opt (lit "ing"); ws1; words ["for"; "approval"]; wb])
      APPROVAL_NEEDED 0.7 "waiting for approval";
    (* /\bnot\s+in\s+(the\s+)?budget\b/i *)
    mkPattern
      (re_i [wb; words ["not"; "in"]; ws1; optWord "the"; lit "budget"; wb])
      APPROVAL_NEEDED 0.85 "not in budget";

    (* THINKING *)
    (* /\blet\s+me\s+think\s+(about\s+it|on\s+it|it\s+over)\b/i *)
    mkPattern
      (re_i [wb; words ["let"; "me"; "think"]; ws1;
             alt [words ["about"; "it"]; words ["on"; "it"]; words ["it"; "over"]]; wb])
      THINKING 0.7 "let me think about it";
    (* /\b(i\s+)?need\s+(some\s+)?time\s+to\s+think\b/i *)
    mkPattern
      (re_i [wb; optWord "i"; lit "need"; ws1; optWord "some";
             words ["time"; "to"; "think"]; wb])
      THINKING 0.65 "need time to think";
    (* /\bgive\s+(me|us)\s+(some\s+)?time\s+to\s+(think|consider|evaluate)\b/i *)
    mkPattern
      (re_i [wb; lit "give"; ws1; alts ["me"; "us"]; ws1; optWord "some";
             words ["time"; "to"]; ws1; alts ["think"; "consider"; "evaluate"]; wb])
      THINKING 0.7 "give us time to consider";

    (* TEAM_CHECK *)
    (* /\b(need\s+to\s+)?check\s+with\s+(my\s+)?team\b/i *)
    mkPattern
      (re_i [wb; Opt (seq [words ["need"; "to"]; ws1]); words ["check"; "with"]; ws1;
             optWord "my"; lit "team"; wb])
      TEAM_CHECK 0.6 "check with my team";
    (* /\brun\s+(it|this)\s+by\s+(my\s+)?team\b/i *)
    mkPattern
      (re_i [wb; lit "run"; ws1; alts ["it"; "this"]; ws1; lit "by"; ws1;
             optWord "my"; lit "team"; wb])
      TEAM_CHECK 0.6 "run by team";
    (* /\bget\s+(my\s+)?team('s)?\s+(buy-in|input|feedback)\b/i *)
    mkPattern
      (re_i [wb; lit "get"; ws1; optWord "my"; lit "team"; Opt (lit "'s"); ws1;
             alts ["buy-in"; "input"; "feedback"]; wb])
      TEAM_CHECK 0.65 "get team buy-in";
    (* /\bdiscuss\s+(it\s+)?with\s+(the\s+)?team\b/i *)
    mkPattern
      (re_i [wb; lit "discuss"; ws1; optWord "it"; lit "with"; ws1; optWord "the";
             lit "team"; wb])
      TEAM_CHECK 0.55 "discuss with team";

    (* DECISION_MAKER *)
    (* /\b(need\s+to\s+)?talk\s+to\s+(my\s+)?(boss|manager|director|vp|cfo|ceo|owner|partner)\b/i *)
    mkPattern
      (re_i [wb; Opt (seq [words ["need"; "to"]; ws1]); words ["talk"; "to"]; ws1;
             optWord "my";
             alts ["boss"; "manager"; "director"; "vp"; "cfo"; "ceo"; "owner"; "partner"];
             wb])
      DECISION_MAKER 0.8 "talk to decision maker";
    (* /\b(my\s+)?(boss|manager|director|vp|cfo|ceo)\s+(makes|handles|decides)\b/i *)
    mkPattern
      (re_i [wb; optWord "my"; executives; ws1;
             alts ["makes"; "handles"; "decides"]; wb])
      DECISION_MAKER 0.75 "executive decides";
    (* /\bi('m|\s+am)\s+not\s+the\s+(decision\s*maker|one\s+who\s+decides)\b/i *)
    mkPattern
      (re_i [wb; lit "i"; alt [lit "'m"; Seq ws1 (lit "am")]; ws1;
             words ["not"; "the"]; ws1;
             alt [seq [lit "decision"; ws0; lit "maker"];
                  words ["one"; "who"; "decides"]]; wb])
      DECISION_MAKER 0.9 "not the decision maker";
    (* /\bsomeone\s+else\s+(makes|handles)\s+(that\s+)?decision\b/i *)
    mkPattern
      (re_i [wb; words ["someone"; "else"]; ws1; alts ["makes"; "handles"]; ws1;
             optWord "that"; lit "decision"; wb])
      DECISION_MAKER 0.85 "someone else decides";

    (* CALLBACK_REQUEST *)
    (* /\bcall\s+(me\s+)?back\s+(next\s+)?(week|month|quarter)\b/i *)
    mkPattern
      (re_i [wb; lit "call"; ws1; optWord "me"; lit "back"; ws1; optWord "next";
             alts ["week"; "month"; "quarter"]; wb])
      CALLBACK_REQUEST 0.75 "call back later";
    (* /\b(reach\s+out|follow\s+up|get\s+back\s+to\s+me)\s+(next\s+)?(week|month|quarter)\b/i *)
    mkPattern
      (re_i [wb;
             alt [words ["reach"; "out"]; words ["follow"; "up"];
                  words ["get"; "back"; "to"; "me"]];
             ws1; optWord "next"; alts ["week"; "month"; "quarter"]; wb])
      CALLBACK_REQUEST 0.7 "follow up later";
    (* /\btouch\s+base\s+(in\s+)?a\s+(few\s+)?(weeks?|months?)\b/i *)
    mkPattern
      (re_i [wb; words ["touch"; "base"]; ws1; optWord "in"; lit "a"; ws1;
             optWord "few";
             alt [Seq (lit "week") (Opt (lit "s")); Seq (lit "month") (Opt (lit "s"))];
             wb])
      CALLBACK_REQUEST 0.7 "touch base in weeks/months";
    (* /\bnot\s+(a\s+good|the\s+right)\s+time\b/i *)
    mkPattern
      (re_i [wb; lit "not"; ws1; alt [words ["a"; "good"]; words ["the"; "right"]];
             ws1; lit "time"; wb])
      CALLBACK_REQUEST 0.8 "not the right time";
    (* /\bmaybe\s+(next\s+)?(quarter|year)\b/i *)
    mkPattern
      (re_i [wb; lit "maybe"; ws1; optWord "next"; alts ["quarter"; "year"]; wb])
      CALLBACK_REQUEST 0.85 "maybe next quarter/year";

    (* FOLLOWUP_PROMISE *)
    (* /\bwe('ll|\s+will)\s+get\s+back\s+to\s+you\b/i *)
    mkPattern
      (re_i [wb; lit "we"; alt [lit "'ll"; Seq ws1 (lit "will")]; ws1;
             words ["get"; "back"; "to"; "you"]; wb])
      FOLLOWUP_PROMISE 0.65 "we'll get back to you";
    (* /\bi('ll|\s+will)\s+(let\s+you\s+know|be\s+in\s+touch)\b/i *)
    mkPattern
      (re_i [wb; lit "i"; alt [lit "'ll"; Seq ws1 (lit "will")]; ws1;
             alt [words ["let"; "you"; "know"]; words ["be"; "in"; "touch"]]; wb])
      FOLLOWUP_PROMISE 0.6 "I'll let you know";
    (* /\bwe('ll|\s+will)\s+(reach\s+out|contact\s+you)\s+(when|if)\b/i *)
    mkPattern
      (re_i [wb; lit "we"; alt [lit "'ll"; Seq ws1 (lit "will")]; ws1;
             alt [words ["reach"; "out"]; words ["contact"; "you"]]; ws1;
             alts ["when"; "if"]; wb])
      FOLLOWUP_PROMISE 0.7 "we'll contact you when...";

    (* INTERNAL_DISCUSSION *)
    (* /\bneed\s+to\s+discuss\s+(this\s+)?internally\b/i *)
    mkPattern
      (re_i [wb; words ["need"; "to"; "discuss"]; ws1; optWord "this";
             lit "internally"; wb])
      INTERNAL_DISCUSSION 0.7 "need to discuss internally";
    (* /\bhave\s+(some\s+)?internal\s+(discussions?|meetings?|reviews?)\b/i *)
    mkPattern
      (re_i [wb; lit "have"; ws1; optWord "some"; lit "internal"; ws1;
             alt [Seq (lit "discussion") (Opt (lit "s"));
                  Seq (lit "meeting") (Opt (lit "s"));
                  Seq (lit "review") (Opt (lit "s"))]; wb])
      INTERNAL_DISCUSSION 0.65 "internal discussions";
    (* /\b(taking|take)\s+(it|this)\s+to\s+(our\s+)?(internal|leadership|board)\b/i *)
    mkPattern
      (re_i [wb; alts ["taking"; "take"]; ws1; alts ["it"; "this"]; ws1; lit "to"; ws1;
             optWord "our"; alts ["internal"; "leadership"; "board"]; wb])
      INTERNAL_DISCUSSION 0.7 "taking to leadership";
    (* /\bgoing\s+through\s+(our\s+)?(internal\s+)?process\b/i *)
    mkPattern
      (re_i [wb; words ["going"; "through"]; ws1; optWord "our"; optWord "internal";
             lit "process"; wb])
      INTERNAL_DISCUSSION 0.6 "going through process" ].

Record StallDetectorConfig := mkConfig {
  timeDecayHalfLifeHours : R;
  maxSignalAgeHours : R;
  criticalThreshold : R;
  highThreshold : R;
  mediumThreshold : R;
  alertWithinHours : R;
  minConfidenceForAlert : R
}.

Definition DEFAULT_CONFIG : StallDetectorConfig :=
  {| timeDecayHalfLifeHours := 48;
     maxSignalAgeHours := 168;
     criticalThreshold := 80;
     highThreshold := 60;
     mediumThreshold := 40;
     alertWithinHours := 24;
     minConfidenceForAlert := 5 / 10 |}%R.

Record Service := mkService {
  config : StallDetectorConfig;
  signals : gmap string StallSignal;
  dealStatuses : gmap string StallStatus
}.

Definition new (cfg : StallDetectorConfig) : Service :=
  {| config := cfg; signals := ∅; dealStatuses := ∅ |}.

(** What the surroundings hand to one call: the successive results of
    [uuidv4()] and the time. *)
Record Env := mkEnv {
  uuidAt : nat -> string;
  now : Z
}.

(** *** Text helpers *)

(** [String.prototype.trim]. *)
Definition trim (s : string) : string :=
  let dropSpaces := fix go (l : list ascii) : list ascii :=
    match l with
    | c :: l' => if isSpace c then go l' else l
    | [] => []
    end in
  string_of_list_ascii
    (rev (dropSpaces (rev (dropSpaces (list_ascii_of_string s))))).

(** [extractContext(text, position, radius)]. *)
Definition extractContext (text : string) (position radius : nat) : string :=
  let start := (position - radius)%nat in                (* Math.max(0, ..) *)
  let end_ := Nat.min (String.length text) (position + radius) in
  let context := String.substring start (end_ - start) text in
  let context := if (0 <? start)%nat then "..." +:+ context else context in
  let context := if (end_ <? String.length text)%nat then context +:+ "..." else context in
  trim context.

(** *** Detection *)

(** The inner [while] loop of [detectPhrases] for one pattern. *)
Definition matchesOf (content : string) (p : PhrasePattern)
    : option (list StallPhraseMatch) :=
  map (fun m => {| phrase := phraseLabel p;
                   category := pp_category p;
                   matchedText := text m;
                   m_confidence := pp_baseConfidence p;
                   position := index m;
                   context := extractContext content (index m) 100 |})
    <$> matchAll (pattern p) content.

Definition byPosition (a b : StallPhraseMatch) : bool := (position a <? position b)%nat.

Fixpoint collect (content : string) (patterns : list PhrasePattern)
    : option (list StallPhraseMatch) :=
  match patterns with
  | [] => Some []
  | p :: rest =>
      match matchesOf content p with
      | None => None
      | Some ms => app ms <$> collect content rest
      end
  end.

(** [detectPhrases(content)]; [None] when a loop would not end. *)
Definition detectPhrases (content : string) : option (list StallPhraseMatch) :=
  stable_sort byPosition <$> collect content STALL_PATTERNS.

(** [groupMatchesByCategory]: an object used as a map, its keys in
    insertion order. *)
Fixpoint addToGroup (m : StallPhraseMatch)
    (groups : list (StallPhraseCategory * list StallPhraseMatch))
    : list (StallPhraseCategory * list StallPhraseMatch) :=
  match groups with
  | [] => [(category m, [m])]
  | (c, ms) :: rest =>
      if bool_decide (c = category m) then (c, ms ++ [m]) :: rest
      else (c, ms) :: addToGroup m rest
  end.

Definition groupMatchesByCategory (matches : list StallPhraseMatch)
    : list (StallPhraseCategory * list StallPhraseMatch) :=
  fold_left (fun groups m => addToGroup m groups) matches [].

(** [categoryMatches.reduce((best, current) =>
      current.confidence > best.confidence ? current : best)]. *)
Definition bestOf (first : StallPhraseMatch) (rest : list StallPhraseMatch)
    : StallPhraseMatch :=
  fold_left
    (fun best current =>
       if Qltb (m_confidence best) (m_confidence current) then current else best)
    rest first.

(** *** Scoring *)

(** Hours between [date] and [now]. *)
Definition hoursBetween (now date : Z) : R := (IZR (now - date) / IZR (1000 * 60 * 60))%R.

(** [calculateTimeDecayedConfidence(baseConfidence, signalDate)];
    [Math.pow(0.5, x)] is [Rpower (1/2) x]. Over the reals the decay
    factor is never 0; in the source it underflows to 0 past some 1075
    half-lives, and a half-life of 0 gives [NaN] or an infinity, which
    the reals do not have. *)
Definition calculateTimeDecayedConfidence (cfg : StallDetectorConfig) (now : Z)
    (baseConfidence : R) (signalDate : Z) : R :=
  let hoursOld := hoursBetween now signalDate in
  let decayFactor := Rpower (1 / 2) (hoursOld / timeDecayHalfLifeHours cfg) in
  (baseConfidence * decayFactor)%R.

Definition calculateAggregateStrength (matches : list StallPhraseMatch) : Q :=
  match matches with
  | [] => 0
  | m :: rest =>
      let maxConfidence :=
        fold_left (fun acc m' => Qmax acc (m_confidence m')) rest (m_confidence m) in
      let countBonus :=
        (inject_Z (Z.min (Z.of_nat (length matches) - 1) 3) * 0.5)%Q in
      Qmin 10 (maxConfidence * 8 + countBonus)
  end%Q.

Definition recencyBonus (hoursSinceLatest : R) : R :=
  if Rlt_dec hoursSinceLatest 24 then 10%R
  else if Rlt_dec hoursSinceLatest 48 then 5%R
  else 0%R.

(** [calculateStallScore(signals)], the sum taken in exact reals. *)
Definition calculateStallScore (now : Z) (signals : list StallSignal) : R :=
  match signals with
  | [] => 0%R
  | s :: rest =>
      let totalScore :=
        fold_left (fun sum signal => (sum + timeDecayedConfidence signal * 30)%R)
                  signals 0%R in
      let latestSignal := latestOf s rest in
      let hoursSinceLatest := hoursBetween now (sourceTimestamp latestSignal) in
      Rmin 100 (totalScore + recencyBonus hoursSinceLatest)
  end.

Definition calculateSeverity (cfg : StallDetectorConfig) (stallScore : R)
    : StallSeverity :=
  if Rge_dec stallScore (criticalThreshold cfg) then CRITICAL
  else if Rge_dec stallScore (highThreshold cfg) then HIGH
  else if Rge_dec stallScore (mediumThreshold cfg) then MEDIUM
  else LOW.

(** *** The primary category *)

(** [if (!categoryScores[c]) categoryScores[c] = 0; categoryScores[c] += x]
    on an object used as a map, its keys in insertion order. *)
Fixpoint addScore (c : StallPhraseCategory) (x : Q)
    (scores : list (StallPhraseCategory * Q)) : list (StallPhraseCategory * Q) :=
  match scores with
  | [] => [(c, 0 + x)]
  | (c', v) :: rest =>
      if bool_decide (c' = c)
      then (c', (if Qeq_bool v 0 then 0 else v) + x) :: rest
      else (c', v) :: addScore c x rest
  end%Q.

Definition categoryScoresOf (signals : list StallSignal)
    : list (StallPhraseCategory * Q) :=
  fold_left
    (fun scores signal =>
       fold_left (fun scores m => addScore (category m) (m_confidence m) scores)
                 (phraseMatches signal) scores)
    signals [].

(** [determinePrimaryCategory(signals)], the scores summed exactly; sums
    of doubles can order two categories of equal exact score either
    way. *)
Definition determinePrimaryCategory (signals : list StallSignal)
    : option StallPhraseCategory :=
  match signals with
  | [] => None
  | _ =>
      fst (fold_left
             (fun (acc : option StallPhraseCategory * Q) entry =>
                let '(maxCategory, maxScore) := acc in
                let '(c, score) := entry in
                if Qltb maxScore score then (Some c, score)
                else (maxCategory, maxScore))
             (categoryScoresOf signals) (None, 0%Q))
  end.

(** *** The verdict on a deal *)

(** The filter of [calculateDealStatus] on the age of the deal's signals. *)
Definition validSignalsOf (cfg : StallDetectorConfig) (now : Z)
    (dealSignals : list StallSignal) : list StallSignal :=
  List.filter
    (fun signal =>
       let ageHours := hoursBetween now (sourceTimestamp signal) in
       if Rle_dec ageHours (maxSignalAgeHours cfg) then true else false)
    dealSignals.

(** [stallScore], [severity] and [isStalled] as [calculateDealStatus]
    computes them from the signals it has kept. *)
Definition stallVerdict (cfg : StallDetectorConfig) (now : Z)
    (validSignals : list StallSignal) : R * StallSeverity * bool :=
  let stallScore := calculateStallScore now validSignals in
  let severity := calculateSeverity cfg stallScore in
  let isStalled := if Rge_dec stallScore (mediumThreshold cfg) then true else false in
  (stallScore, severity, isStalled).

(** *** Analysing an email *)

(** The body of the loop over the categories of [analyzeEmail]: build the
    signal of one category, push it and store it. [k] counts the signals
    made so far, hence the calls to [uuidv4()]. *)
Definition emailSignal (cfg : StallDetectorConfig) (env : Env) (email : EmailContent)
    (contentToAnalyze : string) (k : nat) (categoryMatches : list StallPhraseMatch)
    : option StallSignal :=
  match categoryMatches with
  | [] => None
  | m :: rest =>
      let bestMatch := bestOf m rest in
      Some {| sig_id := uuidAt env k;
              sig_dealId :=
                match em_dealId email with Some d => d | None => "" end;
              sig_accountId := em_accountId email;
              sig_accountName := em_accountName email;
              source := EMAIL;
              sourceId := em_id email;
              sourceTimestamp := sentDate email;
              phraseMatches := categoryMatches;
              rawContent := extractContext contentToAnalyze (position bestMatch) 200;
              baseConfidence := m_confidence bestMatch;
              timeDecayedConfidence :=
                calculateTimeDecayedConfidence cfg (now env)
                  (Q2R (m_confidence bestMatch)) (sentDate email);
              aggregateStrength := calculateAggregateStrength categoryMatches;
              detectedAt := now env;
              processedAt := None |}
  end.

Fixpoint emailSignals (cfg : StallDetectorConfig) (env : Env) (email : EmailContent)
    (contentToAnalyze : string) (k : nat)
    (groups : list (StallPhraseCategory * list StallPhraseMatch))
    (acc : list StallSignal * gmap string StallSignal)
    : list StallSignal * gmap string StallSignal :=
  match groups with
  | [] => acc
  | (_, categoryMatches) :: rest =>
      match emailSignal cfg env email contentToAnalyze k categoryMatches with
      | Some signal =>
          emailSignals cfg env email contentToAnalyze (S k) rest
            (fst acc ++ [signal], <[sig_id signal := signal]> (snd acc))
      | None => emailSignals cfg env email contentToAnalyze k rest acc
      end
  end.

(** [analyzeEmail(email)]: the signals returned and the service after the
    call; [None] when detection would not end. *)
Definition analyzeEmail (env : Env) (email : EmailContent) (s : Service)
    : option (list StallSignal * Service) :=
  if negb (bool_decide (direction email = INBOUND)) then Some ([], s)
  else
    let contentToAnalyze := subject email +:+ " " +:+ body email in
    match detectPhrases contentToAnalyze with
    | None => None
    | Some matches =>
        if (length matches =? 0)%nat then Some ([], s)
        else
          let matchesByCategory := groupMatchesByCategory matches in
          let '(out, store) :=
            emailSignals (config s) env email contentToAnalyze 0 matchesByCategory
              ([], signals s) in
          Some (out,
                {| config := config s; signals := store;
                   dealStatuses := dealStatuses s |})
    end.

(** *** Analysing a call transcript *)

(** [createSignal(transcript, source, bestMatches, allMatches)]; [k]
    counts the signals made so far. Reading [bestMatches[0].position] of
    an empty array throws: [None]. *)
Definition createSignal (cfg : StallDetectorConfig) (env : Env)
    (transcript : CallTranscript) (source : StallSignalSource)
    (bestMatches allMatches : list StallPhraseMatch) (k : nat)
    : option StallSignal :=
  match bestMatches with
  | [] => None
  | bestMatch :: _ =>
      Some {| sig_id := uuidAt env k;
              sig_dealId :=
                match tr_dealId transcript with Some d => d | None => "" end;
              sig_accountId := tr_accountId transcript;
              sig_accountName := tr_accountName transcript;
              source := source;
              sourceId := tr_id transcript;
              sourceTimestamp := callDate transcript;
              phraseMatches := allMatches;
              rawContent :=
                extractContext (Stall.transcript transcript) (position bestMatch) 200;
              baseConfidence := m_confidence bestMatch;
              timeDecayedConfidence :=
                calculateTimeDecayedConfidence cfg (now env)
                  (Q2R (m_confidence bestMatch)) (callDate transcript);
              aggregateStrength := calculateAggregateStrength allMatches;
              detectedAt := now env;
              processedAt := None |}
  end.

(** The loop of [analyzeTranscript] over the categories; [reduce] without
    an initial value throws on an empty array: [None]. *)
Fixpoint transcriptSignals (cfg : StallDetectorConfig) (env : Env)
    (transcript : CallTranscript) (k : nat)
    (groups : list (StallPhraseCategory * list StallPhraseMatch))
    (acc : list StallSignal * gmap string StallSignal)
    : option (list StallSignal * gmap string StallSignal) :=
  match groups with
  | [] => Some acc
  | (_, categoryMatches) :: rest =>
      match categoryMatches with
      | [] => None
      | m :: more =>
          let bestMatch := bestOf m more in
          match createSignal cfg env transcript CALL_TRANSCRIPT
                  [bestMatch] categoryMatches k with
          | None => None
          | Some signal =>
              transcriptSignals cfg env transcript (S k) rest
                (fst acc ++ [signal], <[sig_id signal := signal]> (snd acc))
          end
      end
  end.

(** [analyzeTranscript(transcript)]: the signals returned and the service
    after the call; [None] when the call does not return. *)
Definition analyzeTranscript (env : Env) (transcript : CallTranscript) (s : Service)
    : option (list StallSignal * Service) :=
  match detectPhrases (Stall.transcript transcript) with
  | None => None
  | Some matches =>
      if (length matches =? 0)%nat then Some ([], s)
      else
        let matchesByCategory := groupMatchesByCategory matches in
        match transcriptSignals (config s) env transcript 0 matchesByCategory
                ([], signals s) with
        | None => None
        | Some (out, store) =>
            Some (out,
                  {| config := config s; signals := store;
                     dealStatuses := dealStatuses s |})
        end
  end.

Definition addSignal (signal : StallSignal) (s : Service) : Service :=
  {| config := config s;
     signals := <[sig_id signal := signal]> (signals s);
     dealStatuses := dealStatuses s |}.

End StallDetector.

(* ===================================================================== *)
(** ** Statements and sample inputs used in Part II                       *)
(* ===================================================================== *)

Module EngineSamples.
Import StageEngine.

Definition defaultEngine : Service := new noOverrides.

(** A rule with an exclusion and a [minConfidence] only, and a signal set
    that has nothing to do with it. *)
Definition exclusionRule : StageRule :=
  mkRule (mkConditions None None (Some [NOT_INTERESTED]) (Some 0.9%Q))
         (mkRuleResult ST_NURTURE None None None) 10.

Definition unrelatedSignals : list CallSignal :=
  [mkSignal LIVE_CONVERSATION 0.1%Q "hello"].

(** High threshold below the medium one. *)
Definition misorderedEngine : Service :=
  new (mkPartial (Some 0.3%Q) (Some 0.5%Q) None None None).

(** Places along the pipeline, for stating which moves go forward. *)
Definition pipelineRank (st : OutreachStage) : nat :=
  match st with
  | ST_NEW => 0 | ST_ATTEMPTED => 1 | ST_WORKING => 2 | ST_QUALIFIED => 3
  | ST_DEMO_SCHEDULED => 4 | ST_PROPOSAL => 5 | ST_NEGOTIATION => 6
  | ST_CLOSED_WON => 7 | ST_CLOSED_LOST => 7 | ST_NURTURE => 7
  end.

(** The type [t] occurs among the signals. *)
Definition present (signals : list CallSignal) (t : CallSignalType) : Prop :=
  exists s, In s signals /\ sig_type s = t.

Definition pricingSignals : list CallSignal :=
  [mkSignal PRICING_DISCUSSED 0.9%Q "what would it cost";
   mkSignal INTEREST_EXPRESSED 0.8%Q "sounds good"].

End EngineSamples.

Module EngineStatements.
Import StageEngine EngineSamples.

#[local] Open Scope Q_scope.

(** Action routing as the specification tells it, the last clause for
    every configuration. *)
Definition routing_contract (svc : Service) (c : Q) : Prop :=
  let cfg := config svc in
  let a := action (getActionDecision svc c) in
  (a = AUTO_UPDATE \/ a = FLAG_FOR_CONFIRMATION \/ a = NO_ACTION)
  /\ (highConfidenceThreshold cfg <= c ->
      a = if enableAutoUpdate cfg then AUTO_UPDATE else FLAG_FOR_CONFIRMATION)
  /\ (mediumConfidenceThreshold cfg <= c -> c < highConfidenceThreshold cfg ->
      a = if enableFlagging cfg then FLAG_FOR_CONFIRMATION else NO_ACTION)
  /\ (c < mediumConfidenceThreshold cfg -> a = NO_ACTION).

(** The three conditions of a rule on the set of signal types: every
    required type occurs, some any-of type occurs, no excluded type
    occurs; an absent condition asks for nothing. *)
Definition meetsSetConditions (r : StageRule) (signals : list CallSignal) : Prop :=
  (forall req, requiredSignals (conditions r) = Some req ->
     forall t, In t req -> present signals t)
  /\ (forall any, anySignals (conditions r) = Some any ->
        exists t, In t any /\ present signals t)
  /\ (forall excl, excludeSignals (conditions r) = Some excl ->
        forall t, In t excl -> ~ present signals t).

End EngineStatements.

Module AuditSamples.
Import AuditLog.

Definition env1 : Env := {| uuid := "e1"; clock := 1000; fsOk := true |}.
Definition env2 : Env := {| uuid := "r1"; clock := 2000; fsOk := true |}.

(** A log with one STAGE_CHANGE entry ["e1"], WORKING -> QUALIFIED. *)
Definition logWith (c : PartialConfig) : Service :=
  snd (logStageChange env1 "call-1" 7 (Some "WORKING") "QUALIFIED" 0.9%Q true None
         (new c)).

Definition enabledLog : Service := logWith (mkPartial None None None None).
Definition disabledLog : Service := logWith (mkPartial None (Some false) None None).

(** The enabled log after rolling ["e1"] back, and after doing it again. *)
Definition env3 : Env := {| uuid := "r2"; clock := 3000; fsOk := true |}.
Definition rolledBackLog : Service := snd (rollback env2 "e1" "ann" enabledLog).

End AuditSamples.

Module AuditStatements.
Import AuditLog.

(** [s'] is [s] with exactly one more entry, the ROLLBACK entry [rb] that
    undoes [original]. *)
Definition appendsRollback (env : Env) (auditId confirmedBy : string)
    (original rb : AuditEntry) (s s' : Service) : Prop :=
  id rb = uuid env
  /\ action rb = ROLLBACK
  /\ previousValue rb = newValue original
  /\ newValue rb = previousValue original
  /\ rollbackOf rb = Some auditId
  /\ AuditLog.confirmedBy rb = Some confirmedBy
  /\ callId rb = callId original
  /\ entries s' = <[uuid env := rb]> (entries s)
  /\ size (entries s') = S (size (entries s))
  /\ entriesByCallId s' !! callId original
     = Some (default [] (entriesByCallId s !! callId original) ++ [uuid env]).

(** The rollback contract with no mention of the configuration. *)
Definition rollback_contract (env : Env) (auditId confirmedBy : string)
    (s : Service) : Prop :=
  let res := fst (rollback env auditId confirmedBy s) in
  let s' := snd (rollback env auditId confirmedBy s) in
  match entries s !! auditId with
  | None =>
      success res = false /\ message res = "Audit entry not found" /\ s' = s
  | Some original =>
      if rollbackable (action original) then
        success res = true
        /\ restoredValue res = previousValue original
        /\ exists rb, appendsRollback env auditId confirmedBy original rb s s'
      else
        success res = false
        /\ message res
           = "Cannot rollback action type: " +:+ actionName (action original)
        /\ s' = s
  end.

(** An entry as the [log...] functions make it: under the new id, not a
    ROLLBACK, with no [rollbackOf]. *)
Definition isLogEntry (env : Env) (e : AuditEntry) : Prop :=
  id e = uuid env /\ action e <> ROLLBACK /\ rollbackOf e = None.

(** The logs built by logging and rolling back, [uuidv4()] never handing
    out an id twice; [used] holds the ids handed out. *)
Inductive logged : gset string -> Service -> Prop :=
  | logged_new c :
      logged ∅ (new c)
  | logged_log used s env e :
      logged used s -> isLogEntry env e -> uuid env ∉ used ->
      logged ({[uuid env]} ∪ used) (snd (addEntry env e s))
  | logged_rollback used s env auditId confirmedBy :
      logged used s -> uuid env ∉ used ->
      logged ({[uuid env]} ∪ used) (snd (rollback env auditId confirmedBy s)).

(** How many entries of [l] satisfy [p]. *)
Definition countIf (p : AuditEntry -> bool) (l : list AuditEntry) : nat :=
  length (List.filter p l).

(** The time stamp [t] is one of the stored entries'. *)
Definition stampOfSome (s : Service) (t : Z) : Prop :=
  exists i e, entries s !! i = Some e /\ timestamp e = t.

(** Entries are stored under their own id, one handed out before. *)
Definition keysAreIds (used : gset string) (s : Service) : Prop :=
  forall i e, entries s !! i = Some e -> id e = i /\ i ∈ used.

(** Every ROLLBACK entry names a stored entry that could be rolled back,
    and nothing else names one. *)
Definition rollbacksReferToEligible (s : Service) : Prop :=
  forall i e, entries s !! i = Some e ->
    (action e = ROLLBACK ->
     exists oid o, rollbackOf e = Some oid /\ oid <> i
                   /\ entries s !! oid = Some o
                   /\ (action o = STAGE_CHANGE \/ action o = DISPOSITION_SET))
    /\ (action e <> ROLLBACK -> rollbackOf e = None).

(** The index by call lists an id exactly once under the call of its
    entry and lists nothing else. *)
Definition callIndexExact (s : Service) : Prop :=
  (forall c ids i, entriesByCallId s !! c = Some ids -> In i ids ->
     exists e, entries s !! i = Some e /\ callId e = c)
  /\ (forall i e, entries s !! i = Some e ->
        exists ids, entriesByCallId s !! callId e = Some ids /\ In i ids)
  /\ (forall c ids, entriesByCallId s !! c = Some ids -> List.NoDup ids).

End AuditStatements.

Module AlertStatements.
Import Stall Alerts.

#[local] Open Scope Q_scope.

(** [alertId] is listed for [deal], is stored, is not acknowledged and
    was created less than [alertWithinHours] before [now]. *)
Definition activeAlert (s : Service) (now : Z) (deal alertId : string) : Prop :=
  exists ids a,
    alertsByDeal s !! deal = Some ids
    /\ In alertId ids
    /\ alerts s !! alertId = Some a
    /\ acknowledged a = false
    /\ hoursOfMs (now - createdAt a) < alertWithinHours (config s).

(** The states of an alert service with configuration [cfg]: what its
    public operations make of the empty service as time goes by.
    [reachable cfg t used s]: at time [t] the service is [s] and [used]
    holds the ids that [uuidv4()] has handed out; a new id is never one of
    them. *)
Inductive reachable (cfg : AlertServiceConfig) : Z -> gset string -> Service -> Prop :=
  | reach_new t :
      reachable cfg t ∅ (new cfg)
  | reach_later t t' used s :
      reachable cfg t used s -> (t <= t')%Z ->
      reachable cfg t' used s
  | reach_generate t used s env status :
      reachable cfg t used s -> now env = t -> uuid env ∉ used ->
      reachable cfg t ({[uuid env]} ∪ used) (snd (generateAlert env status s))
  | reach_acknowledge t used s alertId acknowledgedBy :
      reachable cfg t used s ->
      reachable cfg t used (snd (acknowledgeAlert t alertId acknowledgedBy s))
  | reach_deliver t used s alertId :
      reachable cfg t used s ->
      reachable cfg t used (snd (deliverAlert t alertId s))
  | reach_cleanup t used s :
      reachable cfg t used s ->
      reachable cfg t used (snd (cleanupExpiredAlerts t s))
  | reach_clear t used s :
      reachable cfg t used s ->
      reachable cfg t used (clearAll s).

(** At most one active alert per deal. *)
Definition atMostOneActive (s : Service) (t : Z) : Prop :=
  forall d ids i j,
    alertsByDeal s !! d = Some ids -> In i ids -> In j ids ->
    recentUnackedAt s t i = true -> recentUnackedAt s t j = true -> i = j.

(** Every listed id was handed out by [uuidv4()]. *)
Definition indexUsed (s : Service) (used : gset string) : Prop :=
  forall d ids i, alertsByDeal s !! d = Some ids -> In i ids -> i ∈ used.

(** [s'] stores no alert and lists no id that [s] does not. *)
Definition shrinks (s s' : Service) : Prop :=
  config s' = config s
  /\ (forall i a, alerts s' !! i = Some a -> alerts s !! i = Some a)
  /\ (forall d ids', alertsByDeal s' !! d = Some ids' ->
        exists ids, alertsByDeal s !! d = Some ids
                    /\ forall i, In i ids' -> In i ids).

(** Every id listed for a deal is that of a stored alert of the deal. *)
Definition indexSound (s : Service) : Prop :=
  forall d ids i, alertsByDeal s !! d = Some ids -> In i ids ->
    exists a, alerts s !! i = Some a /\ al_dealId a = d.

(** [alert.expiresAt < now]. *)
Definition expired (t : Z) (a : StallAlert) : bool := (expiresAt a <? t)%Z.

(** Whether the visits of [cleanupExpiredAlerts] to the entries [l] leave
    the id [i] in the list of deal [d]. *)
Definition keep (t : Z) (l : list (string * StallAlert)) (d i : string) : bool :=
  negb (existsb (fun e => String.eqb i (fst e) && expired t (snd e)
                          && String.eqb (al_dealId (snd e)) d) l).

(** The recipient that stands for the owner of the deal. *)
Definition repRecipient (status : StallStatus) : Recipient :=
  {| r_id := ownerRepId status; r_name := ownerRepName status;
     r_email := ownerRepId status +:+ "@company.com"; r_type := REP |}.

End AlertStatements.

Module AlertSamples.
Import Stall Alerts.

Definition stalledStatus : StallStatus :=
  {| dealId := "deal-1"; accountId := "acct-1"; accountName := "Acme";
     dealStage := NEGOTIATION; dealValue := Some 50000%Q;
     ownerRepId := "rep-1"; ownerRepName := "Rita";
     managerId := Some "mgr-1"; managerName := Some "Max";
     isStalled := true; severity := HIGH; stallScore := 65%R;
     primaryCategory := Some THINKING; signalCount := 0;
     latestSignalAt := None; signals := [];
     daysSinceLastPositiveEngagement := Some 3%Z;
     lastPositiveEngagementDate := None; lastPositiveEngagementType := None;
     recommendedActions := ["Set a specific follow-up date and time"];
     calculatedAt := 0; alertSentAt := None |}.

Definition plain (q : Q) : string := pretty (Qfloor q).

(** One hour after the start, and two hours after it. *)
Definition envA : Env := {| uuid := "a1"; now := 3600000; toLocaleString := plain |}.
Definition envB : Env := {| uuid := "a2"; now := 7200000; toLocaleString := plain |}.

Definition oneAlert : Service :=
  snd (generateAlert envA stalledStatus (new DEFAULT_CONFIG)).

End AlertSamples.

Module StallStatements.
Import Stall StallDetector.

(** The sum over the signals of [timeDecayedConfidence * 30]. *)
Definition decayedSum (signals : list StallSignal) : R :=
  fold_right (fun s acc => (timeDecayedConfidence s * 30 + acc)%R) 0%R signals.

(** [latest] is a most recent signal of the list. *)
Definition mostRecent (signals : list StallSignal) (latest : StallSignal) : Prop :=
  In latest signals
  /\ forall s, In s signals -> (sourceTimestamp s <= sourceTimestamp latest)%Z.

(** The matches filed under the category [c]. *)
Fixpoint groupOf (c : StallPhraseCategory)
    (groups : list (StallPhraseCategory * list StallPhraseMatch))
    : option (list StallPhraseMatch) :=
  match groups with
  | [] => None
  | (c', ms) :: rest => if bool_decide (c' = c) then Some ms else groupOf c rest
  end.

(** The matches of [matches] whose category is [c], in their order. *)
Definition ofCategory (c : StallPhraseCategory) (matches : list StallPhraseMatch)
    : list StallPhraseMatch :=
  List.filter (fun m => bool_decide (category m = c)) matches.

(** What [analyzeEmail] puts into the signal of one category. *)
Definition emailSignalOf (cfg : StallDetectorConfig) (env : Env)
    (email : EmailContent) (content : string) (signal : StallSignal) : Prop :=
  source signal = EMAIL
  /\ sourceId signal = em_id email
  /\ sourceTimestamp signal = sentDate email
  /\ detectedAt signal = now env
  /\ (exists best, In best (phraseMatches signal)
         /\ baseConfidence signal = m_confidence best
         /\ rawContent signal = extractContext content (position best) 200)
  /\ (forall m, In m (phraseMatches signal) ->
         (m_confidence m <= baseConfidence signal)%Q)
  /\ timeDecayedConfidence signal
     = calculateTimeDecayedConfidence cfg (now env)
         (Q2R (baseConfidence signal)) (sentDate email)
  /\ aggregateStrength signal = calculateAggregateStrength (phraseMatches signal).

(** What [analyzeTranscript] puts into the signal of one category. *)
Definition transcriptSignalOf (cfg : StallDetectorConfig) (env : Env)
    (tr : CallTranscript) (signal : StallSignal) : Prop :=
  source signal = CALL_TRANSCRIPT
  /\ sourceId signal = tr_id tr
  /\ sourceTimestamp signal = callDate tr
  /\ detectedAt signal = now env
  /\ (exists best, In best (phraseMatches signal)
         /\ baseConfidence signal = m_confidence best
         /\ rawContent signal = extractContext (transcript tr) (position best) 200)
  /\ (forall m, In m (phraseMatches signal) ->
         (m_confidence m <= baseConfidence signal)%Q)
  /\ timeDecayedConfidence signal
     = calculateTimeDecayedConfidence cfg (now env)
         (Q2R (baseConfidence signal)) (callDate tr)
  /\ aggregateStrength signal = calculateAggregateStrength (phraseMatches signal).

(** Storing signals one after the other. *)
Definition storeAll (new : list StallSignal) (store : gmap string StallSignal)
    : gmap string StallSignal :=
  fold_left (fun st signal => <[sig_id signal := signal]> st) new store.

(** The confidences of the matches of category [c] in the signals, summed. *)
Definition sumConfidences (matches : list StallPhraseMatch) : Q :=
  fold_right (fun m acc => (m_confidence m + acc)%Q) 0%Q matches.

Definition categoryTotal (c : StallPhraseCategory) (signals : list StallSignal) : Q :=
  sumConfidences (ofCategory c (flat_map phraseMatches signals)).

(** The score filed under the category [c]. *)
Fixpoint scoreOf (c : StallPhraseCategory) (scores : list (StallPhraseCategory * Q))
    : option Q :=
  match scores with
  | [] => None
  | (c', v) :: rest => if bool_decide (c' = c) then Some v else scoreOf c rest
  end.

(** A match lies in [content]: its text is what stands at its position,
    and is not empty. *)
Definition located (content : string) (m : StallPhraseMatch) : Prop :=
  matchedText m
  = String.substring (position m) (String.length (matchedText m)) content
  /\ (0 < String.length (matchedText m))%nat
  /\ (position m + String.length (matchedText m) <= String.length content)%nat.

(** A match carries the label, category and confidence of a pattern of the
    table, and the text around its position. *)
Definition fromTable (content : string) (m : StallPhraseMatch) : Prop :=
  exists p, In p STALL_PATTERNS
            /\ phrase m = phraseLabel p
            /\ category m = pp_category p
            /\ m_confidence m = pp_baseConfidence p
            /\ context m = extractContext content (position m) 100.

(** The decay law as the specification tells it, for every half-life:
    the formula, the value at age 0, the value at an age of one
    half-life, and no growth with age. *)
Definition decay_contract (cfg : StallDetectorConfig) (base : R) : Prop :=
  (forall now date,
     calculateTimeDecayedConfidence cfg now base date
     = base * Rpower (1 / 2) (hoursBetween now date / timeDecayHalfLifeHours cfg))%R
  /\ (forall date, calculateTimeDecayedConfidence cfg date base date = base)
  /\ (forall now date,
        hoursBetween now date = timeDecayHalfLifeHours cfg ->
        calculateTimeDecayedConfidence cfg now base date = base / 2)%R
  /\ (forall now date now' date',
        hoursBetween now date <= hoursBetween now' date' ->
        calculateTimeDecayedConfidence cfg now' base date'
        <= calculateTimeDecayedConfidence cfg now base date)%R.

Definition scenarioText : string :=
  "let me think about it and I'll send you pricing next week".

(** The scenario as the specification tells it: at least two matches, one
    THINKING and one PRICING_REQUEST or CALLBACK_REQUEST. *)
Definition scenario_two_categories : Prop :=
  exists matches m1 m2,
    detectPhrases scenarioText = Some matches
    /\ (2 <= length matches)%nat
    /\ In m1 matches /\ category m1 = THINKING
    /\ In m2 matches
    /\ (category m2 = PRICING_REQUEST \/ category m2 = CALLBACK_REQUEST).

End StallStatements.

Module StallSamples.
Import Stall StallDetector.

Definition signalAt (i : string) (ts : Z) (tdc : R) : StallSignal :=
  {| sig_id := i; sig_dealId := "deal-1"; sig_accountId := "acct-1";
     sig_accountName := "Acme"; source := EMAIL; sourceId := "mail-1";
     sourceTimestamp := ts; phraseMatches := []; rawContent := "";
     baseConfidence := 0.7%Q; timeDecayedConfidence := tdc;
     aggregateStrength := 5.6%Q; detectedAt := ts; processedAt := None |}.

(** Ten hours and thirty hours before [sampleNow]. *)
Definition sampleNow : Z := 360000000.
Definition older : StallSignal := signalAt "s1" 252000000 (1 / 2)%R.
Definition newer : StallSignal := signalAt "s2" 324000000 (1 / 4)%R.

Definition outboundEmail : EmailContent :=
  {| em_id := "mail-2"; em_dealId := Some "deal-1"; em_accountId := "acct-1";
     em_accountName := "Acme"; sentDate := 0; em_from := "rep@company.com";
     em_to := ["buyer@acme.com"]; subject := "Pricing";
     body := "You asked me to just send me the pricing; let me think about it";
     direction := OUTBOUND; em_repId := None; em_repName := None |}.

Definition sampleEnv : Env := {| uuidAt := fun k => pretty k; now := sampleNow |}.

(** The default configuration with a half-life of minus 48 hours. *)
Definition negativeHalfLife : StallDetectorConfig :=
  {| timeDecayHalfLifeHours := -48;
     maxSignalAgeHours := maxSignalAgeHours DEFAULT_CONFIG;
     criticalThreshold := criticalThreshold DEFAULT_CONFIG;
     highThreshold := highThreshold DEFAULT_CONFIG;
     mediumThreshold := mediumThreshold DEFAULT_CONFIG;
     alertWithinHours := alertWithinHours DEFAULT_CONFIG;
     minConfidenceForAlert := minConfidenceForAlert DEFAULT_CONFIG |}%R.

Definition matchOf (c : StallPhraseCategory) (confidence : Q) (pos : nat)
    : StallPhraseMatch :=
  {| phrase := "sample"; category := c; matchedText := "sample";
     m_confidence := confidence; position := pos; context := "sample" |}.

(** The same text, sent by the buyer. *)
Definition inboundEmail : EmailContent :=
  {| em_id := "mail-3"; em_dealId := Some "deal-1"; em_accountId := "acct-1";
     em_accountName := "Acme"; sentDate := 0; em_from := "buyer@acme.com";
     em_to := ["rep@company.com"]; subject := "Pricing";
     body := "You asked me to just send me the pricing; let me think about it";
     direction := INBOUND; em_repId := None; em_repName := None |}.

End StallSamples.

(* ===================================================================== *)
(** * Part II. Properties                                                 *)
(* ===================================================================== *)

(** ** Rational comparisons *)

Lemma Qltb_lt (a b : Q) : Qltb a b = true <-> (a < b)%Q.
Proof.
  unfold Qltb. rewrite negb_true_iff. split.
  - intros H. apply Qnot_le_lt. intros Hle.
    apply Qle_bool_iff in Hle. congruence.
  - intros H. destruct (Qle_bool b a) eqn:E; [|reflexivity].
    apply Qle_bool_iff in E. exfalso. exact (Qlt_not_le _ _ H E).
Qed.

Lemma Qltb_ge (a b : Q) : Qltb a b = false <-> (b <= a)%Q.
Proof.
  unfold Qltb. rewrite negb_false_iff. apply Qle_bool_iff.
Qed.

Lemma Qgeb_le (a b : Q) : Qgeb a b = true <-> (b <= a)%Q.
Proof. unfold Qgeb. apply Qle_bool_iff. Qed.

Lemma Qgeb_lt (a b : Q) : Qgeb a b = false <-> (a < b)%Q.
Proof.
  unfold Qgeb. split.
  - intros H. apply Qnot_le_lt. intros Hle. apply Qle_bool_iff in Hle. congruence.
  - intros H. destruct (Qle_bool b a) eqn:E; [|reflexivity].
    apply Qle_bool_iff in E. exfalso. exact (Qlt_not_le _ _ H E).
Qed.

(** ** The stable sort *)

Section StableSortFacts.
Context {A : Type} (lt : A -> A -> bool).

Lemma sort_insert_perm (x : A) (l : list A) :
  Permutation (sort_insert lt x l) (x :: l).
Proof.
  induction l as [|y l IH]; simpl.
  - reflexivity.
  - destruct (lt y x).
    + rewrite IH. apply perm_swap.
    + reflexivity.
Qed.

Lemma stable_sort_perm (l : list A) : Permutation (stable_sort lt l) l.
Proof.
  induction l as [|x l IH]; simpl.
  - reflexivity.
  - rewrite sort_insert_perm. now constructor.
Qed.

End StableSortFacts.

(** ** Stage engine *)

Section StageEngineFacts.
Import StageEngine EngineSamples.

Lemma sortedRules_table : sortedRules = STAGE_RULES.
Proof. vm_compute. reflexivity. Qed.

Lemma sortedRules_perm : Permutation sortedRules STAGE_RULES.
Proof. apply stable_sort_perm. Qed.

Lemma sortedRules_descending :
  StronglySorted (fun a b => (priority b < priority a)%Z) sortedRules.
Proof.
  rewrite sortedRules_table. unfold STAGE_RULES.
  repeat (apply SSorted_cons; [|repeat (apply List.Forall_cons; [reflexivity|]); apply List.Forall_nil]).
  apply SSorted_nil.
Qed.

(** The loop returns the outcome of the first rule that evaluates to
    true, and the default when there is none. *)
Lemma tryRules_first (svc : Service) (signals : list CallSignal) (rules : list StageRule) :
  (exists before r after,
      rules = before ++ r :: after
      /\ Forall (fun r' => evaluateRule r' signals = false) before
      /\ evaluateRule r signals = true
      /\ tryRules svc rules signals = ruleOutcome svc r signals)
  \/ (Forall (fun r => evaluateRule r signals = false) rules
      /\ tryRules svc rules signals = defaultResult).
Proof.
  induction rules as [|r rules IH]; simpl.
  - right. split; [constructor | reflexivity].
  - destruct (evaluateRule r signals) eqn:E.
    + left. exists [], r, rules. repeat split; auto.
    + destruct IH as [(before & r0 & after & -> & Hb & Hr & Ht) | [Hall Ht]].
      * left. exists (r :: before), r0, after. repeat split; auto.
      * right. split; auto.
Qed.

(** In a list sorted by strictly descending priority, whatever has a
    higher priority than an element stands before it. *)
Lemma higher_priority_before (before after : list StageRule) (r r' : StageRule) :
  StronglySorted (fun a b => (priority b < priority a)%Z) (before ++ r :: after) ->
  In r' (before ++ r :: after) ->
  (priority r < priority r')%Z ->
  In r' before.
Proof.
  induction before as [|b before IH]; simpl; intros Hs Hin Hlt.
  - apply StronglySorted_inv in Hs as [_ Hall].
    destruct Hin as [<- | Hin]; [lia|].
    rewrite List.Forall_forall in Hall. specialize (Hall _ Hin). simpl in Hall. lia.
  - apply StronglySorted_inv in Hs as [Hs _].
    destruct Hin as [-> | Hin]; [now left | right; now apply IH].
Qed.

(** C1. [mapToStage] walks the rule table in strictly descending priority
    order and returns the outcome of the first rule whose conditions
    hold: every rule of higher priority was evaluated and failed. When no
    rule holds it returns the fixed default: stage WORKING, confidence
    0.3, the flag asking for manual review. Being a total function it
    yields a result for every signal set. *)
Theorem mapToStage_first_match_or_default (svc : Service) (signals : list CallSignal) :
  Permutation sortedRules STAGE_RULES
  /\ StronglySorted (fun a b => (priority b < priority a)%Z) sortedRules
  /\ ((exists r,
          In r STAGE_RULES
          /\ evaluateRule r signals = true
          /\ (forall r', In r' STAGE_RULES -> (priority r < priority r')%Z ->
                         evaluateRule r' signals = false)
          /\ mapToStage svc signals = ruleOutcome svc r signals
          /\ newStage (mapToStage svc signals) = stage (result r)
          /\ res_disposition (mapToStage svc signals) = disposition (result r))
      \/ ((forall r, In r STAGE_RULES -> evaluateRule r signals = false)
          /\ mapToStage svc signals = defaultResult
          /\ newStage (mapToStage svc signals) = ST_WORKING
          /\ confidence (mapToStage svc signals) = 0.3%Q
          /\ res_flags (mapToStage svc signals) = ["needs_manual_review"]
          /\ requiresConfirmation (mapToStage svc signals) = true)).
Proof.
  split; [apply sortedRules_perm|]. split; [apply sortedRules_descending|].
  unfold mapToStage.
  destruct (tryRules_first svc signals sortedRules)
    as [(before & r & after & Hsplit & Hb & Hr & Ht) | [Hall Ht]].
  - left. exists r.
    assert (Hin : forall x, In x STAGE_RULES <-> In x sortedRules).
    { intros x. split; apply Permutation_in;
        [symmetry|]; apply sortedRules_perm. }
    split. { apply (proj2 (Hin r)). rewrite Hsplit. apply in_or_app. right. now left. }
    split; [exact Hr|]. split.
    + intros r' Hr' Hlt. apply (proj1 (Hin r')) in Hr'.
      pose proof sortedRules_descending as Hs. rewrite Hsplit in Hs, Hr'.
      pose proof (higher_priority_before _ _ _ _ Hs Hr' Hlt) as Hbefore.
      rewrite List.Forall_forall in Hb. now apply Hb.
    + rewrite Ht. repeat split.
  - right. split.
    + intros r Hr. rewrite List.Forall_forall in Hall. apply Hall.
      eapply Permutation_in; [symmetry; apply sortedRules_perm | exact Hr].
    + rewrite Ht. repeat split.
Qed.

(** C2. Action routing. The decision is one of the three actions. At or
    above the high threshold it is AUTO_UPDATE, or FLAG_FOR_CONFIRMATION
    when auto-update is off; from the medium threshold up to the high one
    it is FLAG_FOR_CONFIRMATION, or NO_ACTION when flagging is off; and,
    the two thresholds being ordered (medium <= high), below the medium
    threshold it is NO_ACTION whatever the two switches say. *)
Theorem getActionDecision_routing (svc : Service) (c : Q) :
  let cfg := config svc in
  let a := action (getActionDecision svc c) in
  (a = AUTO_UPDATE \/ a = FLAG_FOR_CONFIRMATION \/ a = NO_ACTION)
  /\ ((highConfidenceThreshold cfg <= c)%Q ->
      a = if enableAutoUpdate cfg then AUTO_UPDATE else FLAG_FOR_CONFIRMATION)
  /\ ((mediumConfidenceThreshold cfg <= c)%Q -> (c < highConfidenceThreshold cfg)%Q ->
      a = if enableFlagging cfg then FLAG_FOR_CONFIRMATION else NO_ACTION)
  /\ ((mediumConfidenceThreshold cfg <= highConfidenceThreshold cfg)%Q ->
      (c < mediumConfidenceThreshold cfg)%Q -> a = NO_ACTION).
Proof.
  intros cfg a. subst cfg a. unfold getActionDecision.
  destruct (Qgeb c (highConfidenceThreshold (config svc))) eqn:Eh;
    [|destruct (Qgeb c (mediumConfidenceThreshold (config svc))) eqn:Em]; simpl.
  - apply Qgeb_le in Eh. repeat split.
    + destruct (enableAutoUpdate (config svc)); auto.
    + intros _ Hlt. exfalso. exact (Qlt_not_le _ _ Hlt Eh).
    + intros Hord Hlt. exfalso.
      apply (Qlt_not_le _ _ Hlt). eapply Qle_trans; eassumption.
  - apply Qgeb_lt in Eh. apply Qgeb_le in Em. repeat split.
    + destruct (enableFlagging (config svc)); auto.
    + intros Hle. exfalso. exact (Qlt_not_le _ _ Eh Hle).
    + intros _ Hlt. exfalso. exact (Qlt_not_le _ _ Hlt Em).
  - apply Qgeb_lt in Eh. apply Qgeb_lt in Em. repeat split.
    + auto.
    + intros Hle. exfalso. exact (Qlt_not_le _ _ Eh Hle).
    + intros Hle. exfalso. exact (Qlt_not_le _ _ Em Hle).
Qed.

Lemma getActionDecision_routing_witness :
  (mediumConfidenceThreshold (config defaultEngine)
   <= highConfidenceThreshold (config defaultEngine))%Q
  /\ action (getActionDecision defaultEngine 0.9) = AUTO_UPDATE
  /\ action (getActionDecision defaultEngine 0.6) = FLAG_FOR_CONFIRMATION
  /\ action (getActionDecision defaultEngine 0.2) = NO_ACTION.
Proof.
  assert (Hord : (mediumConfidenceThreshold (config defaultEngine)
                  <= highConfidenceThreshold (config defaultEngine))%Q)
    by (vm_compute; discriminate).
  split; [exact Hord|].
  destruct (getActionDecision_routing defaultEngine 0.9) as (_ & H9 & _ & _).
  destruct (getActionDecision_routing defaultEngine 0.6) as (_ & _ & H6 & _).
  destruct (getActionDecision_routing defaultEngine 0.2) as (_ & _ & _ & H2).
  split; [|split].
  - apply H9. vm_compute. discriminate.
  - apply H6; vm_compute; [discriminate | reflexivity].
  - apply H2; [exact Hord | vm_compute; reflexivity].
Defined.

(** Without the ordering of the thresholds the last clause is lost: with
    high = 0.3 and medium = 0.5 a confidence of 0.4 is below the medium
    threshold and is auto-updated. *)
Lemma getActionDecision_misordered_thresholds :
  (0.4 < mediumConfidenceThreshold (config misorderedEngine))%Q
  /\ action (getActionDecision misorderedEngine 0.4) = AUTO_UPDATE.
Proof. split; reflexivity. Qed.

(** The routing as the specification tells it fails on a configuration
    the service accepts: with high = 0.3 and medium = 0.5 the confidence
    0.4 lies below the medium threshold, and the decision is AUTO_UPDATE,
    not NO_ACTION. *)
Lemma routing_contract_fails_when_misordered :
  ~ EngineStatements.routing_contract misorderedEngine 0.4.
Proof.
  unfold EngineStatements.routing_contract. cbv zeta.
  intros (_ & _ & _ & Hlow).
  assert (Hlt : (0.4 < mediumConfidenceThreshold (config misorderedEngine))%Q)
    by reflexivity.
  specialize (Hlow Hlt). vm_compute in Hlow. discriminate.
Qed.

Lemma relevantSignals_none (c : Conditions) (signals : list CallSignal) :
  (forall s, In s signals ->
     includes (requiredSignals c) (sig_type s) = false
     /\ includes (anySignals c) (sig_type s) = false) ->
  relevantSignals c signals = [].
Proof.
  unfold relevantSignals.
  induction signals as [|s signals IH]; simpl; intros H; [reflexivity|].
  destruct (H s (or_introl eq_refl)) as [-> ->].
  apply IH. intros s' Hs'. apply H. now right.
Qed.

(** C7. A rule that carries a [minConfidence] condition, evaluated on
    signals none of which has a type in the rule's [requiredSignals] or
    [anySignals], has no relevant signal to average, and the condition
    does not reject it: the rule evaluates exactly as it would without
    the [minConfidence] condition. *)
Theorem minConfidence_vacuous (r : StageRule) (signals : list CallSignal) (minc : Q) :
  minConfidence (conditions r) = Some minc ->
  (forall s, In s signals ->
     includes (requiredSignals (conditions r)) (sig_type s) = false
     /\ includes (anySignals (conditions r)) (sig_type s) = false) ->
  relevantSignals (conditions r) signals = []
  /\ evaluateRule r signals = evaluateRule (withoutMinConfidence r) signals.
Proof.
  intros Hmin Hnone.
  pose proof (relevantSignals_none _ _ Hnone) as Hrel.
  split; [exact Hrel|].
  unfold evaluateRule, withoutMinConfidence. simpl.
  rewrite Hmin, Hrel. simpl.
  repeat match goal with
         | |- context [if ?b then _ else _] => destruct b
         end; reflexivity.
Qed.

Lemma minConfidence_vacuous_witness :
  minConfidence (conditions exclusionRule) = Some 0.9%Q
  /\ relevantSignals (conditions exclusionRule) unrelatedSignals = []
  /\ evaluateRule exclusionRule unrelatedSignals
     = evaluateRule (withoutMinConfidence exclusionRule) unrelatedSignals
  /\ evaluateRule exclusionRule unrelatedSignals = true.
Proof.
  assert (Hmin : minConfidence (conditions exclusionRule) = Some 0.9%Q)
    by reflexivity.
  assert (Hnone : forall s, In s unrelatedSignals ->
            includes (requiredSignals (conditions exclusionRule)) (sig_type s) = false
            /\ includes (anySignals (conditions exclusionRule)) (sig_type s) = false).
  { intros s [<- | []]. split; reflexivity. }
  destruct (minConfidence_vacuous exclusionRule unrelatedSignals 0.9%Q Hmin Hnone)
    as [Hrel Heq].
  split; [exact Hmin|]. split; [exact Hrel|]. split; [exact Heq|].
  vm_compute. reflexivity.
Defined.

End StageEngineFacts.

(** ** Audit log *)

Section AuditFacts.
Import AuditLog AuditStatements AuditSamples.

Lemma rollbackable_iff (a : AuditAction) :
  rollbackable a = true <-> a = STAGE_CHANGE \/ a = DISPOSITION_SET.
Proof.
  destruct a; vm_compute; split; intros H; auto; try discriminate;
    destruct H as [H | H]; discriminate.
Qed.

(** [addEntry] with an unused id adds one entry and leaves the others. *)
Lemma addEntry_entries (env : Env) (e : AuditEntry) (s : Service) :
  entries (snd (addEntry env e s)) = <[id e := e]> (entries s)
  /\ entriesByCallId (snd (addEntry env e s)) !! callId e
     = Some (default [] (entriesByCallId s !! callId e) ++ [id e]).
Proof.
  unfold addEntry; simpl. split; [reflexivity|]. apply lookup_insert_eq.
Qed.

(** C5, as amended. When rollback is enabled in the configuration,
    [rollback] fails with the not-found result when no entry has the id,
    fails with the cannot-rollback result when the entry's action is
    neither STAGE_CHANGE nor DISPOSITION_SET, and in both cases leaves the
    service as it was; otherwise, the generated id being unused, it adds
    exactly one entry, a ROLLBACK whose previous and new values are the
    original's new and previous values, which refers to the original by
    [rollbackOf], and it returns the original's previous value as the
    value to restore. *)
Theorem rollback_when_enabled (env : Env) (auditId confirmedBy : string) (s : Service) :
  enableRollback (config s) = true ->
  entries s !! uuid env = None ->
  (entries s !! auditId = None ->
     rollback env auditId confirmedBy s = (failure auditId "Audit entry not found", s))
  /\ (forall original,
        entries s !! auditId = Some original ->
        action original <> STAGE_CHANGE -> action original <> DISPOSITION_SET ->
        rollback env auditId confirmedBy s
        = (failure auditId
             ("Cannot rollback action type: " +:+ actionName (action original)), s))
  /\ (forall original,
        entries s !! auditId = Some original ->
        action original = STAGE_CHANGE \/ action original = DISPOSITION_SET ->
        exists res s' rb,
          rollback env auditId confirmedBy s = (res, s')
          /\ success res = true
          /\ AuditLog.auditId res = uuid env
          /\ originalAuditId res = auditId
          /\ restoredValue res = previousValue original
          /\ res_previousValue res = newValue original
          /\ appendsRollback env auditId confirmedBy original rb s s').
Proof.
  intros Hen Hfresh. unfold rollback. rewrite Hen. simpl.
  split; [|split].
  - intros ->. reflexivity.
  - intros original -> Hn1 Hn2.
    destruct (rollbackable (action original)) eqn:E; [|reflexivity].
    apply rollbackable_iff in E. tauto.
  - intros original -> Hact.
    apply rollbackable_iff in Hact. rewrite Hact. simpl.
    eexists _, _, (rollbackEntryFor env auditId confirmedBy original).
    split; [reflexivity|].
    repeat split.
    + simpl. now apply map_size_insert_None.
    + simpl. apply lookup_insert_eq.
Qed.

Lemma rollback_when_enabled_witness :
  enableRollback (config enabledLog) = true
  /\ entries enabledLog !! uuid env2 = None
  /\ exists original res s' rb,
       entries enabledLog !! "e1" = Some original
       /\ action original = STAGE_CHANGE
       /\ previousValue original = Some "WORKING"
       /\ newValue original = Some "QUALIFIED"
       /\ rollback env2 "e1" "ann" enabledLog = (res, s')
       /\ success res = true
       /\ restoredValue res = Some "WORKING"
       /\ appendsRollback env2 "e1" "ann" original rb enabledLog s'.
Proof.
  assert (Hen : enableRollback (config enabledLog) = true) by reflexivity.
  assert (Hfresh : entries enabledLog !! uuid env2 = None) by (vm_compute; reflexivity).
  split; [exact Hen|]. split; [exact Hfresh|].
  destruct (rollback_when_enabled env2 "e1" "ann" enabledLog Hen Hfresh)
    as (_ & _ & Hok).
  set (original := mkEntry "e1" 1000 "call-1" (Some 7%Z) STAGE_CHANGE
                     (Some "WORKING") (Some "QUALIFIED") (Some 0.9%Q) true
                     None None None).
  assert (Hlook : entries enabledLog !! "e1" = Some original)
    by (vm_compute; reflexivity).
  destruct (Hok original Hlook (or_introl eq_refl))
    as (res & s' & rb & Hr & Hs & _ & _ & Hrest & _ & Happ).
  exists original, res, s', rb.
  split; [exact Hlook|]. split; [reflexivity|]. split; [reflexivity|].
  split; [reflexivity|]. split; [exact Hr|]. split; [exact Hs|].
  split; [rewrite Hrest; reflexivity | exact Happ].
Defined.

(** The contract with no mention of the configuration fails on a log
    whose rollback switch is off: the STAGE_CHANGE entry ["e1"] exists and
    is eligible, and nothing is appended. *)
Lemma rollback_contract_fails_when_disabled :
  ~ rollback_contract env2 "e1" "ann" disabledLog.
Proof.
  unfold rollback_contract.
  assert (Hlook : entries disabledLog !! "e1"
                  = Some (mkEntry "e1" 1000 "call-1" (Some 7%Z) STAGE_CHANGE
                            (Some "WORKING") (Some "QUALIFIED") (Some 0.9%Q) true
                            None None None))
    by (vm_compute; reflexivity).
  rewrite Hlook. simpl. intros (Hs & _). vm_compute in Hs. discriminate.
Qed.

(** C10. With [enableRollback = false], [rollback] returns the failure
    result for every id, whatever the entry's action, and returns the
    service unchanged: the entries and both indexes are as before. *)
Theorem rollback_disabled (env : Env) (auditId confirmedBy : string) (s : Service) :
  enableRollback (config s) = false ->
  let res := fst (rollback env auditId confirmedBy s) in
  let s' := snd (rollback env auditId confirmedBy s) in
  success res = false
  /\ message res = "Rollback is disabled in configuration"
  /\ s' = s
  /\ entries s' = entries s
  /\ entriesByCallId s' = entriesByCallId s
  /\ entriesByProspectId s' = entriesByProspectId s.
Proof.
  intros Hdis. unfold rollback. rewrite Hdis. simpl. repeat split.
Qed.

Lemma rollback_disabled_witness :
  enableRollback (config disabledLog) = false
  /\ (exists original,
        entries disabledLog !! "e1" = Some original
        /\ action original = STAGE_CHANGE)
  /\ success (fst (rollback env2 "e1" "ann" disabledLog)) = false
  /\ snd (rollback env2 "e1" "ann" disabledLog) = disabledLog.
Proof.
  assert (Hdis : enableRollback (config disabledLog) = false) by reflexivity.
  split; [exact Hdis|]. split.
  - eexists. split; [vm_compute; reflexivity | reflexivity].
  - destruct (rollback_disabled env2 "e1" "ann" disabledLog Hdis)
      as (Hs & _ & Hsame & _).
    split; [exact Hs | exact Hsame].
Defined.

End AuditFacts.

(** ** Alert service *)

Section AlertFacts.
Import Stall Alerts AlertStatements AlertSamples.

#[local] Open Scope Q_scope.

Lemma hoursOfMs_mono (a b : Z) : (a <= b)%Z -> hoursOfMs a <= hoursOfMs b.
Proof.
  intros H. unfold hoursOfMs, Qdiv.
  apply Qmult_le_compat_r.
  - rewrite <- Zle_Qle. exact H.
  - vm_compute. discriminate.
Qed.

Lemma recentUnackedAt_true (s : Service) (t : Z) (i : string) :
  recentUnackedAt s t i = true <->
  exists a, alerts s !! i = Some a
            /\ acknowledged a = false
            /\ hoursOfMs (t - createdAt a) < alertWithinHours (config s).
Proof.
  unfold recentUnackedAt. destruct (alerts s !! i) as [a|].
  - rewrite andb_true_iff, negb_true_iff, Qltb_lt. split.
    + intros [Ha Hh]. now exists a.
    + intros (a' & Heq & Ha & Hh). inversion Heq; subst. now split.
  - split; [discriminate | intros (a & Heq & _); discriminate].
Qed.

(** As time goes by an alert can only leave the window. *)
Lemma recentUnackedAt_earlier (s : Service) (t t' : Z) (i : string) :
  (t <= t')%Z -> recentUnackedAt s t' i = true -> recentUnackedAt s t i = true.
Proof.
  intros Hle. rewrite !recentUnackedAt_true.
  intros (a & Hl & Ha & Hh). exists a. repeat split; auto.
  eapply Qle_lt_trans; [|exact Hh]. apply hoursOfMs_mono. lia.
Qed.

Lemma recentUnackedAt_shrinks (s s' : Service) (t : Z) (i : string) :
  shrinks s s' -> recentUnackedAt s' t i = true -> recentUnackedAt s t i = true.
Proof.
  intros (Hc & Ha & _). rewrite !recentUnackedAt_true.
  intros (a & Hl & Hack & Hh). exists a. rewrite <- Hc. auto.
Qed.

Lemma shrinks_refl (s : Service) : shrinks s s.
Proof. repeat split; auto. intros d ids H. now exists ids. Qed.

Lemma shrinks_trans (s1 s2 s3 : Service) :
  shrinks s1 s2 -> shrinks s2 s3 -> shrinks s1 s3.
Proof.
  intros (Hc & Ha & Hi) (Hc' & Ha' & Hi'). repeat split.
  - congruence.
  - auto.
  - intros d ids3 H3. destruct (Hi' _ _ H3) as (ids2 & H2 & Hsub2).
    destruct (Hi _ _ H2) as (ids1 & H1 & Hsub1). exists ids1. auto.
Qed.

Lemma shrinks_atMostOneActive (s s' : Service) (t : Z) :
  shrinks s s' -> atMostOneActive s t -> atMostOneActive s' t.
Proof.
  intros Hsh Hu d ids' i j Hd Hi Hj Hri Hrj.
  destruct Hsh as (Hc & Ha & Hidx).
  destruct (Hidx _ _ Hd) as (ids & Hd0 & Hsub).
  apply (Hu d ids i j Hd0); auto;
    eapply recentUnackedAt_shrinks; eauto; repeat split; eauto.
Qed.

Lemma shrinks_indexUsed (s s' : Service) (used : gset string) :
  shrinks s s' -> indexUsed s used -> indexUsed s' used.
Proof.
  intros (_ & _ & Hidx) Hf d ids' i Hd Hi.
  destruct (Hidx _ _ Hd) as (ids & Hd0 & Hsub). eapply Hf; eauto.
Qed.

Lemma cleanupStep_shrinks (t : Z) (e : string * StallAlert) (n : nat) (s : Service) :
  shrinks s (snd (cleanupStep t e (n, s))).
Proof.
  destruct e as [alertId alert]. unfold cleanupStep.
  destruct (expiresAt alert <? t)%Z; [|apply shrinks_refl].
  simpl. repeat split; simpl.
  - intros i a H. apply lookup_delete_Some in H. tauto.
  - intros d ids' H.
    destruct (alertsByDeal s !! al_dealId alert) as [dealAlerts|] eqn:E;
      [|now exists ids'].
    destruct (0 <? length _)%nat.
    + destruct (decide (al_dealId alert = d)) as [<-|Hne].
      * rewrite lookup_insert_eq in H. inversion H; subst.
        exists dealAlerts. split; [exact E|].
        intros i Hi. apply filter_In in Hi. tauto.
      * rewrite lookup_insert_ne in H by exact Hne. now exists ids'.
    + apply lookup_delete_Some in H. destruct H as [_ H]. now exists ids'.
Qed.

Lemma cleanupExpiredAlerts_shrinks (t : Z) (s : Service) :
  shrinks s (snd (cleanupExpiredAlerts t s)).
Proof.
  unfold cleanupExpiredAlerts.
  induction (map_to_list (alerts s)) as [|e l IH]; simpl.
  - apply shrinks_refl.
  - destruct (foldr (cleanupStep t) (0%nat, s) l) as [n s1] eqn:E.
    simpl in IH. eapply shrinks_trans; [exact IH|]. apply cleanupStep_shrinks.
Qed.

Lemma clearAll_shrinks (s : Service) : shrinks s (clearAll s).
Proof.
  repeat split; simpl.
  - intros i a H. rewrite lookup_empty in H. discriminate.
  - intros d ids H. rewrite lookup_empty in H. discriminate.
Qed.

(** What [generateAlert] does to the store when it does generate. *)
Lemma generateAlert_cases (env : Env) (status : StallStatus) (s : Service) :
  generateAlert env status s = (None, s)
  \/ (isStalled status = true
      /\ existsb (recentUnackedAt s (now env))
                 (default [] (alertsByDeal s !! dealId status)) = false
      /\ exists alert s',
           generateAlert env status s = (Some alert, s')
           /\ al_id alert = uuid env
           /\ al_dealId alert = dealId status
           /\ acknowledged alert = false
           /\ createdAt alert = now env
           /\ stallStatus alert = status
           /\ config s' = config s
           /\ alerts s' = <[uuid env := alert]> (alerts s)
           /\ alertsByDeal s'
              = <[dealId status :=
                    default [] (alertsByDeal s !! dealId status) ++ [uuid env]]>
                  (alertsByDeal s)).
Proof.
  unfold generateAlert.
  destruct (isStalled status); simpl; [|now left].
  destruct (existsb _ _) eqn:E; [now left|].
  right. split; [reflexivity|]. split; [reflexivity|].
  eexists _, _. split; [reflexivity|]. repeat split.
Qed.

Lemma generateAlert_invariant (env : Env) (status : StallStatus) (s : Service)
    (used : gset string) :
  uuid env ∉ used ->
  atMostOneActive s (now env) -> indexUsed s used ->
  atMostOneActive (snd (generateAlert env status s)) (now env)
  /\ indexUsed (snd (generateAlert env status s)) ({[uuid env]} ∪ used)
  /\ config (snd (generateAlert env status s)) = config s.
Proof.
  intros Hfresh Hu Hf.
  destruct (generateAlert_cases env status s)
    as [-> | (_ & Hnone & alert & s' & -> & Hid & _ & _ & _ & _ & Hc & Ha & Hi)];
    simpl.
  { repeat split; auto. intros d ids i Hd Hin. apply elem_of_union_r. eauto. }
  assert (Hrecent : forall i, i <> uuid env ->
            recentUnackedAt s' (now env) i = recentUnackedAt s (now env) i).
  { intros i Hne. unfold recentUnackedAt. rewrite Hc, Ha.
    now rewrite lookup_insert_ne by congruence. }
  assert (Hold : forall i, In i (default [] (alertsByDeal s !! dealId status)) ->
            recentUnackedAt s (now env) i = false).
  { intros i Hin. destruct (recentUnackedAt s (now env) i) eqn:E; [|reflexivity].
    assert (existsb (recentUnackedAt s (now env))
              (default [] (alertsByDeal s !! dealId status)) = true)
      by (apply existsb_exists; eauto).
    congruence. }
  split; [|split; [|exact Hc]].
  - intros d ids i j Hd Hini Hinj Hri Hrj. rewrite Hi in Hd.
    destruct (decide (dealId status = d)) as [<-|Hne].
    + rewrite lookup_insert_eq in Hd. inversion Hd; subst ids. clear Hd.
      assert (Hnew : forall k,
                In k (default [] (alertsByDeal s !! dealId status) ++ [uuid env]) ->
                recentUnackedAt s' (now env) k = true -> k = uuid env).
      { intros k Hk Hrk. destruct (decide (k = uuid env)) as [|Hne]; [assumption|].
        apply in_app_or in Hk. destruct Hk as [Hk | [Hk | []]]; [|congruence].
        rewrite Hrecent in Hrk by exact Hne. rewrite (Hold _ Hk) in Hrk.
        discriminate. }
      rewrite (Hnew i), (Hnew j); auto.
    + rewrite lookup_insert_ne in Hd by exact Hne.
      assert (Hni : i <> uuid env) by (intros ->; apply Hfresh; eapply Hf; eauto).
      assert (Hnj : j <> uuid env) by (intros ->; apply Hfresh; eapply Hf; eauto).
      rewrite Hrecent in Hri, Hrj by assumption. eapply Hu; eauto.
  - intros d ids i Hd Hin. rewrite Hi in Hd.
    destruct (decide (dealId status = d)) as [<-|Hne].
    + rewrite lookup_insert_eq in Hd. inversion Hd; subst ids. clear Hd.
      apply in_app_or in Hin. destruct Hin as [Hin | [<- | []]].
      * apply elem_of_union_r.
        destruct (alertsByDeal s !! dealId status) as [old|] eqn:E;
          [eapply Hf; eauto | destruct Hin].
      * apply elem_of_union_l. now apply elem_of_singleton.
    + rewrite lookup_insert_ne in Hd by exact Hne.
      apply elem_of_union_r. eauto.
Qed.

Lemma acknowledgeAlert_recent (t t' : Z) (alertId by_ : string) (s : Service) (i : string) :
  recentUnackedAt (snd (acknowledgeAlert t alertId by_ s)) t' i = true ->
  i <> alertId /\ recentUnackedAt s t' i = true.
Proof.
  unfold acknowledgeAlert.
  destruct (alerts s !! alertId) as [a|] eqn:E; simpl.
  - unfold recentUnackedAt at 1. simpl.
    destruct (decide (alertId = i)) as [<-|Hne].
    + rewrite lookup_insert_eq. simpl. discriminate.
    + rewrite lookup_insert_ne by exact Hne. intros H. split; [congruence|].
      exact H.
  - intros H. split; [|exact H]. intros ->.
    unfold recentUnackedAt in H. rewrite E in H. discriminate.
Qed.

Lemma acknowledgeAlert_index (t : Z) (alertId by_ : string) (s : Service) :
  alertsByDeal (snd (acknowledgeAlert t alertId by_ s)) = alertsByDeal s
  /\ config (snd (acknowledgeAlert t alertId by_ s)) = config s.
Proof. unfold acknowledgeAlert. destruct (alerts s !! alertId); split; reflexivity. Qed.

Lemma deliverAlert_recent (t t' : Z) (alertId : string) (s : Service) (i : string) :
  recentUnackedAt (snd (deliverAlert t alertId s)) t' i = recentUnackedAt s t' i.
Proof.
  unfold deliverAlert.
  destruct (alerts s !! alertId) as [a|] eqn:E; [|reflexivity].
  destruct (acknowledged a) eqn:Ea; [reflexivity|]. simpl.
  unfold recentUnackedAt. simpl.
  destruct (decide (alertId = i)) as [<-|Hne].
  - rewrite lookup_insert_eq, E. simpl. reflexivity.
  - now rewrite lookup_insert_ne by exact Hne.
Qed.

Lemma deliverAlert_index (t : Z) (alertId : string) (s : Service) :
  alertsByDeal (snd (deliverAlert t alertId s)) = alertsByDeal s
  /\ config (snd (deliverAlert t alertId s)) = config s.
Proof.
  unfold deliverAlert. destruct (alerts s !! alertId) as [a|]; [|split; reflexivity].
  destruct (acknowledged a); split; reflexivity.
Qed.

(** The invariant of the alert store: in every reachable state each deal
    has at most one active alert. *)
Lemma reachable_invariant (cfg : AlertServiceConfig) (t : Z) (used : gset string)
    (s : Service) :
  reachable cfg t used s ->
  config s = cfg /\ atMostOneActive s t /\ indexUsed s used.
Proof.
  induction 1 as [t | t t' used s _ (Hc & Hu & Hf) Hle
                  | t used s env status _ (Hc & Hu & Hf) Hnow Hfresh
                  | t used s alertId by_ _ (Hc & Hu & Hf)
                  | t used s alertId _ (Hc & Hu & Hf)
                  | t used s _ (Hc & Hu & Hf)
                  | t used s _ (Hc & Hu & Hf)].
  - split; [reflexivity|]. split.
    + intros d ids i j Hd. simpl in Hd. rewrite lookup_empty in Hd. discriminate.
    + intros d ids i Hd. simpl in Hd. rewrite lookup_empty in Hd. discriminate.
  - split; [exact Hc|]. split; [|exact Hf].
    intros d ids i j Hd Hi Hj Hri Hrj.
    apply (Hu d ids i j); auto; eapply recentUnackedAt_earlier; eauto.
  - subst t.
    destruct (generateAlert_invariant env status s used Hfresh Hu Hf) as (Hu' & Hf' & Hc').
    split; [congruence|]. split; assumption.
  - destruct (acknowledgeAlert_index t alertId by_ s) as [Hi Hc'].
    split; [congruence|]. split.
    + intros d ids i j Hd Hini Hinj Hri Hrj. rewrite Hi in Hd.
      apply acknowledgeAlert_recent in Hri as [_ Hri].
      apply acknowledgeAlert_recent in Hrj as [_ Hrj].
      eapply Hu; eauto.
    + intros d ids i Hd. rewrite Hi in Hd. eauto.
  - destruct (deliverAlert_index t alertId s) as [Hi Hc'].
    split; [congruence|]. split.
    + intros d ids i j Hd Hini Hinj Hri Hrj. rewrite Hi in Hd.
      rewrite deliverAlert_recent in Hri, Hrj. eapply Hu; eauto.
    + intros d ids i Hd. rewrite Hi in Hd. eauto.
  - pose proof (cleanupExpiredAlerts_shrinks t s) as Hsh.
    split; [destruct Hsh as [Hc' _]; congruence|]. split.
    + eapply shrinks_atMostOneActive; eauto.
    + eapply shrinks_indexUsed; eauto.
  - pose proof (clearAll_shrinks s) as Hsh.
    split; [exact Hc|]. split.
    + eapply shrinks_atMostOneActive; eauto.
    + eapply shrinks_indexUsed; eauto.
Qed.

Lemma default_alert_window : alertWithinHours DEFAULT_CONFIG = 24.
Proof. reflexivity. Qed.

Lemma activeAlert_recent (s : Service) (t : Z) (deal i : string) :
  activeAlert s t deal i ->
  exists ids, alertsByDeal s !! deal = Some ids /\ In i ids
              /\ recentUnackedAt s t i = true.
Proof.
  intros (ids & a & Hd & Hin & Ha & Hack & Hh). exists ids.
  repeat split; auto. apply recentUnackedAt_true. now exists a.
Qed.

(** C6. [generateAlert] returns no alert for a status that is not
    stalled. It returns no alert and leaves the store as it is when the
    deal has an active alert: one that is unacknowledged and was created
    within the alert window. In a reachable state that alert is the deal's
    only active one, so once it has been acknowledged a call for a stalled
    status of the same deal, at that moment or later, creates an alert,
    stores it under the new id and lists it for the deal. *)
Theorem generateAlert_at_most_one_active
    (cfg : AlertServiceConfig) (used : gset string) (s : Service)
    (env : Env) (status : StallStatus) :
  (isStalled status = false -> generateAlert env status s = (None, s))
  /\ (forall alertId,
        activeAlert s (now env) (dealId status) alertId ->
        generateAlert env status s = (None, s))
  /\ (reachable cfg (now env) used s ->
      isStalled status = true ->
      forall alertId tAck acknowledgedBy env',
        activeAlert s (now env) (dealId status) alertId ->
        (now env <= now env')%Z ->
        let s1 := snd (acknowledgeAlert tAck alertId acknowledgedBy s) in
        exists alert s2,
          generateAlert env' status s1 = (Some alert, s2)
          /\ al_id alert = uuid env'
          /\ al_dealId alert = dealId status
          /\ acknowledged alert = false
          /\ createdAt alert = now env'
          /\ alerts s2 !! uuid env' = Some alert
          /\ exists ids, alertsByDeal s2 !! dealId status = Some ids
                         /\ In (uuid env') ids).
Proof.
  split; [|split].
  - intros Hns. unfold generateAlert. now rewrite Hns.
  - intros alertId Hact.
    destruct (activeAlert_recent _ _ _ _ Hact) as (ids & Hd & Hin & Hr).
    unfold generateAlert. destruct (isStalled status); simpl; [|reflexivity].
    rewrite Hd. simpl.
    assert (existsb (recentUnackedAt s (now env)) ids = true) as ->
      by (apply existsb_exists; eauto).
    reflexivity.
  - intros Hreach Hst alertId tAck by_ env' Hact Hle s1.
    destruct (reachable_invariant _ _ _ _ Hreach) as (_ & Hu & _).
    destruct (activeAlert_recent _ _ _ _ Hact) as (ids & Hd & Hin & Hr).
    destruct (acknowledgeAlert_index tAck alertId by_ s) as [Hi1 _].
    fold s1 in Hi1.
    destruct (generateAlert_cases env' status s1)
      as [Hnone | (_ & _ & alert & s2 & Hg & Hid & Hdeal & Hack & Hcr & _ & _ & Ha & Hi)].
    + exfalso. unfold generateAlert in Hnone. rewrite Hst in Hnone. simpl in Hnone.
      rewrite Hi1, Hd in Hnone. simpl in Hnone.
      destruct (existsb (recentUnackedAt s1 (now env')) ids) eqn:E;
        [|discriminate].
      apply existsb_exists in E as (j & Hj & Hrj).
      apply acknowledgeAlert_recent in Hrj as [Hne Hrj].
      apply (recentUnackedAt_earlier _ _ _ _ Hle) in Hrj.
      apply Hne. exact (Hu _ _ _ _ Hd Hj Hin Hrj Hr).
    + exists alert, s2. repeat split; auto.
      * rewrite Ha. apply lookup_insert_eq.
      * rewrite Hi. eexists. split; [apply lookup_insert_eq|].
        apply in_or_app. right. now left.
Qed.

Lemma generateAlert_at_most_one_active_witness :
  reachable DEFAULT_CONFIG (now envB) ({[uuid envA]} ∪ ∅) oneAlert
  /\ isStalled stalledStatus = true
  /\ activeAlert oneAlert (now envB) (dealId stalledStatus) "a1"
  /\ generateAlert envB stalledStatus oneAlert = (None, oneAlert)
  /\ exists alert s2,
       generateAlert envB stalledStatus
         (snd (acknowledgeAlert (now envB) "a1" "rita" oneAlert))
       = (Some alert, s2)
       /\ al_id alert = "a2"
       /\ alerts s2 !! "a2" = Some alert.
Proof.
  assert (Hreach : reachable DEFAULT_CONFIG (now envB) ({[uuid envA]} ∪ ∅) oneAlert).
  { apply (reach_later _ (now envA)); [|vm_compute; discriminate].
    apply reach_generate; [apply reach_new | reflexivity | apply not_elem_of_empty]. }
  assert (Hact : activeAlert oneAlert (now envB) (dealId stalledStatus) "a1").
  { unfold activeAlert. eexists _, _.
    split; [vm_compute; reflexivity|]. split; [now left|].
    split; [vm_compute; reflexivity|]. split; reflexivity. }
  destruct (generateAlert_at_most_one_active DEFAULT_CONFIG ({[uuid envA]} ∪ ∅)
              oneAlert envB stalledStatus) as (_ & Hsup & Hnext).
  split; [exact Hreach|]. split; [reflexivity|]. split; [exact Hact|].
  split; [exact (Hsup "a1" Hact)|].
  destruct (Hnext Hreach eq_refl "a1" (now envB) "rita" envB Hact (Z.le_refl _))
    as (alert & s2 & Hg & Hid & _ & _ & _ & Hstored & _).
  exists alert, s2. split; [exact Hg|]. split; [exact Hid | exact Hstored].
Defined.

End AlertFacts.

(** ** Stall detector: scoring *)

Section ScoringFacts.
Import Stall StallDetector StallStatements StallSamples.

#[local] Open Scope R_scope.

Lemma half_pos : 0 < 1 / 2.
Proof. lra. Qed.

Lemma ln_half_neg : ln (1 / 2) < 0.
Proof.
  rewrite <- ln_1. apply ln_increasing; lra.
Qed.

(** [0.5 ^ x] does not grow with [x]. *)
Lemma Rpower_half_antitone (x y : R) : x <= y -> Rpower (1 / 2) y <= Rpower (1 / 2) x.
Proof.
  intros Hxy. unfold Rpower.
  destruct (Rle_lt_or_eq_dec _ _ Hxy) as [Hlt | ->]; [|lra].
  left. apply exp_increasing.
  pose proof ln_half_neg. nra.
Qed.

Lemma Rpower_half_pos (x : R) : 0 < Rpower (1 / 2) x.
Proof. unfold Rpower. apply exp_pos. Qed.

Lemma hoursBetween_same (t : Z) : hoursBetween t t = 0.
Proof. unfold hoursBetween. rewrite Z.sub_diag. simpl. lra. Qed.

Lemma hoursBetween_mono (now now' date : Z) :
  (now <= now')%Z -> hoursBetween now date <= hoursBetween now' date.
Proof.
  intros H. unfold hoursBetween.
  assert (IZR (now - date) <= IZR (now' - date)) by (apply IZR_le; lia).
  assert (0 < IZR (1000 * 60 * 60)) by (apply IZR_lt; reflexivity).
  unfold Rdiv. apply Rmult_le_compat_r; [|assumption].
  left. now apply Rinv_0_lt_compat.
Qed.

Lemma hoursBetween_antitone (now date date' : Z) :
  (date <= date')%Z -> hoursBetween now date' <= hoursBetween now date.
Proof.
  intros H. unfold hoursBetween.
  assert (IZR (now - date') <= IZR (now - date)) by (apply IZR_le; lia).
  assert (0 < IZR (1000 * 60 * 60)) by (apply IZR_lt; reflexivity).
  unfold Rdiv. apply Rmult_le_compat_r; [|assumption].
  left. now apply Rinv_0_lt_compat.
Qed.

(** C3. The decayed confidence is [base * 0.5 ^ (age / halfLife)], [age]
    being the hours between the signal's date and now. For a positive
    half-life: at age 0 it is [base]; at an age equal to the half-life it
    is [base / 2]; and for a base that is not negative it does not grow
    as the age grows. *)
Theorem calculateTimeDecayedConfidence_half_life
    (cfg : StallDetectorConfig) (base : R) (date now : Z) :
  0 < timeDecayHalfLifeHours cfg ->
  calculateTimeDecayedConfidence cfg now base date
  = base * Rpower (1 / 2) (hoursBetween now date / timeDecayHalfLifeHours cfg)
  /\ calculateTimeDecayedConfidence cfg date base date = base
  /\ (hoursBetween now date = timeDecayHalfLifeHours cfg ->
      calculateTimeDecayedConfidence cfg now base date = base / 2)
  /\ (0 <= base ->
      forall now' date',
        hoursBetween now date <= hoursBetween now' date' ->
        calculateTimeDecayedConfidence cfg now' base date'
        <= calculateTimeDecayedConfidence cfg now base date).
Proof.
  intros Hpos. unfold calculateTimeDecayedConfidence.
  split; [reflexivity|]. split; [|split].
  - rewrite hoursBetween_same.
    replace (0 / timeDecayHalfLifeHours cfg) with 0 by (unfold Rdiv; ring).
    rewrite Rpower_O by apply half_pos. lra.
  - intros ->.
    replace (timeDecayHalfLifeHours cfg / timeDecayHalfLifeHours cfg) with 1
      by (field; lra).
    rewrite Rpower_1 by apply half_pos. lra.
  - intros Hbase now' date' Hage.
    apply Rmult_le_compat_l; [exact Hbase|].
    apply Rpower_half_antitone.
    unfold Rdiv. apply Rmult_le_compat_r; [|exact Hage].
    left. now apply Rinv_0_lt_compat.
Qed.

Lemma calculateTimeDecayedConfidence_half_life_witness :
  0 < timeDecayHalfLifeHours DEFAULT_CONFIG
  /\ hoursBetween 172800000 0 = timeDecayHalfLifeHours DEFAULT_CONFIG
  /\ calculateTimeDecayedConfidence DEFAULT_CONFIG 0 (7 / 10) 0 = 7 / 10
  /\ calculateTimeDecayedConfidence DEFAULT_CONFIG 172800000 (7 / 10) 0 = 7 / 10 / 2
  /\ calculateTimeDecayedConfidence DEFAULT_CONFIG 172800000 (7 / 10) 0
     <= calculateTimeDecayedConfidence DEFAULT_CONFIG 0 (7 / 10) 0.
Proof.
  assert (Hpos : 0 < timeDecayHalfLifeHours DEFAULT_CONFIG)
    by (unfold DEFAULT_CONFIG; cbn [timeDecayHalfLifeHours]; lra).
  assert (Hage : hoursBetween 172800000 0 = timeDecayHalfLifeHours DEFAULT_CONFIG).
  { unfold hoursBetween, DEFAULT_CONFIG. cbn [timeDecayHalfLifeHours].
    change (172800000 - 0)%Z with 172800000%Z.
    change (1000 * 60 * 60)%Z with 3600000%Z. lra. }
  destruct (calculateTimeDecayedConfidence_half_life DEFAULT_CONFIG (7 / 10) 0 0 Hpos)
    as (_ & H0 & _ & Hmono).
  destruct (calculateTimeDecayedConfidence_half_life DEFAULT_CONFIG (7 / 10) 0
              172800000 Hpos) as (_ & _ & Hhalf & _).
  split; [exact Hpos|]. split; [exact Hage|]. split; [exact H0|].
  split; [exact (Hhalf Hage)|].
  apply Hmono; [lra|]. rewrite hoursBetween_same, Hage.
  unfold DEFAULT_CONFIG. cbn [timeDecayHalfLifeHours]. lra.
Defined.

(** The decay law for every half-life fails on a configuration the
    service accepts: with a half-life of minus 48 hours a signal of base
    confidence 0.7 counts 0.7 at age 0 and 1.4 at an age of 48 hours. *)
Lemma decay_contract_fails_for_negative_half_life :
  ~ decay_contract negativeHalfLife (7 / 10).
Proof.
  intros (_ & _ & _ & Hmono).
  specialize (Hmono 0%Z 0%Z 172800000%Z 0%Z).
  assert (H0 : hoursBetween 0 0 = 0) by apply hoursBetween_same.
  assert (H48 : hoursBetween 172800000 0 = 48).
  { unfold hoursBetween. change (172800000 - 0)%Z with 172800000%Z.
    change (1000 * 60 * 60)%Z with 3600000%Z. lra. }
  unfold calculateTimeDecayedConfidence, negativeHalfLife in Hmono.
  cbn [timeDecayHalfLifeHours] in Hmono. rewrite H0, H48 in Hmono.
  replace (0 / -48) with 0 in Hmono by lra.
  replace (48 / -48) with (- (1)) in Hmono by lra.
  rewrite Rpower_O, Rpower_Ropp, Rpower_1 in Hmono by apply half_pos.
  assert (Hinv : / (1 / 2) = 2) by (field; lra).
  rewrite Hinv in Hmono. lra.
Qed.

(** *** The stall score *)

Lemma recencyBonus_cases (h : R) :
  (h < 24 -> recencyBonus h = 10)
  /\ (24 <= h -> h < 48 -> recencyBonus h = 5)
  /\ (48 <= h -> recencyBonus h = 0).
Proof.
  unfold recencyBonus.
  destruct (Rlt_dec h 24); destruct (Rlt_dec h 48); repeat split; intros; lra.
Qed.

Lemma recencyBonus_bounds (h : R) : 0 <= recencyBonus h <= 10.
Proof.
  unfold recencyBonus. destruct (Rlt_dec h 24); destruct (Rlt_dec h 48); lra.
Qed.

Lemma recencyBonus_antitone (h h' : R) : h <= h' -> recencyBonus h' <= recencyBonus h.
Proof.
  intros H. unfold recencyBonus.
  destruct (Rlt_dec h 24); destruct (Rlt_dec h 48);
    destruct (Rlt_dec h' 24); destruct (Rlt_dec h' 48); lra.
Qed.

Lemma totalScore_sum (signals : list StallSignal) (a : R) :
  fold_left (fun sum signal => sum + timeDecayedConfidence signal * 30) signals a
  = a + decayedSum signals.
Proof.
  revert a. induction signals as [|s signals IH]; intros a; simpl.
  - lra.
  - rewrite IH. lra.
Qed.

Lemma decayedSum_app (l1 l2 : list StallSignal) :
  decayedSum (l1 ++ l2) = decayedSum l1 + decayedSum l2.
Proof.
  induction l1 as [|s l1 IH]; simpl; [lra|]. rewrite IH. lra.
Qed.

Lemma decayedSum_nonneg (l : list StallSignal) :
  Forall (fun s => 0 <= timeDecayedConfidence s) l -> 0 <= decayedSum l.
Proof.
  induction 1 as [|s l Hs _ IH]; simpl; lra.
Qed.

(** The reduction picks a signal and none of the others is more recent. *)
Lemma latestOf_mostRecent (rest : list StallSignal) (first : StallSignal) :
  mostRecent (first :: rest) (latestOf first rest)
  /\ (sourceTimestamp first <= sourceTimestamp (latestOf first rest))%Z.
Proof.
  unfold latestOf, mostRecent.
  revert first. induction rest as [|s rest IH]; intros first; simpl.
  - split; [|lia]. split; [now left|]. intros s [<- | []]. lia.
  - destruct (Z.ltb_spec (sourceTimestamp first) (sourceTimestamp s)) as [Hlt | Hge].
    + destruct (IH s) as [[Hin Hmax] Hfirst]. split; [|lia]. split.
      * destruct Hin as [<- | Hin]; [right; now left | right; now right].
      * intros x [<- | [<- | Hx]].
        -- lia.
        -- exact Hfirst.
        -- apply Hmax. now right.
    + destruct (IH first) as [[Hin Hmax] Hfirst]. split; [|exact Hfirst]. split.
      * destruct Hin as [<- | Hin]; [now left | right; now right].
      * intros x [<- | [<- | Hx]].
        -- exact Hfirst.
        -- lia.
        -- apply Hmax. now right.
Qed.

Lemma latestOf_app (first : StallSignal) (rest extra : list StallSignal) :
  latestOf first (rest ++ extra) = latestOf (latestOf first rest) extra.
Proof. unfold latestOf. apply fold_left_app. Qed.

Lemma calculateStallScore_cons (now : Z) (s : StallSignal) (rest : list StallSignal) :
  calculateStallScore now (s :: rest)
  = Rmin 100 (decayedSum (s :: rest)
              + recencyBonus (hoursBetween now (sourceTimestamp (latestOf s rest)))).
Proof.
  unfold calculateStallScore. rewrite totalScore_sum. f_equal. lra.
Qed.

(** C4. The stall score of no signal is 0. That of a non-empty list is the
    sum over the signals of [timeDecayedConfidence * 30] plus the recency
    bonus of a most recent signal (10 under 24 hours old, 5 under 48, else
    0), capped at 100. It never exceeds 100 and, confidences not being
    negative, is never below 0. Adding signals whose confidence is not
    negative (in particular positive) never lowers it. *)
Theorem calculateStallScore_sum_bonus_capped (now : Z) (signals : list StallSignal) :
  calculateStallScore now [] = 0
  /\ (signals <> [] ->
      exists latest,
        mostRecent signals latest
        /\ calculateStallScore now signals
           = Rmin 100 (decayedSum signals
                       + recencyBonus (hoursBetween now (sourceTimestamp latest))))
  /\ (forall h, (h < 24 -> recencyBonus h = 10)
                /\ (24 <= h -> h < 48 -> recencyBonus h = 5)
                /\ (48 <= h -> recencyBonus h = 0))
  /\ calculateStallScore now signals <= 100
  /\ (Forall (fun s => 0 <= timeDecayedConfidence s) signals ->
      0 <= calculateStallScore now signals)
  /\ (forall extra,
        Forall (fun s => 0 <= timeDecayedConfidence s) extra ->
        calculateStallScore now signals <= calculateStallScore now (signals ++ extra)).
Proof.
  split; [reflexivity|]. split; [|split; [apply recencyBonus_cases|]].
  { destruct signals as [|s rest]; [congruence|]. intros _.
    exists (latestOf s rest). split; [apply latestOf_mostRecent|].
    apply calculateStallScore_cons. }
  assert (Hnonneg : forall l,
            Forall (fun s => 0 <= timeDecayedConfidence s) l ->
            0 <= calculateStallScore now l).
  { intros [|s rest] Hl; [simpl; lra|].
    rewrite calculateStallScore_cons.
    pose proof (decayedSum_nonneg _ Hl).
    pose proof (recencyBonus_bounds
                  (hoursBetween now (sourceTimestamp (latestOf s rest)))).
    apply Rmin_glb; lra. }
  split; [|split; [apply Hnonneg|]].
  - destruct signals as [|s rest]; [simpl; lra|].
    rewrite calculateStallScore_cons. apply Rmin_l.
  - intros extra Hextra. destruct signals as [|s rest].
    + simpl app. change (calculateStallScore now []) with 0. now apply Hnonneg.
    + simpl app. rewrite !calculateStallScore_cons.
      apply Rle_min_compat_l.
      change (s :: rest ++ extra) with ((s :: rest) ++ extra).
      rewrite decayedSum_app, latestOf_app.
      pose proof (decayedSum_nonneg _ Hextra).
      destruct (latestOf_mostRecent extra (latestOf s rest)) as [_ Hts].
      pose proof (recencyBonus_antitone _ _
                    (hoursBetween_antitone now _ _ Hts)).
      lra.
Qed.

Lemma calculateStallScore_sum_bonus_capped_witness :
  [older] <> []
  /\ Forall (fun s => 0 <= timeDecayedConfidence s) [older]
  /\ Forall (fun s => 0 <= timeDecayedConfidence s) [newer]
  /\ calculateStallScore sampleNow [older] = 20
  /\ 0 <= calculateStallScore sampleNow [older] <= 100
  /\ calculateStallScore sampleNow [older] <= calculateStallScore sampleNow [older; newer].
Proof.
  assert (Hne : [older] <> []) by discriminate.
  assert (Ho : Forall (fun s => 0 <= timeDecayedConfidence s) [older])
    by (repeat constructor; unfold older, signalAt; cbn [timeDecayedConfidence]; lra).
  assert (Hn : Forall (fun s => 0 <= timeDecayedConfidence s) [newer])
    by (repeat constructor; unfold newer, signalAt; cbn [timeDecayedConfidence]; lra).
  destruct (calculateStallScore_sum_bonus_capped sampleNow [older])
    as (_ & Heq & Hbonus & Hle & Hge & Hmono).
  split; [exact Hne|]. split; [exact Ho|]. split; [exact Hn|].
  split; [|split; [split; [exact (Hge Ho) | exact Hle] | exact (Hmono [newer] Hn)]].
  destruct (Heq Hne) as (latest & [Hin _] & ->).
  destruct Hin as [<- | []].
  assert (Hh : hoursBetween sampleNow (sourceTimestamp older) = 30).
  { unfold hoursBetween, sampleNow, older, signalAt. cbn [sourceTimestamp].
    change (360000000 - 252000000)%Z with 108000000%Z.
    change (1000 * 60 * 60)%Z with 3600000%Z. lra. }
  rewrite Hh. destruct (Hbonus 30) as (_ & Hb & _). rewrite Hb by lra.
  unfold decayedSum, older, signalAt. cbn [fold_right timeDecayedConfidence].
  unfold Rmin. destruct (Rle_dec _ _); lra.
Defined.

End ScoringFacts.

(** ** The detector's loops end *)

Section DetectorTermination.
Import Stall Regex StallDetector.

(** A successful match hands the continuation a suffix that is not
    longer, and a shorter one when the pattern [consumes]. *)
Lemma matchAt_progress (r : regex) :
  forall (A : Type) (icase : bool) (k : option ascii -> list ascii -> option A)
         (prev : option ascii) (s : list ascii) (a : A),
    matchAt icase r k prev s = Some a ->
    exists prev' s',
      k prev' s' = Some a
      /\ (length s' <= length s)%nat
      /\ (consumes r = true -> (length s' < length s)%nat).
Proof.
  induction r as [| | c | | | r1 IH1 r2 IH2 | r1 IH1 r2 IH2 | r1 IH1 | r1 IH1];
    intros A icase k prev s a H; simpl in H.
  - discriminate.
  - exists prev, s. split; [exact H|]. split; [lia | discriminate].
  - destruct s as [|x s']; [discriminate|].
    destruct (Ascii.eqb _ _); [|discriminate].
    exists (Some x), s'. simpl. split; [exact H|]. split; lia.
  - destruct s as [|x s']; [discriminate|].
    destruct (isSpace x); [|discriminate].
    exists (Some x), s'. simpl. split; [exact H|]. split; lia.
  - destruct (xorb _ _); [|discriminate].
    exists prev, s. split; [exact H|]. split; [lia | discriminate].
  - apply IH1 in H as (p1 & s1 & H & Hle1 & Hlt1).
    apply IH2 in H as (p2 & s2 & H & Hle2 & Hlt2).
    exists p2, s2. split; [exact H|]. split; [lia|].
    simpl. intros Hc. apply orb_true_iff in Hc as [Hc | Hc];
      [specialize (Hlt1 Hc) | specialize (Hlt2 Hc)]; lia.
  - destruct (matchAt icase r1 k prev s) as [a'|] eqn:E.
    + inversion H; subst a'. apply IH1 in E as (p1 & s1 & E & Hle & Hlt).
      exists p1, s1. split; [exact E|]. split; [exact Hle|].
      simpl. intros Hc. apply andb_true_iff in Hc as [Hc _]. auto.
    + apply IH2 in H as (p2 & s2 & H & Hle & Hlt).
      exists p2, s2. split; [exact H|]. split; [exact Hle|].
      simpl. intros Hc. apply andb_true_iff in Hc as [_ Hc]. auto.
  - match type of H with
    | match ?m with _ => _ end = _ => destruct m as [a'|] eqn:E
    end.
    + inversion H; subst a'. apply IH1 in E as (p1 & s1 & E & Hle & _).
      destruct (Nat.ltb_spec (length s1) (length s)); [|discriminate].
      exists p1, s1. split; [exact E|]. split; [lia | discriminate].
    + exists prev, s. split; [exact H|]. split; [lia | discriminate].
  - revert H. generalize (length s) at 1. intros n. revert prev s.
    induction n as [|n IHn]; intros prev s H.
    + exists prev, s. split; [exact H|]. split; [lia | discriminate].
    + match type of H with
      | match ?m with _ => _ end = _ => destruct m as [a'|] eqn:E
      end.
      * inversion H; subst a'. apply IH1 in E as (p1 & s1 & E & Hle & _).
        destruct (Nat.ltb_spec (length s1) (length s)); [|discriminate].
        apply IHn in E as (p2 & s2 & E & Hle2 & _).
        exists p2, s2. split; [exact E|]. split; [lia | discriminate].
      * exists prev, s. split; [exact H|]. split; [lia | discriminate].
Qed.

(** With a pattern that consumes, the [exec] loop ends on every text. *)
Lemma execAll_total (re : RegExp) :
  consumes (re_source re) = true ->
  forall (s : list ascii) (prev : option ascii) (pos skip : nat),
    exists l, execAll re prev s pos skip = Some l.
Proof.
  intros Hc. induction s as [|c s IH]; intros prev pos skip.
  - destruct skip; simpl; [|eauto].
    destruct (matchAt _ _ _ _ _) as [rest|] eqn:E; [|eauto].
    apply matchAt_progress in E as (p & s' & _ & _ & Hlt).
    specialize (Hlt Hc). simpl in Hlt. lia.
  - destruct skip as [|skip]; [|apply IH].
    cbn [execAll].
    destruct (matchAt _ _ _ _ _) as [rest|] eqn:E; [|apply IH].
    apply matchAt_progress in E as (p & s' & E & _ & Hlt).
    inversion E; subst s'. specialize (Hlt Hc).
    destruct (length (c :: s) - length rest)%nat as [|len'] eqn:El; [lia|].
    destruct (IH (Some c) (S pos) len') as [l ->]. simpl. eauto.
Qed.

Lemma STALL_PATTERNS_consume :
  Forall (fun p => consumes (re_source (pattern p)) = true) STALL_PATTERNS.
Proof.
  apply List.Forall_forall. apply forallb_forall. vm_compute. reflexivity.
Qed.

Lemma collect_total (content : string) (patterns : list PhrasePattern) :
  Forall (fun p => consumes (re_source (pattern p)) = true) patterns ->
  exists ms, collect content patterns = Some ms.
Proof.
  induction 1 as [|p patterns Hp _ [ms IH]]; simpl; [eauto|].
  unfold matchesOf, matchAll.
  destruct (execAll_total _ Hp (list_ascii_of_string content) None 0%nat 0%nat)
    as [l ->].
  simpl. rewrite IH. simpl. eauto.
Qed.

(** [detectPhrases] returns on every text. *)
Lemma detectPhrases_total (content : string) :
  exists matches, detectPhrases content = Some matches.
Proof.
  unfold detectPhrases.
  destruct (collect_total content _ STALL_PATTERNS_consume) as [ms ->].
  simpl. eauto.
Qed.

(** [analyzeEmail] returns on every email. *)
Lemma analyzeEmail_total (env : Env) (email : EmailContent) (s : Service) :
  exists out s', analyzeEmail env email s = Some (out, s').
Proof.
  unfold analyzeEmail.
  destruct (negb _); [eauto|].
  destruct (detectPhrases_total (subject email +:+ " " +:+ body email)) as [ms ->].
  destruct (length ms =? 0)%nat; [eauto|].
  destruct (emailSignals _ _ _ _ _ _ _). eauto.
Qed.

End DetectorTermination.

(** ** Stall detector: phrases and emails *)

Section DetectionFacts.
Import Stall Regex StallDetector StallStatements StallSamples.

(** What the detector finds in the scenario text: the one phrase
    ["let me think about it"], at the start. *)
Lemma scenario_matches :
  detectPhrases scenarioText
  = Some [ {| phrase := "let me think about it";
              category := THINKING;
              matchedText := "let me think about it";
              m_confidence := 0.7%Q;
              position := 0;
              context := scenarioText |} ].
Proof. vm_compute. reflexivity. Qed.

(** The scenario as the specification tells it does not hold: the text
    has no PRICING_REQUEST and no CALLBACK_REQUEST match. *)
Lemma scenario_two_categories_fails : ~ scenario_two_categories.
Proof.
  intros (matches & m1 & m2 & Hd & Hlen & _).
  rewrite scenario_matches in Hd. inversion Hd; subst matches.
  simpl in Hlen. lia.
Qed.

(** C8, as amended. On the scenario text the detector yields exactly one
    match, of category THINKING: the phrase ["let me think about it"] at
    position 0. ["send you pricing"] is not a PRICING_REQUEST (the pattern
    allows only ["me"] and ["the"] after the verb) and ["next week"]
    alone is not a CALLBACK_REQUEST. *)
Theorem detectPhrases_scenario_thinking_only :
  exists m,
    detectPhrases scenarioText = Some [m]
    /\ category m = THINKING
    /\ phrase m = "let me think about it"
    /\ matchedText m = "let me think about it"
    /\ position m = 0%nat
    /\ m_confidence m = 0.7%Q
    /\ forall matches m',
         detectPhrases scenarioText = Some matches -> In m' matches ->
         category m' <> PRICING_REQUEST /\ category m' <> CALLBACK_REQUEST.
Proof.
  eexists. split; [apply scenario_matches|].
  do 5 (split; [reflexivity|]).
  intros matches m' Hd Hin.
  rewrite scenario_matches in Hd. inversion Hd; subst matches.
  destruct Hin as [<- | []]. split; discriminate.
Qed.

(** With ["send me pricing"] and ["call me back next week"] the same
    sentence does yield the three categories. *)
Lemma detectPhrases_nearby_text :
  map category
    <$> detectPhrases
          "let me think about it, send me pricing and call me back next week"
  = Some [THINKING; PRICING_REQUEST; CALLBACK_REQUEST].
Proof. vm_compute. reflexivity. Qed.

(** C9. An email whose direction is not INBOUND yields no signal and
    leaves the service, hence its signal store, as it was, whatever its
    subject and body say. *)
Theorem analyzeEmail_only_inbound (env : Env) (email : EmailContent) (s : Service) :
  direction email <> INBOUND ->
  analyzeEmail env email s = Some ([], s).
Proof.
  intros Hdir. unfold analyzeEmail.
  destruct (bool_decide_reflect (direction email = INBOUND)) as [Heq | _];
    [contradiction | reflexivity].
Qed.

Lemma analyzeEmail_only_inbound_witness :
  direction outboundEmail <> INBOUND
  /\ (exists m ms,
        detectPhrases (subject outboundEmail +:+ " " +:+ body outboundEmail)
        = Some (m :: ms))
  /\ analyzeEmail sampleEnv outboundEmail (new DEFAULT_CONFIG)
     = Some ([], new DEFAULT_CONFIG).
Proof.
  assert (Hdir : direction outboundEmail <> INBOUND) by discriminate.
  split; [exact Hdir|]. split.
  - eexists _, _. vm_compute. reflexivity.
  - exact (analyzeEmail_only_inbound sampleEnv outboundEmail (new DEFAULT_CONFIG) Hdir).
Defined.

End DetectionFacts.

(** ** Stage engine: further properties *)

Section StageEngineMore.
Import StageEngine EngineSamples EngineStatements.

#[local] Open Scope Q_scope.

#[local] Ltac qlra := Lqa.lra.

Lemma has_present (signals : list CallSignal) (t : CallSignalType) :
  bool_decide (t ∈ (list_to_set (map sig_type signals) : gset CallSignalType)) = true
  <-> present signals t.
Proof.
  rewrite bool_decide_eq_true, elem_of_list_to_set, list_elem_of_In, in_map_iff.
  unfold present. split; intros (s & H1 & H2); exists s; auto.
Qed.

Lemma includes_In (l : option (list CallSignalType)) (t : CallSignalType) :
  includes l t = true <-> exists ts, l = Some ts /\ In t ts.
Proof.
  destruct l as [ts|]; simpl.
  - rewrite existsb_exists. split.
    + intros (u & Hu & Hd). apply bool_decide_eq_true in Hd. subst. eauto.
    + intros (ts' & Heq & Hin). inversion Heq; subst.
      exists t. split; [assumption | now apply bool_decide_eq_true].
  - split; [discriminate | intros (ts & Heq & _); discriminate].
Qed.

(** X1. The conditions of a rule on the set of signal types. A rule
    that matches meets them: every required type occurs among the
    signals, some any-of type occurs and no excluded type occurs, an
    absent condition asking for nothing. For a rule without
    [minConfidence], or with no relevant signal to average, they are
    also enough. *)
Theorem evaluateRule_set_conditions (r : StageRule) (signals : list CallSignal) :
  (evaluateRule r signals = true -> meetsSetConditions r signals)
  /\ (minConfidence (conditions r) = None
      \/ relevantSignals (conditions r) signals = [] ->
      (evaluateRule r signals = true <-> meetsSetConditions r signals)).
Proof.
  unfold evaluateRule, meetsSetConditions.
  set (has := fun t => bool_decide (t ∈ (list_to_set (map sig_type signals)
                                          : gset CallSignalType))).
  assert (Hhas : forall t, has t = true <-> present signals t)
    by (intros t; apply has_present).
  assert (Hnhas : forall t, has t = false <-> ~ present signals t).
  { intros t. rewrite <- Hhas. destruct (has t); split; congruence. }
  destruct (conditions r) as [req any excl minc]. simpl.
  assert (Hreq : match req with Some req => negb (forallb has req) | None => false end
                 = false
                 <-> forall req', req = Some req' -> forall t, In t req' -> present signals t).
  { destruct req as [req|].
    - rewrite negb_false_iff, forallb_forall. split.
      + intros H req' Heq t Ht. inversion Heq; subst. apply Hhas. auto.
      + intros H t Ht. apply Hhas. eapply H; eauto.
    - split; [intros _ req' Heq; discriminate | reflexivity]. }
  assert (Hany : match any with Some any => negb (existsb has any) | None => false end
                 = false
                 <-> forall any', any = Some any' ->
                       exists t, In t any' /\ present signals t).
  { destruct any as [any|].
    - rewrite negb_false_iff, existsb_exists. split.
      + intros (t & Ht & Hp) any' Heq. inversion Heq; subst.
        exists t. split; [assumption | now apply Hhas].
      + intros H. destruct (H any eq_refl) as (t & Ht & Hp).
        exists t. split; [assumption | now apply Hhas].
    - split; [intros _ any' Heq; discriminate | reflexivity]. }
  assert (Hexcl : match excl with Some excl => existsb has excl | None => false end
                  = false
                  <-> forall excl', excl = Some excl' ->
                        forall t, In t excl' -> ~ present signals t).
  { destruct excl as [excl|].
    - split.
      + intros H excl' Heq t Ht. inversion Heq; subst. apply Hnhas.
        destruct (has t) eqn:E; [|reflexivity].
        assert (existsb has excl' = true) by (apply existsb_exists; eauto).
        congruence.
      + intros H. destruct (existsb has excl) eqn:E; [|reflexivity].
        apply existsb_exists in E as (t & Ht & Hp).
        exfalso. apply (H excl eq_refl t Ht). now apply Hhas.
    - split; [intros _ excl' Heq; discriminate | reflexivity]. }
  set (rel := relevantSignals _ signals) in *.
  assert (Hmin : minc = None \/ rel = [] ->
                 match minc with
                 | Some minc =>
                     if (0 <? length rel)%nat
                     then Qltb (sumConfidence rel / inject_Z (Z.of_nat (length rel))) minc
                     else false
                 | None => false
                 end = false).
  { intros [-> | ->]; [reflexivity|]. now destruct minc. }
  destruct (match req with Some _ => _ | None => _ end) eqn:E1.
  { split; [discriminate|]. intros _. split; [discriminate|].
    intros (H & _). apply Hreq in H. discriminate. }
  destruct (match any with Some _ => _ | None => _ end) eqn:E2.
  { split; [discriminate|]. intros _. split; [discriminate|].
    intros (_ & H & _). apply Hany in H. discriminate. }
  destruct (match excl with Some _ => _ | None => _ end) eqn:E3.
  { split; [discriminate|]. intros _. split; [discriminate|].
    intros (_ & _ & H). apply Hexcl in H. discriminate. }
  assert (Hset : (forall req', req = Some req' ->
                    forall t, In t req' -> present signals t)
                 /\ (forall any', any = Some any' ->
                       exists t, In t any' /\ present signals t)
                 /\ (forall excl', excl = Some excl' ->
                       forall t, In t excl' -> ~ present signals t)).
  { split; [now apply Hreq|]. split; [now apply Hany | now apply Hexcl]. }
  split.
  - intros _. exact Hset.
  - intros Hno. rewrite (Hmin Hno). split; [intros _; exact Hset | reflexivity].
Qed.

Lemma weightOf_pos (svc : Service) (t : CallSignalType) :
  0 <= weights svc t -> 0 < weightOf svc t.
Proof.
  intros H. unfold weightOf. destruct (Qeq_bool (weights svc t) 0) eqn:E.
  - reflexivity.
  - apply Qeq_bool_neq in E. apply Qle_lteq in H as [H | H]; [exact H|].
    exfalso. apply E. now symmetry.
Qed.

(** The two sums of [calculateConfidence]: the weighted sum stays between
    0 and the total weight, which grows. *)
Lemma weightedSums_bounds (svc : Service) (l : list CallSignal) :
  (forall t, 0 <= weights svc t) ->
  (forall s, In s l -> 0 <= sig_confidence s <= 1) ->
  forall tw ws,
    let r := fold_left
               (fun '(totalWeight, weightedSum) s =>
                  let weight := weightOf svc (sig_type s) in
                  (totalWeight + weight, weightedSum + sig_confidence s * weight))
               l (tw, ws) in
    ws <= snd r /\ snd r - ws <= fst r - tw /\ tw <= fst r
    /\ (l <> [] -> tw < fst r).
Proof.
  intros Hw. induction l as [|s l IH]; intros Hc tw ws; cbv zeta; simpl.
  - split; [qlra|]. split; [qlra|]. split; [qlra|].
    intros Hne. exfalso. now apply Hne.
  - pose proof (weightOf_pos svc (sig_type s) (Hw _)) as Hpos.
    destruct (Hc s (or_introl eq_refl)) as [Hc0 Hc1].
    assert (Hl : forall s', In s' l -> 0 <= sig_confidence s' <= 1)
      by (intros; apply Hc; now right).
    pose proof (IH Hl (tw + weightOf svc (sig_type s))
                  (ws + sig_confidence s * weightOf svc (sig_type s))) as IH'.
    cbv zeta in IH'. destruct IH' as (H1 & H2 & H3 & _).
    set (w := weightOf svc (sig_type s)) in *.
    set (c := sig_confidence s) in *.
    assert (0 <= c * w) by (apply Qmult_le_0_compat; qlra).
    assert (Hcw : c * w <= 1 * w) by (apply Qmult_le_compat_r; qlra).
    rewrite Qmult_1_l in Hcw.
    split; [qlra|]. split; [qlra|]. split; [qlra|]. intros _. qlra.
Qed.

Lemma inject_Z_div_100_range (z : Z) :
  (0 <= z <= 100)%Z -> 0 <= inject_Z z / 100 <= 1.
Proof.
  intros [H0 H1]. split.
  - apply Qle_shift_div_l; [reflexivity|]. rewrite Qmult_0_l.
    change 0 with (inject_Z 0). now rewrite <- Zle_Qle.
  - apply Qle_shift_div_r; [reflexivity|]. rewrite Qmult_1_l.
    change 100 with (inject_Z 100). now rewrite <- Zle_Qle.
Qed.

Lemma calculateConfidence_hundredths (svc : Service) (signals : list CallSignal)
    (r : StageRule) :
  (forall t, 0 <= weights svc t) ->
  (forall s, In s signals -> 0 <= sig_confidence s <= 1) ->
  (0 <= priority r)%Z ->
  exists z, (0 <= z <= 100)%Z
            /\ calculateConfidence svc signals r == inject_Z z / 100.
Proof.
  intros Hw Hc Hp. unfold calculateConfidence.
  set (rel := relevantSignals (conditions r) signals).
  destruct (length rel =? 0)%nat eqn:El.
  { exists 50%Z. split; [lia | reflexivity]. }
  assert (Hne : rel <> []).
  { intros E. rewrite E in El. discriminate. }
  assert (Hrel : forall s, In s rel -> 0 <= sig_confidence s <= 1).
  { intros s Hs. apply Hc. unfold rel, relevantSignals in Hs.
    apply filter_In in Hs. tauto. }
  pose proof (weightedSums_bounds svc rel Hw Hrel 0 0) as Hb. cbv zeta in Hb.
  destruct (fold_left _ rel (0, 0)) as [tw ws]. simpl in Hb.
  destruct Hb as (H1 & H2 & _ & H4). specialize (H4 Hne).
  set (final := Qmin (ws / tw + Qmin (inject_Z (Z.of_nat (length rel)) * 0.05) 0.15
                      + inject_Z (priority r) / 100 * 0.1) 1.0).
  assert (Hbase : 0 <= ws / tw).
  { apply Qle_shift_div_l; [exact H4 | qlra]. }
  assert (Hboost : 0 <= Qmin (inject_Z (Z.of_nat (length rel)) * 0.05) 0.15).
  { apply Q.min_glb; [|discriminate].
    apply Qmult_le_0_compat; [|discriminate].
    change 0 with (inject_Z 0). rewrite <- Zle_Qle. lia. }
  assert (Hprio : 0 <= inject_Z (priority r) / 100 * 0.1).
  { apply Qmult_le_0_compat; [|discriminate].
    apply Qle_shift_div_l; [reflexivity|]. rewrite Qmult_0_l.
    change 0 with (inject_Z 0). now rewrite <- Zle_Qle. }
  assert (Hfinal : 0 <= final <= 1).
  { unfold final. split; [apply Q.min_glb; [qlra | discriminate]|].
    eapply Qle_trans; [apply Q.le_min_r | discriminate]. }
  exists (Math_round (final * 100)). split; [|reflexivity].
  unfold Math_round. split.
  - change 0%Z with (Qfloor 0). apply Qfloor_resp_le. qlra.
  - change 100%Z with (Qfloor (201 # 2)). apply Qfloor_resp_le.
    assert (final * 100 <= 100) by qlra.
    apply (Qplus_le_l _ _ (1 # 2)) in H. exact H.
Qed.

(** X2. With weights that are not negative and signal confidences in
    [0,1], the confidence that [mapToStage] reports is a whole number of
    hundredths between 0 and 1. *)
Theorem mapToStage_confidence_range (svc : Service) (signals : list CallSignal) :
  (forall t, 0 <= weights svc t) ->
  (forall s, In s signals -> 0 <= sig_confidence s <= 1) ->
  (exists z, (0 <= z <= 100)%Z
             /\ confidence (mapToStage svc signals) == inject_Z z / 100)
  /\ 0 <= confidence (mapToStage svc signals) <= 1.
Proof.
  intros Hw Hc.
  assert (Hz : exists z, (0 <= z <= 100)%Z
                 /\ confidence (mapToStage svc signals) == inject_Z z / 100).
  { unfold mapToStage.
    destruct (tryRules_first svc signals sortedRules)
      as [(before & r & after & Hsplit & _ & _ & ->) | [_ ->]].
    - simpl. apply calculateConfidence_hundredths; auto.
      assert (Hin : In r sortedRules)
        by (rewrite Hsplit; apply in_or_app; right; now left).
      rewrite sortedRules_table in Hin.
      assert (Hall : Forall (fun r => (0 <= priority r)%Z) STAGE_RULES).
      { unfold STAGE_RULES.
        repeat (apply List.Forall_cons; [discriminate|]). apply List.Forall_nil. }
      rewrite List.Forall_forall in Hall. now apply Hall.
    - exists 30%Z. split; [lia | reflexivity]. }
  split; [exact Hz|].
  destruct Hz as (z & Hr & ->). now apply inject_Z_div_100_range.
Qed.

Lemma DEFAULT_SIGNAL_WEIGHTS_pos (t : CallSignalType) : 0 < DEFAULT_SIGNAL_WEIGHTS t.
Proof. destruct t; reflexivity. Qed.

Lemma mapToStage_confidence_range_witness :
  (forall t, 0 <= weights defaultEngine t)
  /\ (forall s, In s pricingSignals -> 0 <= sig_confidence s <= 1)
  /\ 0 <= confidence (mapToStage defaultEngine pricingSignals) <= 1
  /\ newStage (mapToStage defaultEngine pricingSignals) = ST_PROPOSAL.
Proof.
  assert (Hw : forall t, 0 <= weights defaultEngine t).
  { intros t. apply Qlt_le_weak. apply (DEFAULT_SIGNAL_WEIGHTS_pos t). }
  assert (Hc : forall s, In s pricingSignals -> 0 <= sig_confidence s <= 1).
  { intros s [<- | [<- | []]]; split; discriminate. }
  split; [exact Hw|]. split; [exact Hc|].
  split; [exact (proj2 (mapToStage_confidence_range defaultEngine pricingSignals Hw Hc))|].
  vm_compute. reflexivity.
Defined.

(** X3. The two helper predicates against the router. [shouldAutoUpdate]
    holds exactly when the router decides AUTO_UPDATE. [needsConfirmation]
    is the medium band: with flagging on it implies FLAG_FOR_CONFIRMATION,
    and with auto-update on every FLAG_FOR_CONFIRMATION lies in it. With
    auto-update off the router also flags confidences at or above the
    high threshold, where [needsConfirmation] is false. *)
Theorem helpers_agree_with_router (svc : Service) (c : Q) :
  (shouldAutoUpdate svc c = true
   <-> action (getActionDecision svc c) = AUTO_UPDATE)
  /\ (needsConfirmation svc c = true -> enableFlagging (config svc) = true ->
      action (getActionDecision svc c) = FLAG_FOR_CONFIRMATION)
  /\ (enableAutoUpdate (config svc) = true ->
      action (getActionDecision svc c) = FLAG_FOR_CONFIRMATION ->
      needsConfirmation svc c = true)
  /\ (enableAutoUpdate (config svc) = false ->
      highConfidenceThreshold (config svc) <= c ->
      action (getActionDecision svc c) = FLAG_FOR_CONFIRMATION
      /\ needsConfirmation svc c = false).
Proof.
  unfold shouldAutoUpdate, needsConfirmation, getActionDecision, Qltb, Qgeb.
  destruct (Qle_bool (highConfidenceThreshold (config svc)) c) eqn:Eh;
    destruct (Qle_bool (mediumConfidenceThreshold (config svc)) c) eqn:Em;
    destruct (enableAutoUpdate (config svc));
    destruct (enableFlagging (config svc)); simpl;
    repeat split; intros; try congruence;
    match goal with
    | H : (_ <= _)%Q |- _ => apply Qle_bool_iff in H; congruence
    end.
Qed.

Lemma helpers_agree_with_router_witness :
  needsConfirmation defaultEngine 0.6 = true
  /\ enableFlagging (config defaultEngine) = true
  /\ action (getActionDecision defaultEngine 0.6) = FLAG_FOR_CONFIRMATION
  /\ (shouldAutoUpdate defaultEngine 0.9 = true
      <-> action (getActionDecision defaultEngine 0.9) = AUTO_UPDATE).
Proof.
  destruct (helpers_agree_with_router defaultEngine 0.6) as (_ & Hflag & _).
  destruct (helpers_agree_with_router defaultEngine 0.9) as (Hauto & _).
  split; [reflexivity|]. split; [reflexivity|].
  split; [exact (Hflag eq_refl eq_refl) | exact Hauto].
Defined.

(** X4. Stage transitions. Staying in a stage is always valid; CLOSED_WON
    is terminal; no other stage leads back to NEW; and apart from
    reopening out of CLOSED_LOST or NURTURE every valid move goes forward
    along the pipeline. *)
Theorem isValidTransition_shape :
  (forall st, isValidTransition st st = true)
  /\ (forall st, isValidTransition ST_CLOSED_WON st = true -> st = ST_CLOSED_WON)
  /\ (forall st, isValidTransition st ST_NEW = true -> st = ST_NEW)
  /\ (forall a b, isValidTransition a b = true ->
        a = ST_CLOSED_LOST \/ a = ST_NURTURE
        \/ (pipelineRank a <= pipelineRank b)%nat).
Proof.
  split; [|split; [|split]].
  - intros []; reflexivity.
  - intros []; vm_compute; intros H; congruence.
  - intros []; vm_compute; intros H; congruence.
  - intros [] []; vm_compute; intros H; try discriminate; auto;
      right; right; repeat constructor.
Qed.

Lemma STAGE_RULES_stages :
  Forall (fun r => stage (result r) <> ST_NEW
                   /\ stage (result r) <> ST_CLOSED_WON
                   /\ stage (result r) <> ST_NURTURE) STAGE_RULES.
Proof.
  unfold STAGE_RULES.
  repeat (apply List.Forall_cons; [repeat split; discriminate|]).
  apply List.Forall_nil.
Qed.

(** X5. Whatever the signals and the configuration, [mapToStage] never
    proposes the stages NEW, CLOSED_WON or NURTURE. *)
Theorem mapToStage_never_new_won_nurture (svc : Service) (signals : list CallSignal) :
  newStage (mapToStage svc signals) <> ST_NEW
  /\ newStage (mapToStage svc signals) <> ST_CLOSED_WON
  /\ newStage (mapToStage svc signals) <> ST_NURTURE.
Proof.
  unfold mapToStage.
  destruct (tryRules_first svc signals sortedRules)
    as [(before & r & after & Hsplit & _ & _ & ->) | [_ ->]].
  - simpl.
    assert (Hin : In r sortedRules)
      by (rewrite Hsplit; apply in_or_app; right; now left).
    rewrite sortedRules_table in Hin.
    pose proof STAGE_RULES_stages as Hall.
    rewrite List.Forall_forall in Hall. now apply Hall.
  - simpl. repeat split; discriminate.
Qed.

End StageEngineMore.

(** ** Sorting, once more *)

Section StableSortSorted.
Context {A : Type} (lt : A -> A -> bool).
Hypothesis lt_asym : forall a b, lt a b = true -> lt b a = false.

Lemma sort_insert_HdRel (y x : A) (l : list A) :
  HdRel (fun a b => lt b a = false) y l -> lt x y = false ->
  HdRel (fun a b => lt b a = false) y (sort_insert lt x l).
Proof.
  intros Hl Hx. destruct l as [|z l]; simpl.
  - now constructor.
  - destruct (lt z x); constructor; [now inversion Hl | exact Hx].
Qed.

Lemma sort_insert_sorted (x : A) (l : list A) :
  Sorted (fun a b => lt b a = false) l ->
  Sorted (fun a b => lt b a = false) (sort_insert lt x l).
Proof.
  induction l as [|y l IH]; simpl; intros Hs.
  - repeat constructor.
  - apply Sorted_inv in Hs as [Hs Hhd].
    destruct (lt y x) eqn:E.
    + constructor; [now apply IH|].
      apply sort_insert_HdRel; [exact Hhd | now apply lt_asym].
    + constructor; [now constructor|]. constructor. exact E.
Qed.

(** The sorted array: no element stands before one that [lt] puts ahead
    of it. *)
Lemma stable_sort_sorted (l : list A) :
  Sorted (fun a b => lt b a = false) (stable_sort lt l).
Proof.
  induction l as [|x l IH]; simpl; [constructor | now apply sort_insert_sorted].
Qed.

End StableSortSorted.

(** ** Audit log: further properties *)

Section AuditMore.
Import AuditLog AuditStatements AuditSamples.

Lemma addEntry_lookup (env : Env) (e : AuditEntry) (s : Service) (i : string) :
  entries (snd (addEntry env e s)) !! i
  = if decide (id e = i) then Some e else entries s !! i.
Proof. unfold addEntry; simpl. apply lookup_insert. Qed.

Lemma addEntry_byCall (env : Env) (e : AuditEntry) (s : Service) (c : string) :
  entriesByCallId (snd (addEntry env e s)) !! c
  = if decide (callId e = c)
    then Some (default [] (entriesByCallId s !! callId e) ++ [id e])
    else entriesByCallId s !! c.
Proof. unfold addEntry; simpl. apply lookup_insert. Qed.

Lemma addEntry_config (env : Env) (e : AuditEntry) (s : Service) :
  config (snd (addEntry env e s)) = config s.
Proof. reflexivity. Qed.

(** What [rollback] does to the service: nothing, or the [addEntry] of
    the ROLLBACK entry of an eligible stored entry. *)
Lemma rollback_service (env : Env) (auditId confirmedBy : string) (s : Service) :
  (success (fst (rollback env auditId confirmedBy s)) = false
   /\ snd (rollback env auditId confirmedBy s) = s)
  \/ (exists o,
        enableRollback (config s) = true
        /\ entries s !! auditId = Some o
        /\ (action o = STAGE_CHANGE \/ action o = DISPOSITION_SET)
        /\ success (fst (rollback env auditId confirmedBy s)) = true
        /\ snd (rollback env auditId confirmedBy s)
           = snd (addEntry env (rollbackEntryFor env auditId confirmedBy o) s)).
Proof.
  unfold rollback. destruct (enableRollback (config s)); simpl; [|now left].
  destruct (entries s !! auditId) as [o|]; [|now left].
  destruct (rollbackable (action o)) eqn:E; simpl; [|now left].
  right. exists o. apply rollbackable_iff in E. repeat split; auto.
Qed.

(** Adding an entry under an id never handed out keeps the three
    properties of a log, provided the entry names an eligible stored
    entry when it is a ROLLBACK and none otherwise. *)
Lemma addEntry_keeps (env : Env) (e : AuditEntry) (s : Service) (used : gset string) :
  id e = uuid env -> uuid env ∉ used ->
  ((action e = ROLLBACK ->
    exists oid o, rollbackOf e = Some oid /\ entries s !! oid = Some o
                  /\ (action o = STAGE_CHANGE \/ action o = DISPOSITION_SET))
   /\ (action e <> ROLLBACK -> rollbackOf e = None)) ->
  keysAreIds used s -> rollbacksReferToEligible s -> callIndexExact s ->
  keysAreIds ({[uuid env]} ∪ used) (snd (addEntry env e s))
  /\ rollbacksReferToEligible (snd (addEntry env e s))
  /\ callIndexExact (snd (addEntry env e s)).
Proof.
  intros Hid Hfresh [Hrb Hnrb] Hk Hr (HS & HC & HN).
  assert (Hstored : forall i x, entries s !! i = Some x -> i <> id e).
  { intros i x Hx ->. rewrite Hid in Hx. apply Hfresh. now apply (Hk _ _ Hx). }
  assert (Hlisted : forall c ids i, entriesByCallId s !! c = Some ids -> In i ids ->
                      i <> id e).
  { intros c ids i Hc Hi. destruct (HS _ _ _ Hc Hi) as (x & Hx & _). eauto. }
  split; [|split].
  - intros i x. rewrite addEntry_lookup. destruct (decide (id e = i)) as [<-|Hne].
    + intros Hx. inversion Hx; subst x. split; [reflexivity|].
      rewrite Hid. apply elem_of_union_l. now apply elem_of_singleton.
    + intros Hx. destruct (Hk _ _ Hx). split; [assumption|].
      now apply elem_of_union_r.
  - intros i x. rewrite addEntry_lookup. destruct (decide (id e = i)) as [<-|Hne].
    + intros Hx. inversion Hx; subst x. split; [|exact Hnrb].
      intros Ha. destruct (Hrb Ha) as (oid & o & Hro & Ho & Hact).
      exists oid, o. split; [exact Hro|]. split; [eauto|].
      split; [|exact Hact]. rewrite addEntry_lookup.
      destruct (decide (id e = oid)) as [Heq|]; [|exact Ho].
      exfalso. eapply Hstored; eauto.
    + intros Hx. destruct (Hr _ _ Hx) as [H1 H2]. split; [|exact H2].
      intros Ha. destruct (H1 Ha) as (oid & o & Hro & Hoi & Ho & Hact).
      exists oid, o. repeat split; auto. rewrite addEntry_lookup.
      destruct (decide (id e = oid)) as [Heq|]; [|exact Ho].
      exfalso. eapply Hstored; eauto.
  - split; [|split].
    + intros c ids i. rewrite addEntry_byCall.
      destruct (decide (callId e = c)) as [<-|Hne].
      * intros Hids Hi. inversion Hids; subst ids. clear Hids.
        apply in_app_or in Hi. destruct Hi as [Hi | [<- | []]].
        -- destruct (entriesByCallId s !! callId e) as [old|] eqn:E; [|destruct Hi].
           destruct (HS _ _ _ E Hi) as (x & Hx & Hcx). exists x.
           rewrite addEntry_lookup.
           destruct (decide (id e = i)) as [Heq|]; [|now split].
           exfalso. eapply Hstored; eauto.
        -- exists e. rewrite addEntry_lookup.
           destruct (decide (id e = id e)); [now split | congruence].
      * intros Hids Hi. destruct (HS _ _ _ Hids Hi) as (x & Hx & Hcx). exists x.
        rewrite addEntry_lookup.
        destruct (decide (id e = i)) as [Heq|]; [|now split].
        exfalso. eapply Hstored; eauto.
    + intros i x. rewrite addEntry_lookup. destruct (decide (id e = i)) as [<-|Hne].
      * intros Hx. inversion Hx; subst x. eexists. rewrite addEntry_byCall.
        destruct (decide (callId e = callId e)); [|congruence].
        split; [reflexivity|]. apply in_or_app. right. now left.
      * intros Hx. destruct (HC _ _ Hx) as (ids & Hids & Hi).
        rewrite addEntry_byCall.
        destruct (decide (callId e = callId x)) as [Heq|].
        -- eexists. split; [reflexivity|]. rewrite Heq, Hids. simpl.
           apply in_or_app. now left.
        -- exists ids. now split.
    + intros c ids. rewrite addEntry_byCall.
      destruct (decide (callId e = c)) as [<-|Hne]; [|apply HN].
      intros Hids. inversion Hids; subst ids. clear Hids.
      destruct (entriesByCallId s !! callId e) as [old|] eqn:E; simpl.
      * apply NoDup_ListNoDup. apply NoDup_app. split; [|split].
        -- apply NoDup_ListNoDup. eapply HN; eauto.
        -- intros i Hi Hi'. apply list_elem_of_In in Hi.
           apply list_elem_of_singleton in Hi'. subst i. eapply Hlisted; eauto.
        -- apply NoDup_singleton.
      * repeat constructor. intros [].
Qed.

Lemma logged_invariants (used : gset string) (s : Service) :
  logged used s ->
  keysAreIds used s /\ rollbacksReferToEligible s /\ callIndexExact s.
Proof.
  induction 1 as [c | used s env e _ (Hk & Hr & Hc) (Hid & Hact & Hro) Hfresh
                  | used s env auditId by_ _ (Hk & Hr & Hc) Hfresh].
  - split; [|split; [|split; [|split]]].
    + intros i e H. simpl in H. rewrite lookup_empty in H. discriminate.
    + intros i e H. simpl in H. rewrite lookup_empty in H. discriminate.
    + intros c' ids i H. simpl in H. rewrite lookup_empty in H. discriminate.
    + intros i e H. simpl in H. rewrite lookup_empty in H. discriminate.
    + intros c' ids H. simpl in H. rewrite lookup_empty in H. discriminate.
  - apply addEntry_keeps; auto. split; [congruence | auto].
  - destruct (rollback_service env auditId by_ s)
      as [[_ ->] | (o & _ & Ho & Hact & _ & ->)].
    + split; [|split; assumption].
      intros i e He. destruct (Hk _ _ He). split; [assumption|].
      now apply elem_of_union_r.
    + apply addEntry_keeps; auto. split.
      * intros _. exists auditId, o. repeat split; auto.
      * intros Hne. exfalso. now apply Hne.
Qed.

(** X7. In a log built by logging and rolling back, every ROLLBACK entry
    names, by [rollbackOf], another entry that is stored and whose action
    is STAGE_CHANGE or DISPOSITION_SET; entries of any other action name
    none; and every entry is stored under its own id. *)
Theorem logged_rollbacks_refer_to_eligible (used : gset string) (s : Service) :
  logged used s ->
  forall i e, entries s !! i = Some e ->
    id e = i
    /\ (action e = ROLLBACK ->
        exists oid o, rollbackOf e = Some oid /\ oid <> i
                      /\ entries s !! oid = Some o
                      /\ (action o = STAGE_CHANGE \/ action o = DISPOSITION_SET))
    /\ (action e <> ROLLBACK -> rollbackOf e = None).
Proof.
  intros Hl i e He. destruct (logged_invariants _ _ Hl) as (Hk & Hr & _).
  split; [apply (Hk _ _ He) | apply (Hr _ _ He)].
Qed.

Lemma enabledLog_logged : logged ({["e1"]} ∪ ∅) enabledLog.
Proof.
  apply (logged_log ∅ _ env1); [apply logged_new | | apply not_elem_of_empty].
  repeat split. discriminate.
Qed.

Lemma rolledBackLog_logged : logged ({["r1"]} ∪ ({["e1"]} ∪ ∅)) rolledBackLog.
Proof.
  apply (logged_rollback _ _ env2); [apply enabledLog_logged|].
  simpl. intros H. apply elem_of_union in H as [H | H].
  - apply elem_of_singleton in H. discriminate.
  - now apply not_elem_of_empty in H.
Qed.

Lemma logged_rollbacks_refer_to_eligible_witness :
  logged ({["r1"]} ∪ ({["e1"]} ∪ ∅)) rolledBackLog
  /\ exists rb o,
       entries rolledBackLog !! "r1" = Some rb
       /\ action rb = ROLLBACK
       /\ rollbackOf rb = Some "e1"
       /\ entries rolledBackLog !! "e1" = Some o
       /\ (action o = STAGE_CHANGE \/ action o = DISPOSITION_SET).
Proof.
  split; [apply rolledBackLog_logged|].
  assert (Hrb : entries rolledBackLog !! "r1"
                = Some (rollbackEntryFor env2 "e1" "ann"
                          (mkEntry "e1" 1000 "call-1" (Some 7%Z) STAGE_CHANGE
                             (Some "WORKING") (Some "QUALIFIED") (Some 0.9%Q) true
                             None None None)))
    by (vm_compute; reflexivity).
  destruct (logged_rollbacks_refer_to_eligible _ _ rolledBackLog_logged _ _ Hrb)
    as (_ & Hro & _).
  destruct (Hro eq_refl) as (oid & o & Heq & _ & Ho & Hact).
  inversion Heq; subst oid.
  eexists _, o. split; [exact Hrb|]. repeat split; auto.
Defined.

Lemma Sorted_weaken {A : Type} (R R' : A -> A -> Prop) (l : list A) :
  (forall a b, R a b -> R' a b) -> Sorted R l -> Sorted R' l.
Proof.
  intros HR. induction 1 as [|a l Hs IH Hhd]; constructor; auto.
  destruct Hhd; constructor; auto.
Qed.

Lemma getEntries_sorted (s : Service) (ids : list string) :
  StronglySorted (fun a b => (timestamp a <= timestamp b)%Z)
    (stable_sort byTimestampAsc (omap (fun i => entries s !! i) ids)).
Proof.
  apply Sorted_StronglySorted; [intros a b c; lia|].
  eapply Sorted_weaken; [|apply stable_sort_sorted].
  - intros a b H. unfold byTimestampAsc in H. now apply Z.ltb_ge in H.
  - intros a b H. unfold byTimestampAsc in *. apply Z.ltb_lt in H.
    apply Z.ltb_ge. lia.
Qed.

Lemma In_omap {A B : Type} (f : A -> option B) (l : list A) (y : B) :
  In y (omap f l) <-> exists x, In x l /\ f x = Some y.
Proof.
  rewrite <- list_elem_of_In, list_elem_of_omap.
  split; intros (x & Hx & Hf); exists x; split; auto; now apply list_elem_of_In.
Qed.

Lemma NoDup_omap {A B : Type} (f : A -> option B) (l : list A) :
  (forall x x' y, f x = Some y -> f x' = Some y -> x = x') ->
  List.NoDup l -> List.NoDup (omap f l).
Proof.
  intros Hinj. induction 1 as [|x l Hx Hl IH]; simpl; [constructor|].
  destruct (f x) as [y|] eqn:E; [|exact IH].
  constructor; [|exact IH].
  intros Hy. apply In_omap in Hy as (x' & Hx' & Hf).
  assert (x = x') by eauto. subst x'. contradiction.
Qed.

(** X8. In a log built by logging and rolling back, [getEntriesForCall]
    returns exactly the stored entries of that call, each once, in order
    of time. *)
Theorem getEntriesForCall_exact (used : gset string) (s : Service) (c : string) :
  logged used s ->
  (forall e, In e (getEntriesForCall c s)
             <-> entries s !! id e = Some e /\ callId e = c)
  /\ List.NoDup (getEntriesForCall c s)
  /\ StronglySorted (fun a b => (timestamp a <= timestamp b)%Z)
       (getEntriesForCall c s).
Proof.
  intros Hl. destruct (logged_invariants _ _ Hl) as (Hk & _ & HS & HC & HN).
  unfold getEntriesForCall.
  set (ids := default [] (entriesByCallId s !! c)).
  set (found := omap (fun i => entries s !! i) ids).
  assert (Hperm : Permutation (stable_sort byTimestampAsc found) found)
    by apply stable_sort_perm.
  split; [|split; [|apply getEntries_sorted]].
  - intros e. split.
    + intros He. apply (Permutation_in _ Hperm) in He.
      apply In_omap in He as (i & Hi & Hf).
      destruct (Hk _ _ Hf) as [Hid _]. subst i.
      split; [exact Hf|].
      unfold ids in Hi. destruct (entriesByCallId s !! c) as [l|] eqn:E;
        [|destruct Hi].
      destruct (HS _ _ _ E Hi) as (e' & He' & Hc'). congruence.
    + intros [He Hc]. apply (Permutation_in _ (Permutation_sym Hperm)).
      apply In_omap. exists (id e). split; [|exact He].
      destruct (HC _ _ He) as (l & Hl' & Hin). unfold ids.
      rewrite <- Hc, Hl'. exact Hin.
  - apply (Permutation_NoDup (Permutation_sym Hperm)).
    apply NoDup_omap.
    + intros i i' e Hi Hi'. destruct (Hk _ _ Hi), (Hk _ _ Hi'). congruence.
    + unfold ids. destruct (entriesByCallId s !! c) as [l|] eqn:E;
        [eapply HN; eauto | constructor].
Qed.

Lemma getEntriesForCall_exact_witness :
  logged ({["r1"]} ∪ ({["e1"]} ∪ ∅)) rolledBackLog
  /\ map id (getEntriesForCall "call-1" rolledBackLog) = ["e1"; "r1"]
  /\ List.NoDup (getEntriesForCall "call-1" rolledBackLog).
Proof.
  split; [apply rolledBackLog_logged|]. split; [vm_compute; reflexivity|].
  exact (proj1 (proj2 (getEntriesForCall_exact _ _ "call-1" rolledBackLog_logged))).
Defined.

(** X9. Rolling back is repeatable, and a rollback cannot be rolled back.
    After a successful rollback of an entry, a second rollback of the same
    entry succeeds again and adds a second ROLLBACK entry, while a
    rollback of the ROLLBACK entry itself fails and adds nothing. *)
Theorem rollback_twice (env env' : Env) (auditId confirmedBy : string) (s : Service) :
  entries s !! uuid env = None ->
  success (fst (rollback env auditId confirmedBy s)) = true ->
  let s1 := snd (rollback env auditId confirmedBy s) in
  entries s1 !! uuid env' = None ->
  (success (fst (rollback env' auditId confirmedBy s1)) = true
   /\ size (entries (snd (rollback env' auditId confirmedBy s1)))
      = S (S (size (entries s)))
   /\ exists rb, entries (snd (rollback env' auditId confirmedBy s1)) !! uuid env'
                 = Some rb
                 /\ action rb = ROLLBACK /\ rollbackOf rb = Some auditId)
  /\ (success (fst (rollback env' (uuid env) confirmedBy s1)) = false
      /\ snd (rollback env' (uuid env) confirmedBy s1) = s1).
Proof.
  intros Hfresh Hok s1 Hfresh'.
  destruct (rollback_service env auditId confirmedBy s)
    as [[Hf _] | (o & Hen & Ho & Hact & _ & Hs1)]; [congruence|].
  fold s1 in Hs1.
  assert (Hne : auditId <> uuid env) by (intros ->; congruence).
  assert (Hen1 : enableRollback (config s1) = true) by (rewrite Hs1; exact Hen).
  assert (Ho1 : entries s1 !! auditId = Some o).
  { rewrite Hs1, addEntry_lookup. simpl.
    destruct (decide (uuid env = auditId)); [congruence | exact Ho]. }
  assert (Hrb1 : entries s1 !! uuid env
                 = Some (rollbackEntryFor env auditId confirmedBy o)).
  { rewrite Hs1, addEntry_lookup. simpl.
    destruct (decide (uuid env = uuid env)); [reflexivity | congruence]. }
  assert (Hsize1 : size (entries s1) = S (size (entries s))).
  { rewrite Hs1. unfold addEntry; simpl. now apply map_size_insert_None. }
  split.
  - destruct (rollback_service env' auditId confirmedBy s1)
      as [[Hf Hsame] | (o' & _ & Ho' & _ & Hok' & Hs2)].
    + exfalso. unfold rollback in Hf. rewrite Hen1, Ho1 in Hf. simpl in Hf.
      apply rollbackable_iff in Hact. rewrite Hact in Hf. simpl in Hf.
      destruct (addEntry _ _ _). discriminate.
    + split; [exact Hok'|]. rewrite Hs2. split.
      * unfold addEntry; simpl. rewrite map_size_insert_None by exact Hfresh'.
        now rewrite Hsize1.
      * eexists. rewrite addEntry_lookup. simpl.
        destruct (decide (uuid env' = uuid env')); [|congruence].
        split; [reflexivity|]. split; reflexivity.
  - unfold rollback. rewrite Hen1, Hrb1. simpl. split; reflexivity.
Qed.

Lemma rollback_twice_witness :
  entries enabledLog !! uuid env2 = None
  /\ success (fst (rollback env2 "e1" "ann" enabledLog)) = true
  /\ entries rolledBackLog !! uuid env3 = None
  /\ success (fst (rollback env3 "e1" "ann" rolledBackLog)) = true
  /\ size (entries (snd (rollback env3 "e1" "ann" rolledBackLog))) = 3%nat
  /\ success (fst (rollback env3 "r1" "ann" rolledBackLog)) = false.
Proof.
  assert (H1 : entries enabledLog !! uuid env2 = None) by (vm_compute; reflexivity).
  assert (H2 : success (fst (rollback env2 "e1" "ann" enabledLog)) = true)
    by (vm_compute; reflexivity).
  assert (H3 : entries rolledBackLog !! uuid env3 = None) by (vm_compute; reflexivity).
  destruct (rollback_twice env2 env3 "e1" "ann" enabledLog H1 H2 H3)
    as ((Hok & Hsize & _) & (Hfail & _)).
  split; [exact H1|]. split; [exact H2|]. split; [exact H3|].
  split; [exact Hok|]. split; [|exact Hfail].
  transitivity (S (S (size (entries enabledLog))));
    [exact Hsize | vm_compute; reflexivity].
Defined.

(** *** Statistics *)

Lemma statsStep_fold (l : list AuditEntry) (st : AuditStats) :
  let r := fold_left statsStep l st in
  totalEntries r = totalEntries st
  /\ (forall a, entriesByAction r a
                = (entriesByAction st a
                   + countIf (fun e => bool_decide (a = action e)) l)%nat)
  /\ automatedCount r = (automatedCount st + countIf automated l)%nat
  /\ manualCount r = (manualCount st + countIf (fun e => negb (automated e)) l)%nat
  /\ rollbackCount r
     = (rollbackCount st + countIf (fun e => bool_decide (action e = ROLLBACK)) l)%nat
  /\ errorCount r
     = (errorCount st + countIf (fun e => bool_decide (action e = ERROR)) l)%nat.
Proof.
  revert st. induction l as [|e l IH]; intros st; cbv zeta.
  - unfold countIf. simpl. repeat split; intros; lia.
  - simpl fold_left. specialize (IH (statsStep st e)). cbv zeta in IH.
    destruct IH as (H1 & H2 & H3 & H4 & H5 & H6).
    unfold countIf in *. simpl List.filter.
    split; [exact H1|]. split; [|split; [|split; [|split]]].
    + intros a. rewrite H2. simpl.
      destruct (bool_decide (a = action e)); simpl; lia.
    + rewrite H3. simpl. destruct (automated e); simpl; lia.
    + rewrite H4. simpl. destruct (automated e); simpl; lia.
    + rewrite H5. simpl. destruct (bool_decide (action e = ROLLBACK)); simpl; lia.
    + rewrite H6. simpl. destruct (bool_decide (action e = ERROR)); simpl; lia.
Qed.

(** The least and greatest time stamps kept by the loop. *)
Lemma statsStep_range (l : list AuditEntry) (st : AuditStats) :
  let r := fold_left statsStep l st in
  (forall o0, oldestEntry st = Some o0 ->
     exists o, oldestEntry r = Some o /\ (o <= o0)%Z)
  /\ (forall n0, newestEntry st = Some n0 ->
        exists n, newestEntry r = Some n /\ (n0 <= n)%Z)
  /\ (forall e, In e l ->
        exists o n, oldestEntry r = Some o /\ newestEntry r = Some n
                    /\ (o <= timestamp e <= n)%Z)
  /\ (forall o, oldestEntry r = Some o ->
        oldestEntry st = Some o \/ exists e, In e l /\ timestamp e = o)
  /\ (forall n, newestEntry r = Some n ->
        newestEntry st = Some n \/ exists e, In e l /\ timestamp e = n)
  /\ (l = [] -> oldestEntry r = oldestEntry st /\ newestEntry r = newestEntry st).
Proof.
  revert st. induction l as [|e l IH]; intros st; cbv zeta.
  - simpl. split; [eauto with zarith|]. split; [eauto with zarith|].
    split; [intros e []|]. split; [auto|]. split; [auto|]. auto.
  - simpl fold_left. specialize (IH (statsStep st e)). cbv zeta in IH.
    destruct IH as (Ho & Hn & Hin & Hoa & Hna & _).
    assert (Hso : exists o, oldestEntry (statsStep st e) = Some o
                            /\ (o <= timestamp e)%Z
                            /\ (forall o0, oldestEntry st = Some o0 -> (o <= o0)%Z)
                            /\ (oldestEntry st = Some o \/ timestamp e = o)).
    { simpl. destruct (oldestEntry st) as [o0|].
      - destruct (Z.ltb_spec (timestamp e) o0); eexists; split; try reflexivity;
          split; try lia; split; auto; intros o1 H1; inversion H1; lia.
      - eexists. split; [reflexivity|]. split; [lia|]. split; [discriminate | auto]. }
    assert (Hsn : exists n, newestEntry (statsStep st e) = Some n
                            /\ (timestamp e <= n)%Z
                            /\ (forall n0, newestEntry st = Some n0 -> (n0 <= n)%Z)
                            /\ (newestEntry st = Some n \/ timestamp e = n)).
    { simpl. destruct (newestEntry st) as [n0|].
      - destruct (Z.ltb_spec n0 (timestamp e)); eexists; split; try reflexivity;
          split; try lia; split; auto; intros n1 H1; inversion H1; lia.
      - eexists. split; [reflexivity|]. split; [lia|]. split; [discriminate | auto]. }
    destruct Hso as (o1 & Ho1 & Hoe & Hoo & Hoc).
    destruct Hsn as (n1 & Hn1 & Hne & Hnn & Hnc).
    destruct (Ho _ Ho1) as (o & Hro & Hle).
    destruct (Hn _ Hn1) as (n & Hrn & Hge).
    split; [|split; [|split; [|split; [|split]]]].
    + intros o0 H0. exists o. split; [exact Hro|]. specialize (Hoo _ H0). lia.
    + intros n0 H0. exists n. split; [exact Hrn|]. specialize (Hnn _ H0). lia.
    + intros x [<- | Hx]; [|now apply Hin].
      exists o, n. repeat split; auto; lia.
    + intros o' Ho'. destruct (Hoa _ Ho') as [H | (x & Hx & Ht)].
      * rewrite Ho1 in H. inversion H; subst o'.
        destruct Hoc as [Hoc | Hoc];
          [now left | right; exists e; split; [now left | exact Hoc]].
      * right. exists x. split; [now right | exact Ht].
    + intros n' Hn'. destruct (Hna _ Hn') as [H | (x & Hx & Ht)].
      * rewrite Hn1 in H. inversion H; subst n'.
        destruct Hnc as [Hnc | Hnc];
          [now left | right; exists e; split; [now left | exact Hnc]].
      * right. exists x. split; [now right | exact Ht].
    + discriminate.
Qed.

Lemma countIf_split (p : AuditEntry -> bool) (l : list AuditEntry) :
  (countIf p l + countIf (fun e => negb (p e)) l = length l)%nat.
Proof.
  unfold countIf. induction l as [|e l IH]; simpl; [reflexivity|].
  destruct (p e); simpl; lia.
Qed.

Lemma countIf_actions (l : list AuditEntry) :
  (countIf (fun e => bool_decide (STAGE_CHANGE = action e)) l
   + countIf (fun e => bool_decide (DISPOSITION_SET = action e)) l
   + countIf (fun e => bool_decide (NOTE_ADDED = action e)) l
   + countIf (fun e => bool_decide (TASK_CREATED = action e)) l
   + countIf (fun e => bool_decide (FLAG_SET = action e)) l
   + countIf (fun e => bool_decide (CONFIRMATION_REQUIRED = action e)) l
   + countIf (fun e => bool_decide (ROLLBACK = action e)) l
   + countIf (fun e => bool_decide (ERROR = action e)) l
   = length l)%nat.
Proof.
  unfold countIf. induction l as [|e l IH]; simpl; [reflexivity|].
  destruct (action e); simpl; lia.
Qed.

Lemma In_values (s : Service) (e : AuditEntry) :
  In e (snd <$> map_to_list (entries s)) <-> exists i, entries s !! i = Some e.
Proof.
  rewrite <- list_elem_of_In, list_elem_of_fmap. split.
  - intros ([i x] & -> & Hx). apply elem_of_map_to_list in Hx. now exists i.
  - intros (i & Hi). exists (i, e). split; [reflexivity|].
    now apply elem_of_map_to_list.
Qed.

(** X10. The statistics add up. The total is the number of stored
    entries; automated and manual counts sum to it, and so do the counts
    by action; the rollback and error counts are the counts kept for
    ROLLBACK and ERROR; and the oldest and newest time stamps are time
    stamps of stored entries that bound all the others (none when the log
    is empty). *)
Theorem getStats_adds_up (s : Service) :
  let st := getStats s in
  totalEntries st = size (entries s)
  /\ (automatedCount st + manualCount st = totalEntries st)%nat
  /\ (entriesByAction st STAGE_CHANGE + entriesByAction st DISPOSITION_SET
      + entriesByAction st NOTE_ADDED + entriesByAction st TASK_CREATED
      + entriesByAction st FLAG_SET + entriesByAction st CONFIRMATION_REQUIRED
      + entriesByAction st ROLLBACK + entriesByAction st ERROR
      = totalEntries st)%nat
  /\ rollbackCount st = entriesByAction st ROLLBACK
  /\ errorCount st = entriesByAction st ERROR
  /\ (forall i e, entries s !! i = Some e ->
        exists o n, oldestEntry st = Some o /\ newestEntry st = Some n
                    /\ (o <= timestamp e <= n)%Z)
  /\ (forall o, oldestEntry st = Some o -> stampOfSome s o)
  /\ (forall n, newestEntry st = Some n -> stampOfSome s n)
  /\ (entries s = ∅ -> oldestEntry st = None /\ newestEntry st = None).
Proof.
  intros st. subst st. unfold getStats, statsOf.
  set (l := snd <$> map_to_list (entries s)).
  set (st0 := {| totalEntries := length l |}).
  pose proof (statsStep_fold l st0) as Hf. cbv zeta in Hf.
  destruct Hf as (H1 & H2 & H3 & H4 & H5 & H6).
  pose proof (statsStep_range l st0) as Hr. cbv zeta in Hr.
  destruct Hr as (_ & _ & Hin & Hoa & Hna & Hnil).
  assert (Hlen : length l = size (entries s)).
  { unfold l. rewrite length_fmap. apply length_map_to_list. }
  split; [rewrite H1; exact Hlen|].
  split; [rewrite H1, H3, H4; simpl; apply countIf_split|].
  split; [rewrite H1, !H2; simpl; apply countIf_actions|].
  split.
  { rewrite H5, H2. simpl. unfold countIf. f_equal.
    apply filter_ext. intros e. destruct (action e); reflexivity. }
  split.
  { rewrite H6, H2. simpl. unfold countIf. f_equal.
    apply filter_ext. intros e. destruct (action e); reflexivity. }
  split.
  { intros i e He. apply Hin. apply In_values. eauto. }
  split.
  { intros o Ho. destruct (Hoa _ Ho) as [H | (e & He & Ht)]; [discriminate|].
    apply In_values in He as (i & Hi). now exists i, e. }
  split.
  { intros n Hn. destruct (Hna _ Hn) as [H | (e & He & Ht)]; [discriminate|].
    apply In_values in He as (i & Hi). now exists i, e. }
  intros Hempty. apply Hnil. unfold l. rewrite Hempty, map_to_list_empty. reflexivity.
Qed.

(** *** Import *)

Lemma importEntries_lookup (fsOkAt : nat -> bool) (es : list AuditEntry) :
  List.NoDup (map id es) ->
  forall k s,
    fst (importEntries fsOkAt k es s) = length es
    /\ (forall e, In e es ->
          entries (snd (importEntries fsOkAt k es s)) !! id e = Some e)
    /\ (forall i, (forall e, In e es -> id e <> i) ->
          entries (snd (importEntries fsOkAt k es s)) !! i = entries s !! i).
Proof.
  induction es as [|e es IH]; intros Hnd k s; simpl.
  - split; [reflexivity|]. split; [intros e []|]. reflexivity.
  - apply NoDup_cons_iff in Hnd as [Hnotin Hnd].
    specialize (IH Hnd (S k)
                  (snd (addEntry {| uuid := EmptyString; clock := 0; fsOk := fsOkAt k |}
                          e s))).
    destruct (importEntries fsOkAt (S k) es _) as [n s2] eqn:E. simpl in *.
    destruct IH as (Hn & Hin & Hout).
    split; [now rewrite Hn|]. split.
    + intros x [<- | Hx]; [|now apply Hin].
      rewrite Hout.
      * apply lookup_insert_eq.
      * intros y Hy Heq. apply Hnotin. rewrite <- Heq. now apply in_map.
    + intros i Hi. rewrite Hout.
      * apply lookup_insert_ne. apply Hi. now left.
      * intros y Hy. apply Hi. now right.
Qed.

(** X11. Import replays the entries. Importing a list of entries with
    distinct ids into a new log returns their number and makes each
    retrievable by its id; and when the list holds the entries of a log
    whose entries are stored under their own ids, in any order, the
    import rebuilds that log's entry store. *)
Theorem importEntries_restores (fsOkAt : nat -> bool) (es : list AuditEntry)
    (c : PartialConfig) :
  List.NoDup (map id es) ->
  let r := importEntries fsOkAt 0 es (new c) in
  fst r = length es
  /\ (forall e, In e es -> getEntry (id e) (snd r) = Some e)
  /\ (forall s0,
        (forall i e, entries s0 !! i = Some e -> id e = i) ->
        Permutation es (snd <$> map_to_list (entries s0)) ->
        entries (snd r) = entries s0).
Proof.
  intros Hnd r. subst r.
  destruct (importEntries_lookup fsOkAt es Hnd 0%nat (new c)) as (Hn & Hin & Hout).
  split; [exact Hn|]. split; [exact Hin|].
  intros s0 Hkeys Hperm. apply map_eq. intros i.
  destruct (entries s0 !! i) as [e|] eqn:E.
  - assert (He : In e es).
    { apply (Permutation_in _ (Permutation_sym Hperm)). apply In_values. eauto. }
    rewrite <- (Hkeys _ _ E). now apply Hin.
  - rewrite Hout; [apply lookup_empty|].
    intros e He Heq. apply (Permutation_in _ Hperm) in He.
    apply In_values in He as (j & Hj).
    rewrite (Hkeys _ _ Hj) in Heq. congruence.
Qed.

Lemma importEntries_restores_witness :
  List.NoDup (map id (snd <$> map_to_list (entries rolledBackLog)))
  /\ fst (importEntries (fun _ => true) 0
            (snd <$> map_to_list (entries rolledBackLog))
            (new (mkPartial None None None None))) = 2%nat
  /\ entries (snd (importEntries (fun _ => true) 0
                     (snd <$> map_to_list (entries rolledBackLog))
                     (new (mkPartial None None None None))))
     = entries rolledBackLog.
Proof.
  assert (Hnd : List.NoDup (map id (snd <$> map_to_list (entries rolledBackLog)))).
  { vm_compute. repeat constructor; simpl; intuition discriminate. }
  destruct (importEntries_restores (fun _ => true)
              (snd <$> map_to_list (entries rolledBackLog))
              (mkPartial None None None None) Hnd) as (Hn & _ & Hround).
  split; [exact Hnd|]. split.
  - rewrite Hn. vm_compute. reflexivity.
  - apply Hround; [|reflexivity].
    intros i e He.
    destruct (logged_invariants _ _ rolledBackLog_logged) as (Hk & _).
    apply (Hk _ _ He).
Defined.

End AuditMore.

(** ** Alert service: further properties *)

Section AlertMore.
Import Stall Alerts AlertStatements AlertSamples.

#[local] Open Scope Q_scope.

(** X12. In every state that the service can reach, a deal has at most
    one active alert: two listed alerts of the same deal that are both
    unacknowledged and younger than the alert window are the same alert. *)
Theorem reachable_at_most_one_active
    (cfg : AlertServiceConfig) (t : Z) (used : gset string) (s : Service) :
  reachable cfg t used s ->
  forall deal i j,
    activeAlert s t deal i -> activeAlert s t deal j -> i = j.
Proof.
  intros Hreach deal i j Hi Hj.
  destruct (reachable_invariant _ _ _ _ Hreach) as (_ & Hu & _).
  destruct (activeAlert_recent _ _ _ _ Hi) as (ids & Hd & Hin & Hr).
  destruct (activeAlert_recent _ _ _ _ Hj) as (ids' & Hd' & Hin' & Hr').
  rewrite Hd in Hd'. inversion Hd'; subst ids'.
  exact (Hu _ _ _ _ Hd Hin Hin' Hr Hr').
Qed.

Lemma oneAlert_reachable :
  reachable DEFAULT_CONFIG (now envB) ({[uuid envA]} ∪ ∅) oneAlert.
Proof.
  apply (reach_later _ (now envA)); [|vm_compute; discriminate].
  apply reach_generate; [apply reach_new | reflexivity | apply not_elem_of_empty].
Qed.

Lemma oneAlert_active : activeAlert oneAlert (now envB) "deal-1" "a1".
Proof.
  unfold activeAlert. eexists _, _.
  split; [vm_compute; reflexivity|]. split; [now left|].
  split; [vm_compute; reflexivity|]. split; reflexivity.
Qed.

Lemma reachable_at_most_one_active_witness :
  reachable DEFAULT_CONFIG (now envB) ({[uuid envA]} ∪ ∅) oneAlert
  /\ activeAlert oneAlert (now envB) "deal-1" "a1"
  /\ forall j, activeAlert oneAlert (now envB) "deal-1" j -> "a1" = j.
Proof.
  split; [apply oneAlert_reachable|]. split; [apply oneAlert_active|].
  intros j Hj.
  exact (reachable_at_most_one_active _ _ _ _ oneAlert_reachable
           "deal-1" "a1" j oneAlert_active Hj).
Defined.

(** X13. Delivery. An unknown id gives [false] and an acknowledged alert
    gives [true], both leaving the store as it is. Otherwise the alert's
    [deliveredVia] becomes the enabled channels that deliver (the webhook
    only with a configured URL, the others always), the result tells
    whether there is one, and only then is [deliveredAt] set. With the
    webhook as only channel and no URL nothing is delivered. *)
Theorem deliverAlert_outcome (t : Z) (alertId : string) (s : Service) :
  (alerts s !! alertId = None -> deliverAlert t alertId s = (false, s))
  /\ (forall a, alerts s !! alertId = Some a -> acknowledged a = true ->
        deliverAlert t alertId s = (true, s))
  /\ (forall a, alerts s !! alertId = Some a -> acknowledged a = false ->
        let via := List.filter (deliverToChannel (config s))
                               (enabledChannels (config s)) in
        exists a',
          alerts (snd (deliverAlert t alertId s)) !! alertId = Some a'
          /\ deliveredVia a' = via
          /\ (fst (deliverAlert t alertId s) = true <-> via <> [])
          /\ deliveredAt a' = (if fst (deliverAlert t alertId s)
                               then Some t else deliveredAt a)
          /\ acknowledged a' = false
          /\ (forall j, j <> alertId ->
                alerts (snd (deliverAlert t alertId s)) !! j = alerts s !! j)
          /\ alertsByDeal (snd (deliverAlert t alertId s)) = alertsByDeal s
          /\ (enabledChannels (config s) = [CH_WEBHOOK] ->
              truthyStr (webhookUrl (config s)) = false ->
              fst (deliverAlert t alertId s) = false)).
Proof.
  unfold deliverAlert. split; [|split].
  - intros ->. reflexivity.
  - intros a -> ->. reflexivity.
  - intros a Ha Hack. cbv zeta. rewrite Ha, Hack. cbn [fst snd alerts alertsByDeal].
    set (via := List.filter _ _).
    assert (Hlast : enabledChannels (config s) = [CH_WEBHOOK] ->
                    truthyStr (webhookUrl (config s)) = false -> via = []).
    { intros Hch Hurl. subst via. rewrite Hch. simpl. now rewrite Hurl. }
    clearbody via.
    eexists. split; [apply lookup_insert_eq|]. simpl.
    split; [reflexivity|]. split.
    { destruct via as [|c via]; cbn; split; intros H; try discriminate;
        try reflexivity. now contradiction H. }
    split. { destruct via; reflexivity. }
    split; [exact Hack|]. split.
    { intros j Hj. now apply lookup_insert_ne. }
    split; [reflexivity|].
    intros Hch Hurl. now rewrite (Hlast Hch Hurl).
Qed.

Lemma deliverAlert_outcome_witness :
  alerts oneAlert !! "a1" <> None
  /\ fst (deliverAlert (now envB) "a1" oneAlert) = false
  /\ deliverAlert (now envB) "nope" oneAlert = (false, oneAlert).
Proof.
  destruct (deliverAlert_outcome (now envB) "a1" oneAlert) as (_ & _ & Hdel).
  destruct (deliverAlert_outcome (now envB) "nope" oneAlert) as (Hnone & _).
  assert (Ha : exists a, alerts oneAlert !! "a1" = Some a /\ acknowledged a = false).
  { eexists. split; [vm_compute; reflexivity | reflexivity]. }
  destruct Ha as (a & Ha & Hack).
  split; [rewrite Ha; discriminate|]. split.
  - destruct (Hdel a Ha Hack) as (a' & _ & _ & _ & _ & _ & _ & _ & Hno).
    apply Hno; reflexivity.
  - apply Hnone. vm_compute. reflexivity.
Defined.

Lemma processOne_counts (acc : BatchResult * Service) (input : Env * StallStatus) :
  let r := fst (processOne acc input) in
  (generated r + skipped r = S (generated (fst acc) + skipped (fst acc)))%nat
  /\ (delivered (fst acc) <= delivered r)%nat
  /\ (delivered r - delivered (fst acc) <= generated r - generated (fst acc))%nat
  /\ (generated (fst acc) <= generated r)%nat.
Proof.
  destruct acc as [counts s], input as [env status]. unfold processOne.
  destruct (generateAlert env status s) as [[alert|] s1].
  - destruct (deliverAlert (now env) (al_id alert) s1) as [[] s2]; simpl; lia.
  - simpl. lia.
Qed.

(** X14. The batch counts add up: every status is either generated or
    skipped, and no more alerts are delivered than were generated. *)
Theorem processStallStatuses_counts (inputs : list (Env * StallStatus)) (s : Service) :
  let r := fst (processStallStatuses inputs s) in
  (generated r + skipped r = length inputs)%nat
  /\ (delivered r <= generated r)%nat.
Proof.
  unfold processStallStatuses.
  set (acc0 := ({| generated := 0; delivered := 0; skipped := 0 |}, s)).
  assert (H : forall l acc,
            let r := fst (fold_left processOne l acc) in
            (generated r + skipped r
             = generated (fst acc) + skipped (fst acc) + length l)%nat
            /\ (delivered r - delivered (fst acc)
                <= generated r - generated (fst acc))%nat
            /\ (delivered (fst acc) <= delivered r)%nat
            /\ (generated (fst acc) <= generated r)%nat).
  { induction l as [|x l IH]; intros acc; cbv zeta; simpl.
    - lia.
    - specialize (IH (processOne acc x)). cbv zeta in IH.
      pose proof (processOne_counts acc x) as Hx. cbv zeta in Hx. lia. }
  specialize (H inputs acc0). cbv zeta in H. simpl in H. cbv zeta. lia.
Qed.

(** X15. Recipients. Every generated alert goes to the deal's owner,
    named first; a manager is the only other recipient there can be, and
    is one exactly when the status has a manager id and the priority is
    URGENT with escalation on, or HIGH. *)
Theorem generateAlert_recipients (env : Env) (status : StallStatus) (s : Service)
    (alert : StallAlert) (s' : Service) :
  generateAlert env status s = (Some alert, s') ->
  let escalated :=
    (bool_decide (priority alert = P_URGENT) && escalateToBothOnCritical (config s)
     || bool_decide (priority alert = P_HIGH))
    && truthyStr (managerId status) in
  priority alert = mapSeverityToPriority (severity status)
  /\ (if escalated
      then exists m, recipients alert = [repRecipient status; m]
                     /\ r_type m = MANAGER
                     /\ Some (r_id m) = managerId status
      else recipients alert = [repRecipient status]).
Proof.
  intros Hg.
  destruct (generateAlert_cases env status s) as [Hn | (_ & _ & a & s2 & Hs & _)];
    [congruence|].
  unfold generateAlert in Hg.
  destruct (isStalled status); simpl in Hg; [|discriminate].
  destruct (existsb _ _); [discriminate|].
  inversion Hg; subst alert s'. clear Hg Hs. simpl.
  split; [reflexivity|].
  unfold determineRecipientType, buildRecipients, repRecipient.
  destruct (mapSeverityToPriority (severity status));
    destruct (escalateToBothOnCritical (config s));
    destruct (managerId status) as [m|] eqn:Em; simpl;
    try reflexivity;
    destruct (negb (String.eqb m "")) eqn:E; simpl; try reflexivity;
    eexists; (split; [reflexivity|]); split; reflexivity.
Qed.

Lemma generateAlert_recipients_witness :
  exists alert s',
    generateAlert envA stalledStatus (new DEFAULT_CONFIG) = (Some alert, s')
    /\ priority alert = P_HIGH
    /\ map r_id (recipients alert) = ["rep-1"; "mgr-1"].
Proof.
  assert (Hg : exists alert s',
             generateAlert envA stalledStatus (new DEFAULT_CONFIG) = (Some alert, s')).
  { eexists _, _. vm_compute. reflexivity. }
  destruct Hg as (alert & s' & Hg). exists alert, s'.
  split; [exact Hg|].
  destruct (generateAlert_recipients _ _ _ _ _ Hg) as [Hp Hr].
  assert (Hprio : priority alert = P_HIGH) by (rewrite Hp; reflexivity).
  split; [exact Hprio|].
  rewrite Hprio in Hr. simpl in Hr. destruct Hr as (m & -> & _ & Hm).
  simpl. inversion Hm. reflexivity.
Defined.

End AlertMore.

Section AlertCleanup.
Import Stall Alerts AlertStatements AlertSamples.

Variable t : Z.

Lemma filter_filter_andb {A} (f g : A -> bool) (l : list A) :
  List.filter f (List.filter g l) = List.filter (fun x => f x && g x) l.
Proof.
  induction l as [|x l IH]; simpl; [reflexivity|].
  destruct (g x); simpl; rewrite ?andb_true_r, ?andb_false_r;
    [destruct (f x)|]; now rewrite IH.
Qed.

Lemma omap_filter_agree {A B} (f g : A -> option B) (p : A -> bool)
    (q : B -> bool) (ids : list A) :
  (forall i, p i = true ->
     f i = match g i with
           | Some a => if q a then Some a else None
           | None => None
           end) ->
  (forall i, p i = false ->
     match g i with Some a => q a = false | None => True end) ->
  omap f (List.filter p ids) = List.filter q (omap g ids).
Proof.
  intros Hkeep Hdrop.
  assert (Hc : forall (h : A -> option B) x l,
            omap h (x :: l)
            = match h x with Some y => y :: omap h l | None => omap h l end)
    by reflexivity.
  induction ids as [|i ids IH]; [reflexivity|].
  cbn [List.filter]. rewrite (Hc g). destruct (p i) eqn:Ep.
  - rewrite (Hc f), (Hkeep i Ep), IH.
    destruct (g i) as [a|]; [|reflexivity].
    cbn [List.filter]. now destruct (q a).
  - rewrite IH. specialize (Hdrop i Ep).
    destruct (g i) as [a|]; [|reflexivity].
    cbn [List.filter]. now rewrite Hdrop.
Qed.

Lemma cleanupStep_expired_index (k : string) (a : StallAlert) (n : nat)
    (s : Service) (d : string) :
  expired t a = true ->
  default [] (alertsByDeal (snd (cleanupStep t (k, a) (n, s))) !! d)
  = if String.eqb (al_dealId a) d
    then List.filter (fun i => negb (String.eqb i k)) (default [] (alertsByDeal s !! d))
    else default [] (alertsByDeal s !! d).
Proof.
  intros He. unfold cleanupStep. fold (expired t a). rewrite He. simpl.
  destruct (String.eqb_spec (al_dealId a) d) as [<-|Hne].
  - destruct (alertsByDeal s !! al_dealId a) as [ids|] eqn:E; simpl.
    + destruct (List.filter _ ids) as [|x f] eqn:Ef; simpl.
      * now rewrite lookup_delete_eq.
      * now rewrite lookup_insert_eq.
    + now rewrite E.
  - destruct (alertsByDeal s !! al_dealId a) as [ids|] eqn:E; simpl;
      [|reflexivity].
    destruct (0 <? length _)%nat.
    + now rewrite lookup_insert_ne.
    + now rewrite lookup_delete_ne.
Qed.

Lemma cleanup_fold (s : Service) (l : list (string * StallAlert)) :
  List.NoDup (map fst l) ->
  (forall k a, In (k, a) l -> alerts s !! k = Some a) ->
  let r := foldr (cleanupStep t) (0%nat, s) l in
  (forall i a, alerts (snd r) !! i = Some a <->
     alerts s !! i = Some a /\ ~ (In (i, a) l /\ expired t a = true))
  /\ (fst r + size (alerts (snd r)) = size (alerts s))%nat
  /\ (forall d, default [] (alertsByDeal (snd r) !! d)
                = List.filter (keep t l d) (default [] (alertsByDeal s !! d))).
Proof.
  induction l as [|[k a] l IH]; intros Hnd Hin; cbv zeta.
  - simpl. split; [|split].
    + intros i a. tauto.
    + reflexivity.
    + intros d. unfold keep. simpl.
      induction (default [] (alertsByDeal s !! d)) as [|x ids IHd];
        simpl; congruence.
  - inversion Hnd as [|? ? Hk Hnd']; subst.
    assert (Hin' : forall k' a', In (k', a') l -> alerts s !! k' = Some a')
      by (intros; apply Hin; now right).
    specialize (IH Hnd' Hin'). cbv zeta in IH.
    destruct IH as (IHa & IHn & IHd).
    assert (Hka : alerts s !! k = Some a) by (apply Hin; now left).
    assert (Hnot : forall b, ~ In (k, b) l).
    { intros b Hb. apply Hk. change k with (fst (k, b)). now apply in_map. }
    change (foldr (cleanupStep t) (0%nat, s) ((k, a) :: l))
      with (cleanupStep t (k, a) (foldr (cleanupStep t) (0%nat, s) l)).
    destruct (foldr (cleanupStep t) (0%nat, s) l) as [n s1] eqn:E.
    simpl in IHa, IHn, IHd.
    destruct (expired t a) eqn:He.
    + split; [|split].
      * intros i b. unfold cleanupStep. fold (expired t a). rewrite He. simpl.
        rewrite lookup_delete_Some, IHa. split.
        -- intros (Hne & Hs & Hn). split; [exact Hs|].
           intros ([Heq | Hl] & Hb); [inversion Heq; congruence|].
           apply Hn. now split.
        -- intros (Hs & Hn). split; [|split; [exact Hs|]].
           ++ intros <-. apply Hn. rewrite Hka in Hs. inversion Hs; subst b.
              split; [now left | exact He].
           ++ intros (Hl & Hb). apply Hn. split; [now right | exact Hb].
      * assert (Hs1 : alerts s1 !! k = Some a).
        { apply IHa. split; [exact Hka|]. intros (Hl & _). now apply (Hnot a). }
        unfold cleanupStep. fold (expired t a). rewrite He. simpl.
        rewrite map_size_delete_Some by (now exists a).
        assert (size (alerts s1) <> 0)%nat.
        { intros H0. apply map_size_empty_inv in H0. rewrite H0 in Hs1.
          rewrite lookup_empty in Hs1. discriminate. }
        lia.
      * intros d. rewrite (cleanupStep_expired_index k a n s1 d He), IHd.
        unfold keep at 3. simpl. rewrite He.
        destruct (String.eqb (al_dealId a) d).
        -- rewrite filter_filter_andb. apply filter_ext. intros i.
           unfold keep. now rewrite negb_orb, !andb_true_r.
        -- apply filter_ext. intros i. unfold keep.
           now rewrite ?andb_false_r.
    + assert (Hstep : cleanupStep t (k, a) (n, s1) = (n, s1)).
      { unfold cleanupStep. fold (expired t a). now rewrite He. }
      rewrite Hstep. simpl. split; [|split].
      * intros i b. rewrite IHa. split.
        -- intros (Hs & Hn). split; [exact Hs|].
           intros ([Heq | Hl] & Hb); [inversion Heq; congruence|].
           apply Hn. now split.
        -- intros (Hs & Hn). split; [exact Hs|].
           intros (Hl & Hb). apply Hn. split; [now right | exact Hb].
      * exact IHn.
      * intros d. rewrite IHd. apply filter_ext. intros i.
        unfold keep. simpl. now rewrite He, andb_false_r.
Qed.

Lemma keep_all (s : Service) (d i : string) :
  keep t (map_to_list (alerts s)) d i = false <->
  exists a, alerts s !! i = Some a /\ expired t a = true /\ al_dealId a = d.
Proof.
  unfold keep. rewrite negb_false_iff, existsb_exists. split.
  - intros ([k a] & Hin & H). simpl in H.
    apply andb_true_iff in H as [H Hd]. apply andb_true_iff in H as [Hk He].
    apply String.eqb_eq in Hk, Hd. subst k.
    exists a. split; [|now split].
    apply elem_of_map_to_list. now apply list_elem_of_In.
  - intros (a & Ha & He & Hd). exists (i, a). split.
    + apply list_elem_of_In. now apply elem_of_map_to_list.
    + simpl. rewrite He, String.eqb_refl. simpl. now apply String.eqb_eq.
Qed.

(** X16. [cleanupExpiredAlerts] removes exactly the expired alerts: an
    alert is stored afterwards if and only if it was stored and has not
    expired, the count returned is the number of alerts removed, and every
    deal lists its unexpired alerts in the order it had them. *)
Theorem cleanupExpiredAlerts_exact (s : Service) :
  let r := cleanupExpiredAlerts t s in
  (forall i a, alerts (snd r) !! i = Some a <->
     alerts s !! i = Some a /\ (expiresAt a <? t)%Z = false)
  /\ (fst r + size (alerts (snd r)) = size (alerts s))%nat
  /\ (forall d, getAlertsForDeal d (snd r)
                = List.filter (fun a => negb (expiresAt a <? t)%Z)
                              (getAlertsForDeal d s)).
Proof.
  cbv zeta. unfold cleanupExpiredAlerts.
  assert (Hnd : List.NoDup (map fst (map_to_list (alerts s)))).
  { apply NoDup_ListNoDup. apply NoDup_fst_map_to_list. }
  assert (Hin : forall k a, In (k, a) (map_to_list (alerts s)) ->
                            alerts s !! k = Some a).
  { intros k a H. apply elem_of_map_to_list. now apply list_elem_of_In. }
  destruct (cleanup_fold s _ Hnd Hin) as (Ha & Hn & Hd).
  set (r := foldr (cleanupStep t) (0%nat, s) (map_to_list (alerts s))) in *.
  assert (Ha' : forall i a, alerts (snd r) !! i = Some a <->
                  alerts s !! i = Some a /\ expired t a = false).
  { intros i a. rewrite Ha. split; intros (Hs & Hx); (split; [exact Hs|]).
    - destruct (expired t a); [|reflexivity]. exfalso. apply Hx.
      split; [|reflexivity]. apply list_elem_of_In. now apply elem_of_map_to_list.
    - intros (_ & He). congruence. }
  split; [exact Ha'|]. split; [exact Hn|].
  intros d. unfold getAlertsForDeal. rewrite Hd.
  apply omap_filter_agree.
  - intros i _. destruct (alerts s !! i) as [a|] eqn:Ei.
    + fold (expired t a). destruct (expired t a) eqn:He; simpl.
      * destruct (alerts (snd r) !! i) as [b|] eqn:Eb; [|reflexivity].
        apply Ha' in Eb as [Hb Hx]. congruence.
      * apply Ha'. now split.
    + destruct (alerts (snd r) !! i) as [b|] eqn:Eb; [|reflexivity].
      apply Ha' in Eb as [Hb Hx]. congruence.
  - intros i Ek. apply keep_all in Ek as (a & Hs & He & _).
    rewrite Hs. fold (expired t a). now rewrite He.
Qed.

End AlertCleanup.

Section AlertLifecycle.
Import Stall Alerts AlertStatements AlertSamples.

Lemma omap_cons_eq {A B} (f : A -> option B) (x : A) (l : list A) :
  omap f (x :: l)
  = match f x with Some y => y :: omap f l | None => omap f l end.
Proof. reflexivity. Qed.

Lemma omap_app_one {A B} (f : A -> option B) (l : list A) (x : A) (y : B) :
  f x = Some y -> omap f (l ++ [x]) = omap f l ++ [y].
Proof.
  intros Hx. induction l as [|i l IH]; cbn [app].
  - now rewrite omap_cons_eq, Hx.
  - rewrite !omap_cons_eq, IH. now destruct (f i).
Qed.

Lemma omap_ext_in {A B} (f g : A -> option B) (l : list A) :
  (forall i, In i l -> f i = g i) -> omap f l = omap g l.
Proof.
  induction l as [|i l IH]; intros H; [reflexivity|].
  rewrite !omap_cons_eq, (H i) by now left.
  rewrite IH by (intros; apply H; now right).
  reflexivity.
Qed.

(** X17. A generated alert is stored under the fresh id it was given and
    comes last among the alerts of its deal; the alerts of the other
    deals are as they were. *)
Theorem generateAlert_stored (env : Env) (status : StallStatus) (s : Service)
    (alert : StallAlert) (s' : Service) :
  generateAlert env status s = (Some alert, s') ->
  alerts s !! uuid env = None ->
  (forall d ids, alertsByDeal s !! d = Some ids -> ~ In (uuid env) ids) ->
  al_id alert = uuid env
  /\ getAlert (al_id alert) s' = Some alert
  /\ getAlertsForDeal (dealId status) s'
     = getAlertsForDeal (dealId status) s ++ [alert]
  /\ (forall d, d <> dealId status ->
        getAlertsForDeal d s' = getAlertsForDeal d s).
Proof.
  intros Hg Hfresh Hunlisted.
  unfold generateAlert in Hg.
  destruct (isStalled status); simpl in Hg; [|discriminate].
  destruct (existsb _ _); [discriminate|].
  inversion Hg as [[Ha Hs]]. clear Hg.
  set (al := {| al_id := uuid env |}) in *.
  assert (Hold : forall d i, In i (default [] (alertsByDeal s !! d)) ->
                   <[uuid env := al]> (alerts s) !! i = alerts s !! i).
  { intros d i Hi. apply lookup_insert_ne. intros <-.
    destruct (alertsByDeal s !! d) as [ids|] eqn:E; simpl in Hi; [|contradiction].
    exact (Hunlisted d ids E Hi). }
  split; [reflexivity|]. split; [|split].
  - unfold getAlert. simpl. apply lookup_insert_eq.
  - unfold getAlertsForDeal. simpl. rewrite lookup_insert_eq. simpl.
    rewrite (omap_app_one _ _ _ al) by apply lookup_insert_eq.
    f_equal. apply omap_ext_in. intros i Hi. exact (Hold _ i Hi).
  - intros d Hd. unfold getAlertsForDeal. simpl.
    rewrite lookup_insert_ne by congruence.
    apply omap_ext_in. intros i Hi. exact (Hold _ i Hi).
Qed.

Lemma generateAlert_stored_witness :
  exists alert s',
    generateAlert envB stalledStatus (new DEFAULT_CONFIG) = (Some alert, s')
    /\ al_id alert = "a2"
    /\ getAlertsForDeal "deal-1" s' = [alert].
Proof.
  assert (Hg : exists alert s',
             generateAlert envB stalledStatus (new DEFAULT_CONFIG) = (Some alert, s')).
  { eexists _, _. vm_compute. reflexivity. }
  destruct Hg as (alert & s' & Hg). exists alert, s'.
  split; [exact Hg|].
  assert (Hfresh : alerts (new DEFAULT_CONFIG) !! uuid envB = None)
    by apply lookup_empty.
  assert (Hun : forall d ids, alertsByDeal (new DEFAULT_CONFIG) !! d = Some ids ->
                              ~ In (uuid envB) ids).
  { intros d ids H. simpl in H. rewrite lookup_empty in H. discriminate. }
  destruct (generateAlert_stored _ _ _ _ _ Hg Hfresh Hun) as (Hid & _ & Hl & _).
  split; [exact Hid | exact Hl].
Defined.

(** X18. Acknowledging reopens the deal. In a reachable state, once the
    active alert of a deal is acknowledged, the next stalled status of
    that deal produces a new alert, within the alert window too. *)
Theorem acknowledge_then_generate
    (cfg : AlertServiceConfig) (used : gset string) (s : Service)
    (deal i acknowledgedBy : string) (env : Env) (status : StallStatus) :
  reachable cfg (now env) used s ->
  activeAlert s (now env) deal i ->
  dealId status = deal ->
  isStalled status = true ->
  exists alert s',
    generateAlert env status
      (snd (acknowledgeAlert (now env) i acknowledgedBy s)) = (Some alert, s')
    /\ generateAlert env status s = (None, s).
Proof.
  intros Hreach Hact Hdeal Hst.
  destruct (reachable_invariant _ _ _ _ Hreach) as (_ & Hone & _).
  destruct (activeAlert_recent _ _ _ _ Hact) as (ids & Hd & Hin & Hr).
  unfold generateAlert. cbv zeta. rewrite Hst. cbn [negb].
  destruct (acknowledgeAlert_index (now env) i acknowledgedBy s) as [Hidx _].
  rewrite Hidx, Hdeal, Hd. change (default [] (Some ids)) with ids.
  assert (Hnone : existsb (recentUnackedAt
                    (snd (acknowledgeAlert (now env) i acknowledgedBy s)) (now env))
                    ids = false).
  { destruct (existsb _ ids) eqn:Ex; [|reflexivity].
    apply existsb_exists in Ex as (j & Hj & Hrj).
    apply acknowledgeAlert_recent in Hrj as [Hne Hrj].
    exfalso. apply Hne. exact (Hone _ _ _ _ Hd Hj Hin Hrj Hr). }
  assert (Hsome : existsb (recentUnackedAt s (now env)) ids = true).
  { apply existsb_exists. now exists i. }
  rewrite Hnone, Hsome. eexists _, _. split; reflexivity.
Qed.

Lemma acknowledge_then_generate_witness :
  exists alert s',
    generateAlert envB stalledStatus
      (snd (acknowledgeAlert (now envB) "a1" "rita" oneAlert)) = (Some alert, s')
    /\ generateAlert envB stalledStatus oneAlert = (None, oneAlert).
Proof.
  apply (acknowledge_then_generate DEFAULT_CONFIG ({[uuid envA]} ∪ ∅) oneAlert
           "deal-1" "a1" "rita" envB stalledStatus).
  - apply (reach_later _ (now envA)); [|vm_compute; discriminate].
    apply reach_generate; [apply reach_new | reflexivity | apply not_elem_of_empty].
  - unfold activeAlert. eexists _, _.
    split; [vm_compute; reflexivity|]. split; [now left|].
    split; [vm_compute; reflexivity|]. split; reflexivity.
  - reflexivity.
  - reflexivity.
Defined.

End AlertLifecycle.

(** ** Stall detector: further properties *)

Section DetectorMatches.
Import Stall Regex StallDetector StallStatements.

Lemma length_string_of_list_ascii (l : list ascii) :
  String.length (string_of_list_ascii l) = length l.
Proof. induction l as [|c l IH]; simpl; congruence. Qed.

Lemma length_list_ascii_of_string (s : string) :
  length (list_ascii_of_string s) = String.length s.
Proof. induction s as [|c s IH]; simpl; congruence. Qed.

Lemma substring_firstn_skipn (n m : nat) (s : string) :
  String.substring n m s
  = string_of_list_ascii (firstn m (skipn n (list_ascii_of_string s))).
Proof.
  revert n m. induction s as [|c s IH]; intros n m.
  - destruct n, m; reflexivity.
  - destruct n as [|n].
    + destruct m as [|m]; [reflexivity|]. simpl. now rewrite IH.
    + simpl. apply IH.
Qed.

Lemma skipn_cons_S {A} (n : nat) (full : list A) (c : A) (s : list A) :
  skipn n full = c :: s ->
  skipn (S n) full = s /\ (n < length full)%nat.
Proof.
  revert full. induction n as [|n IH]; intros full H.
  - change (full = c :: s) in H. rewrite H. simpl. split; [reflexivity | lia].
  - destruct full as [|x full]; [discriminate|].
    change (skipn n full = c :: s) in H.
    apply IH in H as [H Hlt]. split; [exact H | simpl; lia].
Qed.

(** What [exec] reports is what stands in the text. *)
Lemma execAll_located (re : RegExp) (full : list ascii) :
  forall (s : list ascii) (prev : option ascii) (pos skip : nat)
         (l : list MatchResult),
    s = skipn pos full ->
    execAll re prev s pos skip = Some l ->
    Forall (fun m =>
              text m = string_of_list_ascii
                         (firstn (String.length (text m)) (skipn (index m) full))
              /\ (0 < String.length (text m))%nat
              /\ (index m + String.length (text m) <= length full)%nat) l.
Proof.
  induction s as [|c s IH]; intros prev pos skip l Hs H.
  - destruct skip; simpl in H.
    + destruct (matchAt _ _ _ _ _) as [rest|]; simpl in H.
      * discriminate.
      * inversion H. constructor.
    + inversion H. constructor.
  - symmetry in Hs. destruct (skipn_cons_S _ _ _ _ Hs) as [Hs' Hlt].
    destruct skip as [|skip].
    + cbn [execAll] in H.
      destruct (matchAt _ _ _ _ _) as [rest|].
      * destruct (length (c :: s) - length rest)%nat as [|len'] eqn:El;
          [discriminate|].
        destruct (execAll re (Some c) s (S pos) len') as [l'|] eqn:E;
          [|discriminate].
        cbv [fmap option_fmap option_map] in H. inversion H; subst l. clear H.
        constructor; [|exact (IH _ _ _ _ (eq_sym Hs') E)].
        cbn [text index].
        change (String c (string_of_list_ascii (firstn len' s)))
          with (string_of_list_ascii (firstn (S len') (c :: s))).
        assert (Hlen : length (firstn (S len') (c :: s)) = S len').
        { apply firstn_length_le. lia. }
        rewrite length_string_of_list_ascii, Hlen, Hs.
        split; [reflexivity|]. split; [lia|].
        assert (length (c :: s) = length full - pos)%nat
          by (rewrite <- Hs; apply length_skipn).
        lia.
      * exact (IH _ _ _ _ (eq_sym Hs') H).
    + exact (IH _ _ _ _ (eq_sym Hs') H).
Qed.

Lemma matchesOf_located (content : string) (p : PhrasePattern)
    (ms : list StallPhraseMatch) :
  matchesOf content p = Some ms ->
  Forall (fun m => located content m
                   /\ phrase m = phraseLabel p
                   /\ category m = pp_category p
                   /\ m_confidence m = pp_baseConfidence p
                   /\ context m = extractContext content (position m) 100) ms.
Proof.
  unfold matchesOf, matchAll.
  destruct (execAll _ _ _ _ _) as [l|] eqn:E; [|discriminate].
  intros H. inversion H; subst ms. clear H.
  apply (execAll_located _ (list_ascii_of_string content)) in E; [|reflexivity].
  induction E as [|r l (Ht & Hpos & Hle) _ IH]; simpl; constructor; [|exact IH].
  unfold located. cbn [matchedText position phrase category m_confidence context].
  rewrite length_list_ascii_of_string in Hle.
  rewrite substring_firstn_skipn, <- Ht.
  auto 10.
Qed.

Lemma collect_located (content : string) (patterns : list PhrasePattern)
    (ms : list StallPhraseMatch) :
  collect content patterns = Some ms ->
  Forall (fun m => located content m
                   /\ exists p, In p patterns
                        /\ phrase m = phraseLabel p
                        /\ category m = pp_category p
                        /\ m_confidence m = pp_baseConfidence p
                        /\ context m = extractContext content (position m) 100) ms.
Proof.
  revert ms. induction patterns as [|p patterns IH]; intros ms H; simpl in H.
  - inversion H. constructor.
  - destruct (matchesOf content p) as [ms1|] eqn:E1; [|discriminate].
    destruct (collect content patterns) as [ms2|]; [|discriminate].
    simpl in H. inversion H; subst ms. apply Forall_app. split.
    + apply matchesOf_located in E1.
      eapply List.Forall_impl; [|exact E1].
      intros m (Hl & H1 & H2 & H3 & H4). split; [exact Hl|].
      exists p. split; [now left | auto].
    + eapply List.Forall_impl; [|exact (IH _ eq_refl)].
      intros m (Hl & q & Hq & Hrest). split; [exact Hl|].
      exists q. split; [now right | exact Hrest].
Qed.

(** X19. [detectPhrases] returns on every text. Its matches come in the
    order of their positions; each carries the label, category and
    confidence of a pattern of the table, and its matched text is the
    non-empty piece of the text that stands at its position. *)
Theorem detectPhrases_sorted_located (content : string) :
  exists matches,
    detectPhrases content = Some matches
    /\ Sorted (fun a b => (position a <= position b)%nat) matches
    /\ Forall (fun m => located content m /\ fromTable content m) matches.
Proof.
  unfold detectPhrases.
  destruct (collect_total content _ STALL_PATTERNS_consume) as [ms Hms].
  rewrite Hms. simpl. eexists. split; [reflexivity|]. split.
  - eapply Sorted_weaken; [|apply stable_sort_sorted].
    + intros a b H. unfold byPosition in H. apply Nat.ltb_ge in H. exact H.
    + intros a b H. unfold byPosition in *. apply Nat.ltb_lt in H.
      apply Nat.ltb_ge. lia.
  - apply collect_located in Hms.
    eapply Permutation_Forall; [symmetry; apply stable_sort_perm|].
    exact Hms.
Qed.

End DetectorMatches.

Section DetectorGroups.
Import Stall Regex StallDetector StallStatements.

#[local] Open Scope Q_scope.

Lemma groupMatchesByCategory_snoc (l : list StallPhraseMatch) (m : StallPhraseMatch) :
  groupMatchesByCategory (l ++ [m]) = addToGroup m (groupMatchesByCategory l).
Proof. unfold groupMatchesByCategory. now rewrite fold_left_app. Qed.

Lemma groupOf_addToGroup (c : StallPhraseCategory) (m : StallPhraseMatch)
    (g : list (StallPhraseCategory * list StallPhraseMatch)) :
  groupOf c (addToGroup m g)
  = if bool_decide (category m = c)
    then Some (default [] (groupOf c g) ++ [m])
    else groupOf c g.
Proof.
  induction g as [|[c' ms] g IH]; simpl.
  - destruct (bool_decide (category m = c)); reflexivity.
  - destruct (bool_decide_reflect (c' = category m)) as [-> | Hne]; simpl.
    + destruct (bool_decide (category m = c)); reflexivity.
    + destruct (bool_decide_reflect (c' = c)) as [<- | Hc].
      * destruct (bool_decide_reflect (category m = c')) as [E | _];
          [congruence | reflexivity].
      * exact IH.
Qed.

Lemma keys_addToGroup (k : StallPhraseCategory) (m : StallPhraseMatch)
    (g : list (StallPhraseCategory * list StallPhraseMatch)) :
  In k (map fst (addToGroup m g)) <-> In k (map fst g) \/ k = category m.
Proof.
  induction g as [|[c' ms] g IH]; simpl.
  - split; [intros [<- | []]; now right | intros [[] | ->]; now left].
  - destruct (bool_decide_reflect (c' = category m)) as [-> | Hne]; simpl.
    + split; [tauto | intros [H | ->]; [exact H | now left]].
    + rewrite IH. tauto.
Qed.

Lemma NoDup_addToGroup (m : StallPhraseMatch)
    (g : list (StallPhraseCategory * list StallPhraseMatch)) :
  List.NoDup (map fst g) -> List.NoDup (map fst (addToGroup m g)).
Proof.
  induction g as [|[c' ms] g IH]; simpl; intros Hnd.
  - constructor; [intros [] | constructor].
  - inversion Hnd as [|? ? Hc Hg]; subst.
    destruct (bool_decide_reflect (c' = category m)) as [-> | Hne]; simpl.
    + now constructor.
    + constructor; [|now apply IH].
      rewrite keys_addToGroup. intros [H | H]; [now apply Hc | now apply Hne].
Qed.

Lemma groupOf_In (c : StallPhraseCategory) (ms : list StallPhraseMatch)
    (g : list (StallPhraseCategory * list StallPhraseMatch)) :
  List.NoDup (map fst g) -> (In (c, ms) g <-> groupOf c g = Some ms).
Proof.
  induction g as [|[c' ms'] g IH]; simpl; intros Hnd.
  - split; [intros [] | discriminate].
  - inversion Hnd as [|? ? Hc Hg]; subst.
    destruct (bool_decide_reflect (c' = c)) as [-> | Hne].
    + split.
      * intros [H | H]; [congruence|]. exfalso. apply Hc.
        change c with (fst (c, ms)). now apply in_map.
      * intros H. left. congruence.
    + rewrite <- (IH Hg). split; [intros [H | H]; [congruence | exact H] | tauto].
Qed.

Lemma ofCategory_snoc (c : StallPhraseCategory) (l : list StallPhraseMatch)
    (m : StallPhraseMatch) :
  ofCategory c (l ++ [m])
  = ofCategory c l ++ (if bool_decide (category m = c) then [m] else []).
Proof. unfold ofCategory. now rewrite List.filter_app. Qed.

(** The groups as a map from categories: the matches of the category, in
    their order, when there is one. *)
Lemma groupMatchesByCategory_groupOf (matches : list StallPhraseMatch)
    (c : StallPhraseCategory) :
  List.NoDup (map fst (groupMatchesByCategory matches))
  /\ groupOf c (groupMatchesByCategory matches)
     = match ofCategory c matches with
       | [] => None
       | ms => Some ms
       end.
Proof.
  induction matches as [|m l [IHn IH]] using rev_ind.
  - split; [constructor | reflexivity].
  - rewrite groupMatchesByCategory_snoc. split; [now apply NoDup_addToGroup|].
    rewrite groupOf_addToGroup, ofCategory_snoc, IH.
    destruct (bool_decide (category m = c)).
    + destruct (ofCategory c l) as [|x xs]; reflexivity.
    + now rewrite app_nil_r.
Qed.

(** X20. [groupMatchesByCategory] partitions the matches: the keys are
    distinct, and a group is filed under a category exactly when it is
    the non-empty list of the matches of that category, in their order. *)
Theorem groupMatchesByCategory_partition (matches : list StallPhraseMatch) :
  List.NoDup (map fst (groupMatchesByCategory matches))
  /\ (forall c ms,
        In (c, ms) (groupMatchesByCategory matches) <->
        ms <> [] /\ ms = ofCategory c matches)
  /\ (forall m, In m matches ->
        exists ms, In (category m, ms) (groupMatchesByCategory matches)
                   /\ In m ms).
Proof.
  assert (Hnd : List.NoDup (map fst (groupMatchesByCategory matches)))
    by apply (groupMatchesByCategory_groupOf matches THINKING).
  assert (Hiff : forall c ms,
            In (c, ms) (groupMatchesByCategory matches) <->
            ms <> [] /\ ms = ofCategory c matches).
  { intros c ms. rewrite (groupOf_In c ms _ Hnd).
    destruct (groupMatchesByCategory_groupOf matches c) as [_ ->].
    destruct (ofCategory c matches) as [|x xs]; split.
    - discriminate.
    - intros [Hne ->]. now contradiction Hne.
    - intros H. inversion H. split; [discriminate | reflexivity].
    - intros [_ ->]. reflexivity. }
  split; [exact Hnd|]. split; [exact Hiff|].
  intros m Hm. exists (ofCategory (category m) matches).
  assert (Hin : In m (ofCategory (category m) matches)).
  { apply filter_In. split; [exact Hm | now apply bool_decide_eq_true]. }
  split; [|exact Hin]. apply Hiff. split; [|reflexivity].
  intros E. rewrite E in Hin. contradiction.
Qed.

Lemma groups_nonempty (matches : list StallPhraseMatch) :
  Forall (fun g => snd g <> []) (groupMatchesByCategory matches).
Proof.
  apply List.Forall_forall. intros [c ms] Hin. simpl.
  destruct (groupMatchesByCategory_groupOf matches c) as [Hnd Hg].
  apply (groupOf_In c ms _ Hnd) in Hin. rewrite Hin in Hg.
  destruct (ofCategory c matches); [discriminate|]. inversion Hg. discriminate.
Qed.

(** The reduction picks a match of the list and none has a higher
    confidence. *)
Lemma bestOf_max (rest : list StallPhraseMatch) (first : StallPhraseMatch) :
  In (bestOf first rest) (first :: rest)
  /\ forall m, In m (first :: rest) ->
       m_confidence m <= m_confidence (bestOf first rest).
Proof.
  unfold bestOf. revert first.
  induction rest as [|x rest IH]; intros first; simpl.
  - split; [now left|]. intros m [<- | []]. apply Qle_refl.
  - destruct (Qltb (m_confidence first) (m_confidence x)) eqn:E.
    + destruct (IH x) as [Hin Hmax]. split.
      * right. exact Hin.
      * intros m [<- | Hm]; [|now apply Hmax].
        apply Qltb_lt in E. eapply Qle_trans; [apply Qlt_le_weak, E|].
        apply Hmax. now left.
    + destruct (IH first) as [Hin Hmax]. split.
      * destruct Hin as [<- | Hin]; [now left | right; now right].
      * intros m [<- | [<- | Hm]].
        -- apply Hmax. now left.
        -- apply Qltb_ge in E. eapply Qle_trans; [exact E|].
           apply Hmax. now left.
        -- apply Hmax. now right.
Qed.

End DetectorGroups.

Section EmailSignals.
Import Stall Regex StallDetector StallStatements StallSamples.

Lemma emailSignal_spec (cfg : StallDetectorConfig) (env : Env) (email : EmailContent)
    (content : string) (k : nat) (ms : list StallPhraseMatch) :
  ms <> [] ->
  exists signal,
    emailSignal cfg env email content k ms = Some signal
    /\ sig_id signal = uuidAt env k
    /\ phraseMatches signal = ms
    /\ emailSignalOf cfg env email content signal.
Proof.
  destruct ms as [|m rest]; [congruence|]. intros _.
  eexists. split; [reflexivity|]. split; [reflexivity|]. split; [reflexivity|].
  destruct (bestOf_max rest m) as [Hin Hmax].
  unfold emailSignalOf. cbn [source sourceId sourceTimestamp detectedAt
    phraseMatches baseConfidence rawContent timeDecayedConfidence aggregateStrength].
  repeat (split; [reflexivity|]). split; [|split; [exact Hmax|split; reflexivity]].
  exists (bestOf m rest). split; [exact Hin|]. split; reflexivity.
Qed.

Lemma emailSignals_spec (cfg : StallDetectorConfig) (env : Env) (email : EmailContent)
    (content : string)
    (groups : list (StallPhraseCategory * list StallPhraseMatch)) :
  Forall (fun g => snd g <> []) groups ->
  forall (k : nat) (acc : list StallSignal * gmap string StallSignal),
  exists new,
    emailSignals cfg env email content k groups acc
    = (fst acc ++ new, storeAll new (snd acc))
    /\ map phraseMatches new = map snd groups
    /\ map sig_id new = map (uuidAt env) (List.seq k (length groups))
    /\ Forall (emailSignalOf cfg env email content) new.
Proof.
  induction 1 as [|[c ms] groups Hg _ IH]; intros k acc.
  - exists []. simpl. rewrite app_nil_r. destruct acc.
    split; [reflexivity|]. split; [reflexivity|]. split; [reflexivity|constructor].
  - simpl in Hg.
    destruct (emailSignal_spec cfg env email content k ms Hg)
      as (signal & Hs & Hid & Hpm & Hof).
    cbn [emailSignals]. rewrite Hs.
    destruct (IH (S k) (fst acc ++ [signal], <[sig_id signal := signal]> (snd acc)))
      as (new & Hr & Hmap & Hids & Hall).
    exists (signal :: new). rewrite Hr. cbn [fst snd].
    split; [now rewrite <- app_assoc|]. split; [simpl; congruence|].
    split; [simpl; congruence|]. now constructor.
Qed.

Lemma storeAll_lookup (new : list StallSignal) :
  List.NoDup (map sig_id new) ->
  forall store,
    (forall signal, In signal new -> storeAll new store !! sig_id signal = Some signal)
    /\ (forall i, ~ In i (map sig_id new) -> storeAll new store !! i = store !! i).
Proof.
  unfold storeAll.
  induction new as [|x new IH]; intros Hnd store; simpl.
  - split; [intros ? [] | reflexivity].
  - inversion Hnd as [|? ? Hx Hnd']; subst.
    destruct (IH Hnd' (<[sig_id x := x]> store)) as [Hin Hout]. split.
    + intros signal [<- | Hs]; [|now apply Hin].
      rewrite Hout by exact Hx. apply lookup_insert_eq.
    + intros i Hi. rewrite Hout by tauto. apply lookup_insert_ne. tauto.
Qed.

Lemma NoDup_map_seq {A} (f : nat -> A) (k n : nat) :
  (forall i j, (k <= i < k + n)%nat -> (k <= j < k + n)%nat -> f i = f j -> i = j) ->
  List.NoDup (map f (List.seq k n)).
Proof.
  revert k. induction n as [|n IH]; intros k Hinj; simpl; [constructor|].
  constructor.
  - intros Hin. apply in_map_iff in Hin as (j & Hj & Hin).
    apply in_seq in Hin. apply Hinj in Hj; lia.
  - apply IH. intros i j Hi Hj. apply Hinj; lia.
Qed.

(** X21. An inbound email yields one signal for each category found in
    its subject and body, in the order in which the categories first
    occur. The signal holds all the matches of its category; its base
    confidence is the highest confidence among them. When [uuidv4()]
    gives distinct ids the signals are stored under their ids, and the
    rest of the store is as it was. *)
Theorem analyzeEmail_one_signal_per_category
    (env : Env) (email : EmailContent) (s : Service)
    (matches : list StallPhraseMatch) :
  direction email = INBOUND ->
  detectPhrases (subject email +:+ " " +:+ body email) = Some matches ->
  (forall i j, (i < length (groupMatchesByCategory matches))%nat ->
               (j < length (groupMatchesByCategory matches))%nat ->
               uuidAt env i = uuidAt env j -> i = j) ->
  exists out s',
    analyzeEmail env email s = Some (out, s')
    /\ map phraseMatches out = map snd (groupMatchesByCategory matches)
    /\ Forall (emailSignalOf (config s) env email
                 (subject email +:+ " " +:+ body email)) out
    /\ (forall signal, In signal out -> signals s' !! sig_id signal = Some signal)
    /\ (forall i, ~ In i (map sig_id out) -> signals s' !! i = signals s !! i)
    /\ config s' = config s.
Proof.
  intros Hdir Hdet Huuid. unfold analyzeEmail.
  rewrite Hdir, Hdet. cbn [bool_decide negb].
  rewrite bool_decide_eq_true_2 by reflexivity. cbn [negb].
  destruct (Nat.eqb_spec (length matches) 0) as [Hz | Hnz].
  - destruct matches; [|discriminate]. exists [], s.
    split; [reflexivity|]. split; [reflexivity|]. split; [constructor|].
    split; [intros ? []|]. split; reflexivity.
  - destruct (emailSignals_spec (config s) env email
                (subject email +:+ " " +:+ body email)
                _ (groups_nonempty matches) 0%nat ([], signals s))
      as (new & Hr & Hmap & Hids & Hall).
    rewrite Hr. cbn [fst snd app].
    assert (Hnd : List.NoDup (map sig_id new)).
    { rewrite Hids. apply NoDup_map_seq. intros i j Hi Hj. apply Huuid; lia. }
    destruct (storeAll_lookup new Hnd (signals s)) as [Hin Hout].
    eexists _, _. split; [reflexivity|]. cbn [signals config].
    auto 10.
Qed.

Lemma analyzeEmail_one_signal_per_category_witness :
  exists out s',
    analyzeEmail sampleEnv inboundEmail (new DEFAULT_CONFIG) = Some (out, s')
    /\ length out = 2%nat
    /\ config s' = DEFAULT_CONFIG.
Proof.
  assert (Hdet : exists ms,
             detectPhrases (subject inboundEmail +:+ " " +:+ body inboundEmail)
             = Some ms
             /\ length (groupMatchesByCategory ms) = 2%nat).
  { eexists. split; vm_compute; reflexivity. }
  destruct Hdet as (ms & Hdet & Hlen).
  assert (Huuid : forall i j,
             (i < length (groupMatchesByCategory ms))%nat ->
             (j < length (groupMatchesByCategory ms))%nat ->
             uuidAt sampleEnv i = uuidAt sampleEnv j -> i = j).
  { rewrite Hlen. intros i j Hi Hj.
    destruct i as [|[|i]]; destruct j as [|[|j]]; try lia;
      vm_compute; discriminate. }
  destruct (analyzeEmail_one_signal_per_category sampleEnv inboundEmail
              (new DEFAULT_CONFIG) ms eq_refl Hdet Huuid)
    as (out & s' & Hrun & Hmap & _ & _ & _ & Hcfg).
  exists out, s'. split; [exact Hrun|]. split; [|exact Hcfg].
  rewrite <- Hlen, <- (length_map snd), <- Hmap. symmetry. apply length_map.
Defined.

End EmailSignals.

Section TranscriptSignals.
Import Stall Regex StallDetector StallStatements StallSamples.

Lemma transcriptSignals_spec (cfg : StallDetectorConfig) (env : Env)
    (tr : CallTranscript)
    (groups : list (StallPhraseCategory * list StallPhraseMatch)) :
  Forall (fun g => snd g <> []) groups ->
  forall (k : nat) (acc : list StallSignal * gmap string StallSignal),
  exists new,
    transcriptSignals cfg env tr k groups acc
    = Some (fst acc ++ new, storeAll new (snd acc))
    /\ map phraseMatches new = map snd groups
    /\ map sig_id new = map (uuidAt env) (List.seq k (length groups))
    /\ Forall (transcriptSignalOf cfg env tr) new.
Proof.
  induction 1 as [|[c ms] groups Hg _ IH]; intros k acc.
  - exists []. simpl. rewrite app_nil_r. destruct acc.
    split; [reflexivity|]. split; [reflexivity|]. split; [reflexivity|constructor].
  - simpl in Hg. destruct ms as [|m more]; [congruence|].
    cbn [transcriptSignals createSignal].
    set (signal := {| sig_id := uuidAt env k |}).
    destruct (IH (S k) (fst acc ++ [signal], <[sig_id signal := signal]> (snd acc)))
      as (new & Hr & Hmap & Hids & Hall).
    exists (signal :: new). rewrite Hr. cbn [fst snd].
    split; [now rewrite <- app_assoc|]. split; [simpl; congruence|].
    split; [simpl; congruence|]. constructor; [|exact Hall].
    destruct (bestOf_max more m) as [Hin Hmax].
    unfold transcriptSignalOf, signal.
    cbn [source sourceId sourceTimestamp detectedAt phraseMatches baseConfidence
         rawContent timeDecayedConfidence aggregateStrength].
    repeat (split; [reflexivity|]). split; [|split; [exact Hmax|split; reflexivity]].
    exists (bestOf m more). split; [exact Hin|]. split; reflexivity.
Qed.

(** X22. [analyzeTranscript] returns on every transcript, with one signal
    for each category found in it, in the order in which the categories
    first occur. The signal holds all the matches of its category; its
    base confidence is the highest confidence among them. When [uuidv4()]
    gives distinct ids the signals are stored under their ids, and the
    rest of the store is as it was. *)
Theorem analyzeTranscript_one_signal_per_category
    (env : Env) (tr : CallTranscript) (s : Service) :
  exists matches out s',
    detectPhrases (transcript tr) = Some matches
    /\ analyzeTranscript env tr s = Some (out, s')
    /\ map phraseMatches out = map snd (groupMatchesByCategory matches)
    /\ Forall (transcriptSignalOf (config s) env tr) out
    /\ config s' = config s
    /\ ((forall i j, (i < length out)%nat -> (j < length out)%nat ->
                     uuidAt env i = uuidAt env j -> i = j) ->
        (forall signal, In signal out -> signals s' !! sig_id signal = Some signal)
        /\ (forall i, ~ In i (map sig_id out) -> signals s' !! i = signals s !! i)).
Proof.
  unfold analyzeTranscript.
  destruct (collect_total (transcript tr) _ STALL_PATTERNS_consume) as [ms Hms].
  assert (Hdet : detectPhrases (transcript tr)
                 = Some (stable_sort byPosition ms)).
  { unfold detectPhrases. now rewrite Hms. }
  rewrite Hdet. set (matches := stable_sort byPosition ms).
  exists matches.
  destruct (Nat.eqb_spec (length matches) 0) as [Hz | Hnz].
  - destruct matches; [|discriminate]. exists [], s.
    split; [reflexivity|]. split; [reflexivity|]. split; [reflexivity|].
    split; [constructor|]. split; [reflexivity|].
    intros _. split; [intros ? [] | reflexivity].
  - destruct (transcriptSignals_spec (config s) env tr
                _ (groups_nonempty matches) 0%nat ([], signals s))
      as (new & Hr & Hmap & Hids & Hall).
    rewrite Hr. cbn [fst snd app].
    eexists _, _. split; [reflexivity|]. split; [reflexivity|].
    cbn [signals config]. split; [exact Hmap|]. split; [exact Hall|].
    split; [reflexivity|]. intros Huuid.
    assert (Hlen : length new = length (groupMatchesByCategory matches)).
    { rewrite <- (length_map phraseMatches), Hmap. apply length_map. }
    assert (Hnd : List.NoDup (map sig_id new)).
    { rewrite Hids. apply NoDup_map_seq. intros i j Hi Hj. apply Huuid; lia. }
    exact (storeAll_lookup new Hnd (signals s)).
Qed.

End TranscriptSignals.

Section VerdictFacts.
Import Stall StallDetector StallStatements StallSamples.

#[local] Open Scope R_scope.

(** X23. With a positive half-life and a positive base confidence, a
    signal that is not dated after the moment of the call counts for no
    more than its base confidence and for no less than 0, and a signal
    that is not dated before it counts for no less than its base: a date
    in the future does not discount a signal. *)
Theorem calculateTimeDecayedConfidence_bound
    (cfg : StallDetectorConfig) (base : R) (date now : Z) :
  0 < timeDecayHalfLifeHours cfg ->
  0 < base ->
  ((date <= now)%Z ->
   0 <= calculateTimeDecayedConfidence cfg now base date <= base)
  /\ ((now <= date)%Z ->
      base <= calculateTimeDecayedConfidence cfg now base date).
Proof.
  intros Hh Hb. unfold calculateTimeDecayedConfidence. cbv zeta.
  set (x := hoursBetween now date / timeDecayHalfLifeHours cfg).
  pose proof (Rpower_half_pos x) as Hpos.
  assert (H3600 : 0 < IZR (1000 * 60 * 60)) by (apply IZR_lt; reflexivity).
  assert (Hinv : 0 < / timeDecayHalfLifeHours cfg) by now apply Rinv_0_lt_compat.
  assert (Hinv' : 0 < / IZR (1000 * 60 * 60)) by now apply Rinv_0_lt_compat.
  assert (Hone : Rpower (1 / 2) 0 = 1) by (apply Rpower_O; lra).
  split.
  - intros Hle.
    assert (Hx : 0 <= x).
    { unfold x, hoursBetween.
      assert (0 <= IZR (now - date)) by (apply IZR_le; lia).
      apply Rmult_le_pos; [|now left].
      apply Rmult_le_pos; [assumption | now left]. }
    pose proof (Rpower_half_antitone 0 x Hx) as Ha. rewrite Hone in Ha.
    split; nra.
  - intros Hle.
    assert (Hx : x <= 0).
    { unfold x, hoursBetween.
      assert (IZR (now - date) <= 0) by (apply IZR_le; lia).
      assert (IZR (now - date) / IZR (1000 * 60 * 60) <= 0).
      { unfold Rdiv. nra. }
      unfold Rdiv at 1. nra. }
    pose proof (Rpower_half_antitone x 0 Hx) as Ha. rewrite Hone in Ha.
    nra.
Qed.

Lemma calculateTimeDecayedConfidence_bound_witness :
  0 <= calculateTimeDecayedConfidence DEFAULT_CONFIG 172800000 (7 / 10) 0 <= 7 / 10
  /\ 7 / 10 <= calculateTimeDecayedConfidence DEFAULT_CONFIG 0 (7 / 10) 172800000.
Proof.
  assert (Hh : 0 < timeDecayHalfLifeHours DEFAULT_CONFIG) by (simpl; lra).
  assert (Hb : 0 < 7 / 10) by lra.
  destruct (calculateTimeDecayedConfidence_bound DEFAULT_CONFIG (7 / 10)
              0 172800000 Hh Hb) as [Hpast _].
  destruct (calculateTimeDecayedConfidence_bound DEFAULT_CONFIG (7 / 10)
              172800000 0 Hh Hb) as [_ Hfut].
  split; [apply Hpast; lia | apply Hfut; lia].
Defined.

Lemma calculateSeverity_cases (cfg : StallDetectorConfig) (score : R) :
  mediumThreshold cfg <= highThreshold cfg ->
  highThreshold cfg <= criticalThreshold cfg ->
  (calculateSeverity cfg score = CRITICAL /\ criticalThreshold cfg <= score)
  \/ (calculateSeverity cfg score = HIGH
      /\ highThreshold cfg <= score < criticalThreshold cfg)
  \/ (calculateSeverity cfg score = MEDIUM
      /\ mediumThreshold cfg <= score < highThreshold cfg)
  \/ (calculateSeverity cfg score = LOW /\ score < mediumThreshold cfg).
Proof.
  intros Hmh Hhc. unfold calculateSeverity.
  destruct (Rge_dec score (criticalThreshold cfg)); [left; split; [reflexivity|lra]|].
  destruct (Rge_dec score (highThreshold cfg));
    [right; left; split; [reflexivity|lra]|].
  destruct (Rge_dec score (mediumThreshold cfg));
    [right; right; left; split; [reflexivity|lra]|].
  right; right; right. split; [reflexivity|lra].
Qed.

(** X24. The verdict on a deal is coherent when the thresholds are
    ordered: the deal is stalled exactly when its severity is not LOW,
    and each severity is one band of the score. *)
Theorem stallVerdict_coherent (cfg : StallDetectorConfig) (now : Z)
    (validSignals : list StallSignal) :
  mediumThreshold cfg <= highThreshold cfg ->
  highThreshold cfg <= criticalThreshold cfg ->
  let '(stallScore, severity, isStalled) := stallVerdict cfg now validSignals in
  stallScore = calculateStallScore now validSignals
  /\ (isStalled = true <-> severity <> LOW)
  /\ (severity = CRITICAL <-> criticalThreshold cfg <= stallScore)
  /\ (severity = HIGH <-> highThreshold cfg <= stallScore < criticalThreshold cfg)
  /\ (severity = MEDIUM <-> mediumThreshold cfg <= stallScore < highThreshold cfg)
  /\ (severity = LOW <-> stallScore < mediumThreshold cfg).
Proof.
  intros Hmh Hhc. unfold stallVerdict. cbv zeta.
  set (score := calculateStallScore now validSignals).
  split; [reflexivity|].
  destruct (calculateSeverity_cases cfg score Hmh Hhc)
    as [[-> H] | [[-> H] | [[-> H] | [-> H]]]];
    destruct (Rge_dec score (mediumThreshold cfg)); try lra;
    repeat split; intros; try discriminate; try congruence; try lra.
Qed.

Lemma stallVerdict_coherent_witness :
  stallVerdict DEFAULT_CONFIG sampleNow [older] = (20, LOW, false).
Proof.
  assert (Hmh : mediumThreshold DEFAULT_CONFIG <= highThreshold DEFAULT_CONFIG)
    by (simpl; lra).
  assert (Hhc : highThreshold DEFAULT_CONFIG <= criticalThreshold DEFAULT_CONFIG)
    by (simpl; lra).
  pose proof (stallVerdict_coherent DEFAULT_CONFIG sampleNow [older] Hmh Hhc) as H.
  destruct (stallVerdict DEFAULT_CONFIG sampleNow [older]) as [[score sev] st].
  destruct H as (Hs & Hst & _ & _ & _ & Hlow).
  assert (Hscore : score = 20).
  { rewrite Hs, calculateStallScore_cons.
    change (latestOf older []) with older.
    assert (Hh : hoursBetween sampleNow (sourceTimestamp older) = 30).
    { unfold hoursBetween, sampleNow, older, signalAt. cbn [sourceTimestamp].
      change (360000000 - 252000000)%Z with 108000000%Z.
      change (1000 * 60 * 60)%Z with 3600000%Z. lra. }
    rewrite Hh. destruct (recencyBonus_cases 30) as (_ & Hb & _).
    rewrite Hb by lra.
    unfold decayedSum, older, signalAt. cbn [fold_right timeDecayedConfidence].
    unfold Rmin. destruct (Rle_dec _ _); lra. }
  assert (Hsev : sev = LOW) by (apply Hlow; rewrite Hscore; simpl; lra).
  assert (Hstalled : st = false).
  { destruct st; [|reflexivity]. exfalso. now apply Hst. }
  now rewrite Hscore, Hsev, Hstalled.
Defined.

(** X25. Under the default configuration a deal whose signals are all
    older than the maximal signal age is not stalled, and neither is a
    deal with a single signal whose decayed confidence is at most 0.9,
    the highest confidence in the table of patterns; two signals of
    decayed confidence one half or more, the later less than a day old,
    make it stalled. *)
Theorem stallVerdict_default_cases (now : Z) :
  (forall dealSignals,
     Forall (fun s => maxSignalAgeHours DEFAULT_CONFIG
                      < hoursBetween now (sourceTimestamp s)) dealSignals ->
     stallVerdict DEFAULT_CONFIG now (validSignalsOf DEFAULT_CONFIG now dealSignals)
     = (0, LOW, false))
  /\ Forall (fun p => (pp_baseConfidence p <= 0.9)%Q) STALL_PATTERNS
  /\ (forall s, timeDecayedConfidence s <= 9 / 10 ->
        snd (stallVerdict DEFAULT_CONFIG now [s]) = false
        /\ snd (fst (stallVerdict DEFAULT_CONFIG now [s])) = LOW)
  /\ (forall s1 s2,
        1 / 2 <= timeDecayedConfidence s1 ->
        1 / 2 <= timeDecayedConfidence s2 ->
        hoursBetween now (sourceTimestamp (latestOf s1 [s2])) < 24 ->
        snd (stallVerdict DEFAULT_CONFIG now [s1; s2]) = true).
Proof.
  split; [|split; [|split]].
  - intros dealSignals Hold.
    assert (Hnone : validSignalsOf DEFAULT_CONFIG now dealSignals = []).
    { unfold validSignalsOf. induction Hold as [|s l Hs _ IH]; [reflexivity|].
      cbn [List.filter]. cbv zeta.
      destruct (Rle_dec _ _) as [Hle | _]; [exfalso; lra | exact IH]. }
    rewrite Hnone. unfold stallVerdict, calculateSeverity. cbv zeta. simpl.
    repeat (destruct (Rge_dec _ _) as [H | _]; [exfalso; lra|]). reflexivity.
  - apply List.Forall_forall. intros p Hp. apply Qle_bool_iff.
    assert (H : forallb (fun p => Qle_bool (pp_baseConfidence p) 0.9)
                  STALL_PATTERNS = true) by (vm_compute; reflexivity).
    rewrite forallb_forall in H. exact (H p Hp).
  - intros s Hs. unfold stallVerdict. cbv zeta. cbn [fst snd].
    rewrite calculateStallScore_cons. simpl decayedSum.
    set (b := recencyBonus _).
    assert (Hb : 0 <= b <= 10) by apply recencyBonus_bounds.
    assert (Hlt : Rmin 100 (timeDecayedConfidence s * 30 + 0 + b) <= 37).
    { eapply Rle_trans; [apply Rmin_r | lra]. }
    unfold calculateSeverity. simpl.
    repeat (destruct (Rge_dec _ _) as [H | _]; [exfalso; lra|]).
    split; reflexivity.
  - intros s1 s2 H1 H2 Hrecent. unfold stallVerdict. cbv zeta. cbn [snd].
    rewrite calculateStallScore_cons. simpl decayedSum.
    destruct (recencyBonus_cases
                (hoursBetween now (sourceTimestamp (latestOf s1 [s2]))))
      as (Hb & _ & _).
    rewrite (Hb Hrecent). simpl.
    destruct (Rge_dec _ _) as [_ | Hn]; [reflexivity|].
    exfalso. apply Hn. unfold Rmin. destruct (Rle_dec _ _); lra.
Qed.

End VerdictFacts.

Section StrengthFacts.
Import Stall StallDetector StallStatements StallSamples.

#[local] Open Scope Q_scope.

#[local] Ltac qlra := Lqa.lra.

Lemma fold_Qmax_bounds (rest : list StallPhraseMatch) (init hi : Q) :
  init <= hi ->
  Forall (fun m => m_confidence m <= hi) rest ->
  let top := fold_left (fun acc m' => Qmax acc (m_confidence m')) rest init in
  init <= top /\ top <= hi
  /\ forall m, In m rest -> m_confidence m <= top.
Proof.
  revert init. induction rest as [|x rest IH]; intros init Hi Hall; cbv zeta; simpl.
  - split; [apply Qle_refl|]. split; [exact Hi|]. intros m [].
  - inversion Hall as [|? ? Hx Hrest]; subst.
    assert (Hmax : Qmax init (m_confidence x) <= hi) by (apply Q.max_lub; assumption).
    destruct (IH _ Hmax Hrest) as (H1 & H2 & H3). cbv zeta in H1, H2, H3.
    split; [eapply Qle_trans; [apply Q.le_max_l | exact H1]|].
    split; [exact H2|].
    intros m [<- | Hm]; [|now apply H3].
    eapply Qle_trans; [apply Q.le_max_r | exact H1].
Qed.

(** X26. The aggregate strength is never above 10. For confidences
    between 0 and 1 it is at least eight times each of them and at most
    9.5: the cap at 10 is not reached. *)
Theorem calculateAggregateStrength_range (matches : list StallPhraseMatch) :
  matches <> [] ->
  Forall (fun m => 0 <= m_confidence m /\ m_confidence m <= 1) matches ->
  calculateAggregateStrength matches <= 10
  /\ calculateAggregateStrength matches <= 19 # 2
  /\ forall m, In m matches ->
       m_confidence m * 8 <= calculateAggregateStrength matches.
Proof.
  intros Hne Hall. destruct matches as [|m0 rest]; [congruence|].
  inversion Hall as [|? ? [H0 H1] Hrest]; subst.
  unfold calculateAggregateStrength.
  set (top := fold_left _ rest (m_confidence m0)).
  set (bonus := inject_Z _ * 0.5).
  assert (Hrest' : Forall (fun m => m_confidence m <= 1) rest).
  { eapply List.Forall_impl; [|exact Hrest]. intros a [_ Ha]. exact Ha. }
  destruct (fold_Qmax_bounds rest (m_confidence m0) 1 H1 Hrest')
    as (Hlo & Hhi & Hin). cbv zeta in Hlo, Hhi, Hin. fold top in Hlo, Hhi, Hin.
  assert (Hb : 0 <= bonus /\ bonus <= 3 # 2).
  { unfold bonus.
    set (z := Z.min (Z.of_nat (length (m0 :: rest)) - 1) 3).
    assert (Hz : (0 <= z <= 3)%Z) by (unfold z; simpl length; lia).
    assert (Hq0 : inject_Z 0 <= inject_Z z) by (rewrite <- Zle_Qle; lia).
    assert (Hq3 : inject_Z z <= inject_Z 3) by (rewrite <- Zle_Qle; lia).
    change (inject_Z 0) with 0 in Hq0. change (inject_Z 3) with 3 in Hq3.
    split; qlra. }
  destruct Hb as [Hb0 Hb1].
  assert (Hv : top * 8 + bonus <= 19 # 2) by qlra.
  assert (Hmin : Qmin 10 (top * 8 + bonus) == top * 8 + bonus).
  { apply Q.min_r. eapply Qle_trans; [exact Hv | discriminate]. }
  split; [apply Q.le_min_l|]. split; [now rewrite Hmin|].
  intros m Hm. rewrite Hmin.
  assert (Hmt : m_confidence m <= top).
  { destruct Hm as [<- | Hm]; [exact Hlo | now apply Hin]. }
  qlra.
Qed.

Lemma calculateAggregateStrength_range_witness :
  calculateAggregateStrength [matchOf THINKING 0.7 0; matchOf THINKING 0.9 30] <= 19 # 2
  /\ 0.9 * 8 <= calculateAggregateStrength
                  [matchOf THINKING 0.7 0; matchOf THINKING 0.9 30].
Proof.
  assert (Hne : [matchOf THINKING 0.7 0; matchOf THINKING 0.9 30] <> [])
    by discriminate.
  assert (Hall : Forall (fun m => 0 <= m_confidence m /\ m_confidence m <= 1)
                   [matchOf THINKING 0.7 0; matchOf THINKING 0.9 30]).
  { repeat constructor; simpl; discriminate. }
  destruct (calculateAggregateStrength_range _ Hne Hall) as (_ & Hhi & Hlo).
  split; [exact Hhi|].
  apply (Hlo (matchOf THINKING 0.9 30)). right. now left.
Defined.

End StrengthFacts.

Section PrimaryCategory.
Import Stall StallDetector StallStatements StallSamples.

#[local] Open Scope Q_scope.

#[local] Ltac qlra := Lqa.lra.

Lemma scoreOf_addScore (c c' : StallPhraseCategory) (x : Q)
    (scores : list (StallPhraseCategory * Q)) :
  scoreOf c (addScore c' x scores)
  = if bool_decide (c' = c)
    then Some (match scoreOf c scores with
               | Some v => if Qeq_bool v 0 then 0 else v
               | None => 0
               end + x)
    else scoreOf c scores.
Proof.
  induction scores as [|[k v] scores IH]; simpl.
  - destruct (bool_decide (c' = c)); reflexivity.
  - destruct (bool_decide_reflect (k = c')) as [-> | Hne]; simpl.
    + destruct (bool_decide (c' = c)); reflexivity.
    + destruct (bool_decide_reflect (k = c)) as [<- | Hc].
      * destruct (bool_decide_reflect (c' = k)) as [E | _];
          [congruence | reflexivity].
      * exact IH.
Qed.

Lemma keys_addScore (k c : StallPhraseCategory) (x : Q)
    (scores : list (StallPhraseCategory * Q)) :
  In k (map fst (addScore c x scores)) <-> In k (map fst scores) \/ k = c.
Proof.
  induction scores as [|[c' v] scores IH]; simpl.
  - split; [intros [<- | []]; now right | intros [[] | ->]; now left].
  - destruct (bool_decide_reflect (c' = c)) as [-> | Hne]; simpl.
    + split; [tauto | intros [H | ->]; [exact H | now left]].
    + rewrite IH. tauto.
Qed.

Lemma NoDup_addScore (c : StallPhraseCategory) (x : Q)
    (scores : list (StallPhraseCategory * Q)) :
  List.NoDup (map fst scores) -> List.NoDup (map fst (addScore c x scores)).
Proof.
  induction scores as [|[c' v] scores IH]; simpl; intros Hnd.
  - constructor; [intros [] | constructor].
  - inversion Hnd as [|? ? Hc Hg]; subst.
    destruct (bool_decide_reflect (c' = c)) as [-> | Hne]; simpl.
    + now constructor.
    + constructor; [|now apply IH].
      rewrite keys_addScore. intros [H | H]; [now apply Hc | now apply Hne].
Qed.

Lemma scoreOf_In (c : StallPhraseCategory) (v : Q)
    (scores : list (StallPhraseCategory * Q)) :
  List.NoDup (map fst scores) -> In (c, v) scores -> scoreOf c scores = Some v.
Proof.
  induction scores as [|[c' v'] scores IH]; simpl; intros Hnd; [intros []|].
  inversion Hnd as [|? ? Hc Hg]; subst.
  destruct (bool_decide_reflect (c' = c)) as [-> | Hne].
  - intros [H | H]; [congruence|]. exfalso. apply Hc.
    change c with (fst (c, v)). now apply in_map.
  - intros [H | H]; [congruence | now apply IH].
Qed.

Lemma sumConfidences_app (l1 l2 : list StallPhraseMatch) :
  sumConfidences (l1 ++ l2) == sumConfidences l1 + sumConfidences l2.
Proof.
  induction l1 as [|m l1 IH]; simpl; [qlra|].
  unfold sumConfidences in *. simpl. rewrite IH. qlra.
Qed.

(** The loops of [determinePrimaryCategory] over the signals and their
    matches are one loop over all the matches. *)
Lemma categoryScoresOf_flat (signals : list StallSignal)
    (scores : list (StallPhraseCategory * Q)) :
  fold_left
    (fun scores signal =>
       fold_left (fun scores m => addScore (category m) (m_confidence m) scores)
                 (phraseMatches signal) scores)
    signals scores
  = fold_left (fun scores m => addScore (category m) (m_confidence m) scores)
      (flat_map phraseMatches signals) scores.
Proof.
  revert scores. induction signals as [|s signals IH]; intros scores; simpl.
  - reflexivity.
  - now rewrite fold_left_app, IH.
Qed.

(** The scores are the sums of the confidences, category by category. *)
Lemma scores_are_totals (ms : list StallPhraseMatch) :
  let scores :=
    fold_left (fun scores m => addScore (category m) (m_confidence m) scores) ms [] in
  List.NoDup (map fst scores)
  /\ forall c, match scoreOf c scores with
               | Some v => v == sumConfidences (ofCategory c ms)
               | None => ofCategory c ms = []
               end.
Proof.
  cbv zeta. induction ms as [|m ms [IHn IH]] using rev_ind.
  - split; [constructor | reflexivity].
  - rewrite fold_left_app. cbn [fold_left].
    split; [now apply NoDup_addScore|].
    intros c. rewrite scoreOf_addScore, ofCategory_snoc. specialize (IH c).
    destruct (bool_decide (category m = c)).
    + rewrite sumConfidences_app.
      assert (Hm : sumConfidences [m] == m_confidence m)
        by (unfold sumConfidences; simpl; qlra).
      rewrite Hm.
      destruct (scoreOf c _) as [v|].
      * destruct (Qeq_bool v 0) eqn:Ev.
        -- apply Qeq_bool_eq in Ev. rewrite <- IH, Ev. reflexivity.
        -- now rewrite IH.
      * rewrite IH. reflexivity.
    + rewrite app_nil_r. exact IH.
Qed.

(** The search for the highest score. *)
Lemma highest_score (scores : list (StallPhraseCategory * Q))
    (acc : option StallPhraseCategory * Q) :
  let r := fold_left
             (fun (acc : option StallPhraseCategory * Q) entry =>
                let '(maxCategory, maxScore) := acc in
                let '(c, score) := entry in
                if Qltb maxScore score then (Some c, score)
                else (maxCategory, maxScore))
             scores acc in
  snd acc <= snd r
  /\ (forall c v, In (c, v) scores -> v <= snd r)
  /\ (r = acc
      \/ exists c v, fst r = Some c /\ In (c, v) scores /\ snd r = v
                     /\ snd acc < v).
Proof.
  revert acc. induction scores as [|[c v] scores IH]; intros [cat best]; cbv zeta.
  - simpl. split; [apply Qle_refl|]. split; [intros ? ? []|]. now left.
  - cbn [fold_left]. destruct (Qltb best v) eqn:E.
    + apply Qltb_lt in E.
      destruct (IH (Some c, v)) as (Hle & Hall & Hcase). cbv zeta in Hle, Hall, Hcase.
      cbn [fst snd] in *. split; [qlra|]. split.
      * intros c' v' [H | H]; [inversion H; subst; exact Hle | exact (Hall _ _ H)].
      * right. destruct Hcase as [-> | (c' & v' & Hr & Hin & Hv & Hlt)].
        -- exists c, v. cbn [fst snd]. split; [reflexivity|].
           split; [now left|]. split; [reflexivity | exact E].
        -- exists c', v'. split; [exact Hr|]. split; [now right|].
           split; [exact Hv | qlra].
    + apply Qltb_ge in E.
      destruct (IH (cat, best)) as (Hle & Hall & Hcase). cbv zeta in Hle, Hall, Hcase.
      cbn [fst snd] in *. split; [exact Hle|]. split.
      * intros c' v' [H | H]; [inversion H; subst; qlra | exact (Hall _ _ H)].
      * destruct Hcase as [-> | (c' & v' & Hr & Hin & Hv & Hlt)]; [now left|].
        right. exists c', v'. split; [exact Hr|]. split; [now right|].
        split; [exact Hv | exact Hlt].
Qed.

(** X27. The primary category is a category whose matches have the
    highest summed confidence, and that sum is positive; there is none
    exactly when no category has a positive sum. *)
Theorem determinePrimaryCategory_highest (signals : list StallSignal) :
  (forall c, determinePrimaryCategory signals = Some c ->
     0 < categoryTotal c signals
     /\ forall c', categoryTotal c' signals <= categoryTotal c signals)
  /\ (determinePrimaryCategory signals = None <->
      forall c, categoryTotal c signals <= 0).
Proof.
  assert (Hsome : forall c, determinePrimaryCategory signals = Some c ->
            0 < categoryTotal c signals
            /\ forall c', categoryTotal c' signals <= categoryTotal c signals).
  { intros c Hc. unfold determinePrimaryCategory in Hc.
    destruct signals as [|s0 rest]; [discriminate|].
    set (signals := s0 :: rest) in *.
    unfold categoryScoresOf in Hc. rewrite categoryScoresOf_flat in Hc.
    destruct (scores_are_totals (flat_map phraseMatches signals)) as [Hnd Htot].
    cbv zeta in Hnd, Htot.
    set (scores := fold_left _ (flat_map phraseMatches signals) []) in *.
    destruct (highest_score scores (None, 0)) as (_ & Hall & Hcase).
    cbv zeta in Hall, Hcase.
    destruct Hcase as [Hr | (c0 & v & Hr & Hin & Hv & Hlt)].
    { rewrite Hr in Hc. discriminate. }
    rewrite Hr in Hc. inversion Hc; subst c0. cbn [snd] in Hlt.
    assert (Hcv : v == categoryTotal c signals).
    { pose proof (Htot c) as H. rewrite (scoreOf_In c v scores Hnd Hin) in H.
      exact H. }
    split; [rewrite <- Hcv; exact Hlt|].
    intros c'. pose proof (Htot c') as H'.
    destruct (scoreOf c' scores) as [v'|] eqn:E'.
    - unfold categoryTotal at 1. rewrite <- H', <- Hcv, <- Hv.
      apply (Hall c' v').
      clear - E'. induction scores as [|[k w] scores IH]; [discriminate|].
      simpl in E'. destruct (bool_decide_reflect (k = c')) as [-> | _].
      + inversion E'. now left.
      + right. now apply IH.
    - unfold categoryTotal at 1. rewrite H'. rewrite <- Hcv.
      unfold sumConfidences. simpl. qlra. }
  split; [exact Hsome|]. split.
  - intros Hnone c. unfold determinePrimaryCategory in Hnone.
    destruct signals as [|s0 rest]; [unfold categoryTotal; simpl; discriminate|].
    set (signals := s0 :: rest) in *.
    unfold categoryScoresOf in Hnone. rewrite categoryScoresOf_flat in Hnone.
    destruct (scores_are_totals (flat_map phraseMatches signals)) as [Hnd Htot].
    cbv zeta in Hnd, Htot.
    set (scores := fold_left _ (flat_map phraseMatches signals) []) in *.
    destruct (highest_score scores (None, 0)) as (_ & Hall & Hcase).
    cbv zeta in Hall, Hcase.
    destruct Hcase as [Hr | (c0 & v & Hr & _)]; [|rewrite Hr in Hnone; discriminate].
    rewrite Hr in Hall. cbn [snd] in Hall.
    pose proof (Htot c) as H.
    destruct (scoreOf c scores) as [v|] eqn:E.
    + unfold categoryTotal. rewrite <- H. apply (Hall c v).
      clear - E. induction scores as [|[k w] scores IH]; [discriminate|].
      simpl in E. destruct (bool_decide_reflect (k = c)) as [-> | _].
      * inversion E. now left.
      * right. now apply IH.
    + unfold categoryTotal. rewrite H. unfold sumConfidences. simpl. discriminate.
  - intros Hall. destruct (determinePrimaryCategory signals) as [c|] eqn:E;
      [|reflexivity].
    destruct (Hsome c eq_refl) as [Hpos _]. specialize (Hall c). qlra.
Qed.

End PrimaryCategory.
